(** * GodotJS bridge: a shallow embedding of [jsb::Environment]

    The development follows [src/bridge/jsb_environment.cpp] (the object
    binding registry, the module cache, the call bridge and cross-binding)
    and [src/impl/quickjs/jsb_quickjs_catch.cpp] (exception capture).

    Conventions.
    - Host addresses ([void*], [Object*]) are natural numbers, [0] being
      [nullptr].  Ids ([NativeObjectID], [NativeClassID], [ScriptClassID])
      are natural numbers whose value [0] is the empty id written [{}] in
      the source and tested by the id's conversion to [bool].
    - The build that is modelled is the one in which [jsb_check],
      [jsb_checkf] and [jsb_v8_check] are live: a failed check aborts the
      program, which the model renders as the result [Crash].
    - Every operation runs in the monad [M]: the [Environment] is threaded
      through and a crash stops the computation.
    - What the environment does to its collaborators (the script engine,
      the host, the log) is recorded, in order, in the ghost field
      [trace_]. *)

From stdpp Require Import gmap strings list fin_maps.

Open Scope N_scope.

(* ===================================================================== *)
(** ** Outcomes and the environment monad *)
(* ===================================================================== *)

Inductive Result (A : Type) : Type :=
| Ok (a : A)
| Crash (msg : string).
Arguments Ok {A} a.
Arguments Crash {A} msg.

(* ===================================================================== *)
(** ** Script values and engine handles *)
(* ===================================================================== *)

Abbreviation Ptr := N (only parsing).
Abbreviation NativeObjectID := N (only parsing).
Abbreviation NativeClassID := N (only parsing).
Abbreviation ScriptClassID := N (only parsing).
Abbreviation ThreadID := N (only parsing).
Abbreviation ObjRef := N (only parsing).

Inductive ObjectKind := KPlain | KFunction | KPromise | KArray.

(** A [v8::Local<v8::Object>] that is not empty: the identity of the
    object on the engine's heap and what kind of object it is. *)
Record JSObject := mkJSObject {
  obj_kind : ObjectKind;
  obj_ref : ObjRef
}.

(** A [v8::Local<v8::Value>] that is not empty. *)
Inductive JSValue :=
| VUndefined
| VNull
| VBoolean (b : bool)
| VNumber (z : Z)
| VString (s : string)
| VSymbol (sym : N)
| VObject (o : JSObject).

Definition IsObject (v : JSValue) : bool :=
  match v with VObject _ => true | _ => false end.

Definition IsPromise (v : JSValue) : bool :=
  match v with VObject (mkJSObject KPromise _) => true | _ => false end.

Definition IsFunction (v : JSValue) : bool :=
  match v with VObject (mkJSObject KFunction _) => true | _ => false end.

Definition IsArray (v : JSValue) : bool :=
  match v with VObject (mkJSObject KArray _) => true | _ => false end.


(** [v8::Global<v8::Object>]: empty, strong, or weak with the parameter
    handed to the weak callback ([object_gc_callback<true>]). *)
Inductive Global :=
| GEmpty
| GStrong (obj : JSValue)
| GWeak (obj : JSValue) (parameter : Ptr).

Definition Global_IsEmpty (g : Global) : bool :=
  match g with GEmpty => true | _ => false end.

Definition Global_IsWeak (g : Global) : bool :=
  match g with GWeak _ _ => true | _ => false end.

Definition Global_Get (g : Global) : option JSValue :=
  match g with
  | GEmpty => None
  | GStrong o | GWeak o _ => Some o
  end.

Definition Global_Reset (o : JSValue) : Global := GStrong o.

Definition Global_ClearWeak (g : Global) : Global :=
  match g with
  | GWeak o _ => GStrong o
  | _ => g
  end.

Definition Global_SetWeak (parameter : Ptr) (g : Global) : Global :=
  match g with
  | GEmpty => GEmpty
  | GStrong o | GWeak o _ => GWeak o parameter
  end.

(** The exception object the engine keeps at [StackPos::Exception]; the
    four properties are the ones [TryCatch::get_message] reads.  A nullish
    [fileName] or [lineNumber] is [None]. *)
Record JSException := mkJSException {
  ex_fileName : option string;
  ex_lineNumber : option string;
  ex_message : string;
  ex_stack : string
}.

(** The part of the engine the bridge reads and writes: the pending
    exception, and of each object the [IF_Pointer] internal field, the
    prototype, the named properties, the elements when it is an array,
    and whether it is extensible. *)
Record Isolate := mkIsolate {
  exception_ : option JSException;
  internal_fields_ : gmap N N;
  prototypes_ : gmap N JSValue;
  properties_ : gmap (N * string) JSValue;
  elements_ : gmap N (list JSValue);
  non_extensible_ : gset N
}.

Definition iso_set_exception (e : option JSException) (i : Isolate) : Isolate :=
  mkIsolate e (internal_fields_ i) (prototypes_ i) (properties_ i) (elements_ i)
    (non_extensible_ i).

Definition iso_set_internal_fields (f : gmap N N) (i : Isolate) : Isolate :=
  mkIsolate (exception_ i) f (prototypes_ i) (properties_ i) (elements_ i)
    (non_extensible_ i).

Definition iso_set_prototypes (f : gmap N JSValue) (i : Isolate) : Isolate :=
  mkIsolate (exception_ i) (internal_fields_ i) f (properties_ i) (elements_ i)
    (non_extensible_ i).

Definition iso_set_properties (f : gmap (N * string) JSValue) (i : Isolate) : Isolate :=
  mkIsolate (exception_ i) (internal_fields_ i) (prototypes_ i) f (elements_ i)
    (non_extensible_ i).

Definition iso_set_elements (f : gmap N (list JSValue)) (i : Isolate) : Isolate :=
  mkIsolate (exception_ i) (internal_fields_ i) (prototypes_ i) (properties_ i) f
    (non_extensible_ i).

(* ===================================================================== *)
(** ** Host values *)
(* ===================================================================== *)

(** A Godot [Variant], as far as the call bridge looks at it. *)
Inductive Variant :=
| VarNil
| VarBool (b : bool)
| VarInt (z : Z)
| VarString (s : string)
| VarObject (p : Ptr).

(** [Callable::CallError::Error]. *)
Inductive CallErrorCode :=
| CALL_OK
| CALL_ERROR_INVALID_METHOD
| CALL_ERROR_INVALID_ARGUMENT
| CALL_ERROR_TOO_MANY_ARGUMENTS
| CALL_ERROR_TOO_FEW_ARGUMENTS
| CALL_ERROR_INSTANCE_IS_NULL
| CALL_ERROR_METHOD_NOT_CONST.

(** [Callable::CallError]. *)
Record CallError := mkCallError {
  error : CallErrorCode;
  argument : Z;
  expected : Z
}.

Definition set_error (c : CallErrorCode) (e : CallError) : CallError :=
  mkCallError c (argument e) (expected e).

(* ===================================================================== *)
(** ** The trace of external effects *)
(* ===================================================================== *)

Inductive LogLevel := VeryVerbose | Verbose | Warning | Error | Fatal.

Inductive LogArg :=
| LInt (n : N)
| LStr (s : string).

(** A call the host makes back into the environment through
    [InstanceBindingCallbacks] while a finalizer deletes host objects. *)
Inductive HostCallback :=
| CbFree (p_instance p_binding : Ptr)
| CbReference (p_binding : Ptr) (p_reference : bool).

Inductive Event :=
| EvLog (level : LogLevel) (fmt : string) (args : list LogArg)
| EvClearWeak (object_id : N)
| EvSetWeak (object_id : N) (parameter : Ptr)
| EvIndexInsert (p : Ptr) (object_id : N)
| EvIndexErase (p : Ptr)
| EvInstanceBinding (p : Ptr)
| EvFinalizer (class_id : N) (p : Ptr) (persistent : bool)
| EvCall (func self : JSValue) (argv : list JSValue)
| EvConstruct (class_obj : JSValue) (argv : list JSValue)
| EvThrow (msg : string)
| EvLoaderLoad (loader : string) (module_id : string)
| EvResolve (resolver : N) (module_id : string)
| EvResolverLoad (resolver : N) (path : string).

Definition is_finalizer_event (e : Event) : bool :=
  match e with EvFinalizer _ _ _ => true | _ => false end.

Definition is_construct_event (e : Event) : bool :=
  match e with EvConstruct _ _ => true | _ => false end.

Definition is_loading_event (e : Event) : bool :=
  match e with
  | EvLoaderLoad _ _ | EvResolve _ _ | EvResolverLoad _ _ => true
  | _ => false
  end.

Definition is_load_event (e : Event) : bool :=
  match e with
  | EvLoaderLoad _ _ | EvResolverLoad _ _ => true
  | _ => false
  end.

(* ===================================================================== *)
(** ** Registered classes, object handles, modules *)
(* ===================================================================== *)

Inductive NativeClassType := NativeClassType_None | GodotObject | GodotPrimitive.

Definition NativeClassType_eqb (a b : NativeClassType) : bool :=
  match a, b with
  | NativeClassType_None, NativeClassType_None
  | GodotObject, GodotObject
  | GodotPrimitive, GodotPrimitive => true
  | _, _ => false
  end.

(** Modelled from the spec: [NativeClassInfo] is declared outside
    [src/]; the spec gives it a type name, a finalizer callback and the
    discriminator between host identity objects and value types.  The
    finalizer is host code: what the model keeps of it is the sequence of
    instance-binding callbacks ([free_callback], [reference_callback])
    the host fires while the finalizer unreferences and deletes the
    object. *)
Record NativeClassInfo := mkNativeClassInfo {
  name : string;
  type : NativeClassType;
  finalizer : Ptr -> bool -> list HostCallback
}.

(** Modelled from the spec: [ObjectHandle] is declared outside [src/];
    the spec lists a class identifier, a strong-or-weak script handle, a
    reference count and (debug only) the bound address.  The count is a
    natural number; a value-initialised handle ([objects_.add({})]) has
    every field zero or empty. *)
Record ObjectHandle := mkObjectHandle {
  class_id : NativeClassID;
  pointer : Ptr;
  ref_ : Global;
  ref_count_ : N
}.

Definition ObjectHandle_default : ObjectHandle := mkObjectHandle 0 0 GEmpty 0.

Definition set_class_id (c : NativeClassID) (h : ObjectHandle) : ObjectHandle :=
  mkObjectHandle c (pointer h) (ref_ h) (ref_count_ h).

Definition set_pointer (p : Ptr) (h : ObjectHandle) : ObjectHandle :=
  mkObjectHandle (class_id h) p (ref_ h) (ref_count_ h).

Definition set_ref_ (g : Global) (h : ObjectHandle) : ObjectHandle :=
  mkObjectHandle (class_id h) (pointer h) g (ref_count_ h).

Definition set_ref_count_ (n : N) (h : ObjectHandle) : ObjectHandle :=
  mkObjectHandle (class_id h) (pointer h) (ref_ h) n.

(** Modelled from the spec: [ScriptClassInfo] is declared outside
    [src/]; the fields are the ones [crossbind] and [_rebind] read. *)
Record ScriptClassInfo := mkScriptClassInfo {
  js_class_name : string;
  native_class_name : string;
  native_class_id : NativeClassID;
  js_class : Global
}.

Record ModuleSourceInfo := mkModuleSourceInfo {
  source_filepath : string;
  package_filepath : string
}.

Definition ModuleSourceInfo_default : ModuleSourceInfo := mkModuleSourceInfo "" "".

(** Modelled from the spec: [JavaScriptModule] is declared outside
    [src/]; the spec gives it an identity, an exports object, the module
    object that carries the children list, an optional owning script
    class and the reload-requested flag. *)
Record JavaScriptModule := mkJavaScriptModule {
  id : string;
  source_info : ModuleSourceInfo;
  module : Global;
  exports : Global;
  script_class_id : ScriptClassID;
  reload_requested : bool
}.

(** Modelled from the spec: [JavaScriptModule::is_loaded] is declared
    outside [src/]; a module counts as loaded unless it is dirty, that is
    unless a reload of it has been requested. *)
Definition is_loaded (m : JavaScriptModule) : bool := negb (reload_requested m).

Definition set_reload_requested (b : bool) (m : JavaScriptModule) : JavaScriptModule :=
  mkJavaScriptModule (id m) (source_info m) (module m) (exports m) (script_class_id m) b.

Definition set_module (g : Global) (m : JavaScriptModule) : JavaScriptModule :=
  mkJavaScriptModule (id m) (source_info m) g (exports m) (script_class_id m) (reload_requested m).

Definition set_source_info (si : ModuleSourceInfo) (m : JavaScriptModule) : JavaScriptModule :=
  mkJavaScriptModule (id m) si (module m) (exports m) (script_class_id m) (reload_requested m).

Definition set_exports (g : Global) (m : JavaScriptModule) : JavaScriptModule :=
  mkJavaScriptModule (id m) (source_info m) (module m) g (script_class_id m) (reload_requested m).

(* ===================================================================== *)
(** ** The environment *)
(* ===================================================================== *)

(** The members of [jsb::Environment] the modelled operations touch.
    [in_store_] is the membership of [this] in
    [EnvironmentStore::all_runtimes_] (set by [add] in the constructor,
    cleared by [remove] in [dispose]); [next_ref_] is the engine's supply
    of fresh object identities; [trace_] is ghost state. *)
Record Environment := mkEnvironment {
  thread_id_ : ThreadID;
  isolate_ : Isolate;
  native_classes_ : gmap N NativeClassInfo;
  script_classes_ : gmap N ScriptClassInfo;
  objects_ : gmap N ObjectHandle;
  objects_index_ : gmap N N;
  persistent_objects_ : gset N;
  module_cache_ : gmap string JavaScriptModule;
  module_loaders_ : gset string;
  module_resolvers_ : list N;
  in_store_ : bool;
  next_ref_ : N;
  trace_ : list Event
}.

Definition set_isolate_ (x : Isolate) (e : Environment) : Environment :=
  mkEnvironment (thread_id_ e) x (native_classes_ e) (script_classes_ e)
    (objects_ e) (objects_index_ e) (persistent_objects_ e) (module_cache_ e)
    (module_loaders_ e) (module_resolvers_ e) (in_store_ e) (next_ref_ e) (trace_ e).

Definition set_native_classes_ (x : gmap N NativeClassInfo) (e : Environment) : Environment :=
  mkEnvironment (thread_id_ e) (isolate_ e) x (script_classes_ e)
    (objects_ e) (objects_index_ e) (persistent_objects_ e) (module_cache_ e)
    (module_loaders_ e) (module_resolvers_ e) (in_store_ e) (next_ref_ e) (trace_ e).

Definition set_script_classes_ (x : gmap N ScriptClassInfo) (e : Environment) : Environment :=
  mkEnvironment (thread_id_ e) (isolate_ e) (native_classes_ e) x
    (objects_ e) (objects_index_ e) (persistent_objects_ e) (module_cache_ e)
    (module_loaders_ e) (module_resolvers_ e) (in_store_ e) (next_ref_ e) (trace_ e).

Definition set_objects_ (x : gmap N ObjectHandle) (e : Environment) : Environment :=
  mkEnvironment (thread_id_ e) (isolate_ e) (native_classes_ e) (script_classes_ e)
    x (objects_index_ e) (persistent_objects_ e) (module_cache_ e)
    (module_loaders_ e) (module_resolvers_ e) (in_store_ e) (next_ref_ e) (trace_ e).

Definition set_objects_index_ (x : gmap N N) (e : Environment) : Environment :=
  mkEnvironment (thread_id_ e) (isolate_ e) (native_classes_ e) (script_classes_ e)
    (objects_ e) x (persistent_objects_ e) (module_cache_ e)
    (module_loaders_ e) (module_resolvers_ e) (in_store_ e) (next_ref_ e) (trace_ e).

Definition set_persistent_objects_ (x : gset N) (e : Environment) : Environment :=
  mkEnvironment (thread_id_ e) (isolate_ e) (native_classes_ e) (script_classes_ e)
    (objects_ e) (objects_index_ e) x (module_cache_ e)
    (module_loaders_ e) (module_resolvers_ e) (in_store_ e) (next_ref_ e) (trace_ e).

Definition set_module_cache_ (x : gmap string JavaScriptModule) (e : Environment) : Environment :=
  mkEnvironment (thread_id_ e) (isolate_ e) (native_classes_ e) (script_classes_ e)
    (objects_ e) (objects_index_ e) (persistent_objects_ e) x
    (module_loaders_ e) (module_resolvers_ e) (in_store_ e) (next_ref_ e) (trace_ e).

Definition set_module_resolvers_ (x : list N) (e : Environment) : Environment :=
  mkEnvironment (thread_id_ e) (isolate_ e) (native_classes_ e) (script_classes_ e)
    (objects_ e) (objects_index_ e) (persistent_objects_ e) (module_cache_ e)
    (module_loaders_ e) x (in_store_ e) (next_ref_ e) (trace_ e).

Definition set_next_ref_ (x : N) (e : Environment) : Environment :=
  mkEnvironment (thread_id_ e) (isolate_ e) (native_classes_ e) (script_classes_ e)
    (objects_ e) (objects_index_ e) (persistent_objects_ e) (module_cache_ e)
    (module_loaders_ e) (module_resolvers_ e) (in_store_ e) x (trace_ e).

Definition set_trace_ (x : list Event) (e : Environment) : Environment :=
  mkEnvironment (thread_id_ e) (isolate_ e) (native_classes_ e) (script_classes_ e)
    (objects_ e) (objects_index_ e) (persistent_objects_ e) (module_cache_ e)
    (module_loaders_ e) (module_resolvers_ e) (in_store_ e) (next_ref_ e) x.

Definition Isolate_new : Isolate := mkIsolate None ∅ ∅ ∅ ∅ ∅.

(** [Environment::Environment]: the owning thread is recorded, the two
    builtin module loaders are installed, the environment enters the
    [EnvironmentStore]; registry, caches and trace start empty.  The
    native classes, which [register_primitive_bindings] and later
    registrations (outside [src/]) provide, are a parameter. *)
Definition Environment_new (p_thread_id : ThreadID) (classes : gmap N NativeClassInfo) : Environment :=
  mkEnvironment p_thread_id Isolate_new classes ∅ ∅ ∅ ∅ ∅
    ({["godot"]} ∪ {["godot-jsb"]}) [] true 1 [].

(** The monad of the bridge: state passing over [Environment], with
    [Crash] for a failed check. *)
Definition M (A : Type) : Type := Environment -> Result (A * Environment).

Definition ret {A} (a : A) : M A := fun e => Ok (a, e).

Definition bind {A B} (m : M A) (k : A -> M B) : M B :=
  fun e =>
    match m e with
    | Ok (a, e') => k a e'
    | Crash msg => Crash msg
    end.

Definition crash {A} (msg : string) : M A := fun _ => Crash msg.

Definition get : M Environment := fun e => Ok (e, e).

Definition modify (f : Environment -> Environment) : M unit := fun e => Ok (tt, f e).

Notation "'let*' x ':=' m 'in' k" := (bind m (fun x => k))
  (at level 10, x name, m at level 100, k at level 200, only parsing).

Definition emit (ev : Event) : M unit :=
  modify (fun e => set_trace_ (trace_ e ++ [ev]) e).

(** [JSB_LOG(level, fmt, args...)]. *)
Definition JSB_LOG (level : LogLevel) (fmt : string) (args : list LogArg) : M unit :=
  emit (EvLog level fmt args).

(** [jsb_check(cond)] and [jsb_checkf(cond, msg)]. *)
Definition jsb_checkf (cond : bool) (msg : string) : M unit :=
  if cond then ret tt else crash msg.

Definition jsb_check (cond : bool) : M unit := jsb_checkf cond "jsb_check".

(** Running a list of actions in order. *)
Fixpoint for_each {A} (f : A -> M unit) (l : list A) : M unit :=
  match l with
  | [] => ret tt
  | a :: l' => let* _ := f a in for_each f l'
  end.

(** The state after a computation, when it did not crash. *)
Definition exec {A} (m : M A) (e : Environment) : option Environment :=
  match m e with
  | Ok (_, e') => Some e'
  | Crash _ => None
  end.

(* ===================================================================== *)
(** ** The host *)
(* ===================================================================== *)

(** What the bridge asks of the host (Godot), none of it code of this
    repository: the calling thread, and for a host object whether it is
    [RefCounted] and whether [init_ref] succeeds on it. *)
Class Host := {
  get_caller_id : ThreadID;
  is_ref_counted : Ptr -> bool;
  init_ref : Ptr -> bool
}.

Inductive EBindingPolicy := External | Managed.

(* ===================================================================== *)
(** ** Containers of the environment *)
(* ===================================================================== *)

(** Modelled from the spec: [internal::SArray] (the id-to-value table
    behind [objects_], [native_classes_] and [script_classes_]) is
    declared outside [src/].  [add] stores a value under an opaque id,
    not empty and not in use; [get_value] and [remove_at_checked] check
    that the id is in use. *)
Definition SArray_is_valid_index {A} (t : gmap N A) (i : N) : bool :=
  match t !! i with Some _ => true | None => false end.

Definition SArray_new_index {A} (t : gmap N A) : N := fresh ({[0]} ∪ dom t).

Definition objects_add (h : ObjectHandle) : M NativeObjectID :=
  fun e =>
    let object_id := SArray_new_index (objects_ e) in
    Ok (object_id, set_objects_ (<[object_id := h]> (objects_ e)) e).

Definition objects_get_value (object_id : NativeObjectID) : M ObjectHandle :=
  fun e =>
    match objects_ e !! object_id with
    | Some h => Ok (h, e)
    | None => Crash "SArray: invalid index"
    end.

(** A write through the reference [ObjectHandle&] obtained from
    [objects_.get_value]. *)
Definition objects_update (object_id : NativeObjectID) (f : ObjectHandle -> ObjectHandle) : M unit :=
  fun e =>
    match objects_ e !! object_id with
    | Some h => Ok (tt, set_objects_ (<[object_id := f h]> (objects_ e)) e)
    | None => Crash "SArray: invalid index"
    end.

Definition objects_remove_at_checked (object_id : NativeObjectID) : M unit :=
  fun e =>
    match objects_ e !! object_id with
    | Some _ => Ok (tt, set_objects_ (delete object_id (objects_ e)) e)
    | None => Crash "SArray: invalid index"
    end.

Definition native_classes_get_value (class_id : NativeClassID) : M NativeClassInfo :=
  fun e =>
    match native_classes_ e !! class_id with
    | Some c => Ok (c, e)
    | None => Crash "SArray: invalid index"
    end.

(** [p_object->SetAlignedPointerInInternalField(IF_Pointer, p)]. *)
Definition SetAlignedPointerInInternalField (o : JSObject) (p : Ptr) : M unit :=
  modify (fun e =>
    set_isolate_
      (iso_set_internal_fields (<[obj_ref o := p]> (internal_fields_ (isolate_ e))) (isolate_ e)) e).

(** [objects_index_.insert(p, id)] and [objects_index_.erase(p)], each
    leaving its mark in the trace. *)
Definition objects_index_insert (p : Ptr) (object_id : NativeObjectID) : M unit :=
  let* _ := modify (fun e => set_objects_index_ (<[p := object_id]> (objects_index_ e)) e) in
  emit (EvIndexInsert p object_id).

Definition objects_index_erase (p : Ptr) : M unit :=
  let* _ := modify (fun e => set_objects_index_ (delete p (objects_index_ e)) e) in
  emit (EvIndexErase p).

(* ===================================================================== *)
(** ** The object binding registry *)
(* ===================================================================== *)

Section Registry.
Context `{Host}.

(** [Environment::bind_pointer]. *)
Definition bind_pointer (p_class_id : NativeClassID) (p_pointer : Ptr)
    (p_object : JSObject) (p_policy : EBindingPolicy) : M NativeObjectID :=
  let* e0 := get in
  let* _ := jsb_checkf (get_caller_id =? thread_id_ e0) "multi-threaded call not supported yet" in
  let* _ := jsb_checkf (SArray_is_valid_index (native_classes_ e0) p_class_id) "bad class_id" in
  let* _ := jsb_checkf (negb (bool_decide (is_Some (objects_index_ e0 !! p_pointer)))) "duplicated bindings" in
  let* object_id := objects_add ObjectHandle_default in
  let* _ := objects_index_insert p_pointer object_id in
  let* _ := SetAlignedPointerInInternalField p_object p_pointer in
  let* _ := objects_update object_id (set_class_id p_class_id) in
  let* _ := objects_update object_id (set_pointer p_pointer) in
  let* class_info := native_classes_get_value p_class_id in
  let* _ := jsb_check (negb (NativeClassType_eqb (type class_info) GodotPrimitive)) in
  let* _ := objects_update object_id (set_ref_ (Global_Reset (VObject p_object))) in
  let* _ :=
    match p_policy with
    | Managed =>
        let* _ := objects_update object_id (fun h => set_ref_ (Global_SetWeak p_pointer (ref_ h)) h) in
        emit (EvSetWeak object_id p_pointer)
    | External => objects_update object_id (set_ref_count_ 1)
    end in
  let* _ := JSB_LOG VeryVerbose "bind object class:%s(%d) addr:%d id:%d"
              [LStr (name class_info); LInt p_class_id; LInt p_pointer; LInt object_id] in
  ret object_id.

(** [Environment::reference_object]. *)
Definition reference_object (p_pointer : Ptr) (p_is_inc : bool) : M bool :=
  let* e0 := get in
  let* _ := jsb_check (get_caller_id =? thread_id_ e0) in
  match objects_index_ e0 !! p_pointer with
  | None =>
      let* _ := JSB_LOG VeryVerbose "bad pointer %d" [LInt p_pointer] in
      ret true
  | Some object_id =>
      let* object_handle := objects_get_value object_id in
      let* class_info := native_classes_get_value (class_id object_handle) in
      let* _ := jsb_check (negb (NativeClassType_eqb (type class_info) GodotPrimitive)) in
      if p_is_inc then
        let* _ :=
          if ref_count_ object_handle =? 0 then
            let* _ := jsb_check (negb (Global_IsEmpty (ref_ object_handle))) in
            let* _ := objects_update object_id (fun h => set_ref_ (Global_ClearWeak (ref_ h)) h) in
            emit (EvClearWeak object_id)
          else ret tt in
        let* _ := objects_update object_id (fun h => set_ref_count_ (ref_count_ h + 1) h) in
        ret false
      else
        let* _ := jsb_checkf (negb (Global_IsEmpty (ref_ object_handle))) "removing references on dead values" in
        let* _ := jsb_check (0 <? ref_count_ object_handle) in
        let* _ := objects_update object_id (fun h => set_ref_count_ (ref_count_ h - 1) h) in
        let* object_handle' := objects_get_value object_id in
        if ref_count_ object_handle' =? 0 then
          let* _ := objects_update object_id (fun h => set_ref_ (Global_SetWeak p_pointer (ref_ h)) h) in
          let* _ := emit (EvSetWeak object_id p_pointer) in
          ret false
        else ret false
  end.

(** [Environment::mark_as_persistent_object]. *)
Definition mark_as_persistent_object (p_pointer : Ptr) : M unit :=
  let* e0 := get in
  match objects_index_ e0 !! p_pointer with
  | Some _ =>
      let* _ := jsb_checkf (negb (bool_decide (p_pointer ∈ persistent_objects_ e0)))
                  "duplicate adding persistent object" in
      let* _ := reference_object p_pointer true in
      modify (fun e => set_persistent_objects_ ({[p_pointer]} ∪ persistent_objects_ e) e)
  | None => JSB_LOG Error "failed to mark as persistent due to invalid pointer" []
  end.

(** [clear_internal_field]: [p_obj.Get(isolate)] of an empty handle is an
    empty [Local], and the call through it does not return. *)
Definition clear_internal_field (p_obj : Global) : M unit :=
  match Global_Get p_obj with
  | Some (VObject obj) => SetAlignedPointerInInternalField obj 0
  | _ => crash "clear_internal_field: empty handle"
  end.

(** [Environment::free_object], with the call of the class finalizer
    left to [invoke_finalizer]. *)
Definition free_object_with (invoke_finalizer : NativeClassID -> NativeClassInfo -> Ptr -> bool -> M unit)
    (p_pointer : Ptr) (p_finalize : bool) : M unit :=
  let* e0 := get in
  let* _ := jsb_check (get_caller_id =? thread_id_ e0) in
  match objects_index_ e0 !! p_pointer with
  | None => ret tt
  | Some object_id =>
      let* object_handle := objects_get_value object_id in
      let* _ := jsb_check (pointer object_handle =? p_pointer) in
      let class_id := class_id object_handle in
      let is_persistent := bool_decide (p_pointer ∈ persistent_objects_ e0) in
      let* _ := modify (fun e => set_persistent_objects_ (persistent_objects_ e ∖ {[p_pointer]}) e) in
      let* _ := objects_index_erase p_pointer in
      let* _ := if p_finalize then ret tt else clear_internal_field (ref_ object_handle) in
      let* _ := objects_update object_id (set_ref_ GEmpty) in
      let* _ := objects_remove_at_checked object_id in
      let* class_info := native_classes_get_value class_id in
      if p_finalize then
        let* _ := JSB_LOG VeryVerbose "free_object class:%s(%d) addr:%d id:%d"
                    [LStr (name class_info); LInt class_id; LInt p_pointer; LInt object_id] in
        invoke_finalizer class_id class_info p_pointer is_persistent
      else
        JSB_LOG VeryVerbose "(skip) free_object class:%s(%d) addr:%d id:%d"
          [LStr (name class_info); LInt class_id; LInt p_pointer; LInt object_id]
  end.

(** The call a host callback makes: [free_callback] always passes
    [kMakeFinalization = false], so no finalizer runs below it. *)
Definition free_object_detach (p_pointer : Ptr) : M unit :=
  free_object_with (fun _ _ _ _ => crash "unreachable") p_pointer false.

(** [InstanceBindingCallbacks::free_callback]; [EnvironmentStore::access]
    finds the environment while [in_store_] holds. *)
Definition free_callback (p_instance p_binding : Ptr) : M unit :=
  let* e0 := get in
  if in_store_ e0 then
    let* _ := jsb_check (p_instance =? p_binding) in
    free_object_detach p_binding
  else ret tt.

(** [InstanceBindingCallbacks::reference_callback]. *)
Definition reference_callback (p_binding : Ptr) (p_reference : bool) : M bool :=
  let* e0 := get in
  if in_store_ e0 then reference_object p_binding p_reference
  else ret true.

Definition host_callback (cb : HostCallback) : M unit :=
  match cb with
  | CbFree p_instance p_binding => free_callback p_instance p_binding
  | CbReference p_binding p_reference =>
      let* _ := reference_callback p_binding p_reference in ret tt
  end.

(** [class_info.finalizer(this, p_pointer, is_persistent)]: the host code
    runs and calls back into the environment. *)
Definition invoke_finalizer (class_id : NativeClassID) (class_info : NativeClassInfo)
    (p_pointer : Ptr) (is_persistent : bool) : M unit :=
  let* _ := emit (EvFinalizer class_id p_pointer is_persistent) in
  for_each host_callback (finalizer class_info p_pointer is_persistent).

(** [Environment::free_object]. *)
Definition free_object (p_pointer : Ptr) (p_finalize : bool) : M unit :=
  free_object_with invoke_finalizer p_pointer p_finalize.

(** [Environment::bind_godot_object]. *)
Definition bind_godot_object (p_class_id : NativeClassID) (p_pointer : Ptr)
    (p_object : JSObject) : M NativeObjectID :=
  if is_ref_counted p_pointer && negb (init_ref p_pointer) then
    let* _ := JSB_LOG Error "can not bind a dead object %d" [LInt p_pointer] in
    ret 0
  else
    let* object_id := bind_pointer p_class_id p_pointer p_object External in
    let* _ := emit (EvInstanceBinding p_pointer) in
    ret object_id.

End Registry.

(** The operations a host performs on the registry, and a run of them:
    the environments after each operation, up to the first crash. *)
Inductive RegistryOp :=
| OpBind (p_class_id : NativeClassID) (p_pointer : Ptr) (p_object : JSObject) (p_policy : EBindingPolicy)
| OpReference (p_pointer : Ptr) (p_is_inc : bool)
| OpFree (p_pointer : Ptr) (p_finalize : bool).

Definition registry_op `{Host} (op : RegistryOp) : M unit :=
  match op with
  | OpBind c p o pol => let* _ := bind_pointer c p o pol in ret tt
  | OpReference p inc => let* _ := reference_object p inc in ret tt
  | OpFree p fin => free_object p fin
  end.

Fixpoint run_ops `{Host} (ops : list RegistryOp) (e : Environment) : list Environment :=
  match ops with
  | [] => []
  | op :: ops' =>
      match exec (registry_op op) e with
      | Some e' => e' :: run_ops ops' e'
      | None => []
      end
  end.

(** The addresses bound after a trace, started with the set [s] bound;
    [None] when the trace inserts an address that is bound already. *)
Fixpoint replay (tr : list Event) (s : gset N) : option (gset N) :=
  match tr with
  | [] => Some s
  | EvIndexInsert p _ :: tr' =>
      if bool_decide (p ∈ s) then None else replay tr' ({[p]} ∪ s)
  | EvIndexErase p :: tr' => replay tr' (s ∖ {[p]})
  | _ :: tr' => replay tr' s
  end.

(** Events other than the two index events leave the bound set alone. *)
Definition index_neutral (ev : Event) : bool :=
  match ev with
  | EvIndexInsert _ _ | EvIndexErase _ => false
  | _ => true
  end.

(** Between two insertions of one address the trace erases it. *)
Definition no_double_bind (tr : list Event) : Prop :=
  ∀ (i j : nat) (p id1 id2 : N),
    (i < j)%nat →
    tr !! i = Some (EvIndexInsert p id1) →
    tr !! j = Some (EvIndexInsert p id2) →
    ∃ k : nat, (i < k < j)%nat ∧ tr !! k = Some (EvIndexErase p).

(** The invariant of the registry. *)
Record registry_wf (e : Environment) : Prop := mk_registry_wf {
  wf_size : size (objects_index_ e) = size (objects_ e);
  wf_index : ∀ p oid, objects_index_ e !! p = Some oid →
               ∃ h, objects_ e !! oid = Some h ∧ pointer h = p;
  wf_trace : replay (trace_ e) ∅ = Some (dom (objects_index_ e))
}.

(** *** What the registry operations do to a bound handle

    Closed forms of the effect of [reference_object] and of the first
    half of [free_object]; the facts section proves that the code
    computes them. *)

Definition reference_handle (p : Ptr) (inc : bool) (h : ObjectHandle) : ObjectHandle :=
  if inc then
    mkObjectHandle (class_id h) (pointer h)
      (if ref_count_ h =? 0 then Global_ClearWeak (ref_ h) else ref_ h)
      (ref_count_ h + 1)
  else
    mkObjectHandle (class_id h) (pointer h)
      (if ref_count_ h - 1 =? 0 then Global_SetWeak p (ref_ h) else ref_ h)
      (ref_count_ h - 1).

Definition reference_events (oid : N) (p : Ptr) (inc : bool) (h : ObjectHandle) : list Event :=
  if inc then (if ref_count_ h =? 0 then [EvClearWeak oid] else [])
  else (if ref_count_ h - 1 =? 0 then [EvSetWeak oid p] else []).

Definition referenced (e : Environment) (oid : N) (p : Ptr) (inc : bool) (h : ObjectHandle) : Environment :=
  set_trace_ (trace_ e ++ reference_events oid p inc h)
    (set_objects_ (<[oid := reference_handle p inc h]> (objects_ e)) e).

(** The environment at the moment [free_object] has removed the binding
    of [p] (handle [h] under id [oid], class [ci]) and written its log
    line: the state the class finalizer is called in. *)
Definition detached (e : Environment) (p : Ptr) (oid : N) (h : ObjectHandle)
    (ci : NativeClassInfo) (fin : bool) : Environment :=
  mkEnvironment (thread_id_ e)
    (if fin then isolate_ e
     else match Global_Get (ref_ h) with
          | Some (VObject obj) =>
              iso_set_internal_fields (<[obj_ref obj := 0]> (internal_fields_ (isolate_ e))) (isolate_ e)
          | _ => isolate_ e
          end)
    (native_classes_ e) (script_classes_ e)
    (delete oid (objects_ e))
    (delete p (objects_index_ e))
    (persistent_objects_ e ∖ {[p]})
    (module_cache_ e) (module_loaders_ e) (module_resolvers_ e) (in_store_ e) (next_ref_ e)
    (trace_ e ++
       [EvIndexErase p;
        EvLog VeryVerbose
          (if fin then "free_object class:%s(%d) addr:%d id:%d"
           else "(skip) free_object class:%s(%d) addr:%d id:%d")
          [LStr (name ci); LInt (class_id h); LInt p; LInt oid]]).

(** [n] increments of the reference count of [p] in a row. *)
Fixpoint reference_n `{Host} (n : nat) (p : Ptr) : M unit :=
  match n with
  | O => ret tt
  | S n' => let* _ := reference_object p true in reference_n n' p
  end.

(** A host callback that is a reentrant [free_callback] on [p]. *)
Definition is_free_of (p : Ptr) (cb : HostCallback) : bool :=
  match cb with
  | CbFree p_instance p_binding => (p_instance =? p) && (p_binding =? p)
  | CbReference _ _ => false
  end.

(** What a host callback leaves alone: the owning thread, and the absence
    of an address from the index. *)
Definition index_shrinks (e e' : Environment) : Prop :=
  thread_id_ e' = thread_id_ e ∧
  ∀ p, objects_index_ e !! p = None → objects_index_ e' !! p = None.


(* ===================================================================== *)
(** ** The script engine and exception capture *)
(* ===================================================================== *)

(** What the bridge asks of the script engine and of [TypeConvert], none
    of it under [src/].  A conversion reads the isolate and yields a value
    or fails.  [Function_Call] and [Object_CallAsConstructor] run script
    code: they yield a value or the empty [MaybeLocal], and leave a thrown
    exception pending in the isolate.  Script code that calls back into
    the environment while it runs is outside the model. *)
Class Engine := {
  gd_var_to_js : Isolate -> Variant -> option JSValue;
  js_to_gd_var : Isolate -> JSValue -> option Variant;
  Function_Call : JSValue -> JSValue -> list JSValue -> Isolate -> option JSValue * Isolate;
  Object_CallAsConstructor : JSValue -> list JSValue -> Isolate -> option JSValue * Isolate
}.

(** Modelled from the spec: [impl::TryCatch] is a scoped exception
    capture; its [has_caught] asks [isolate_->try_catch()] (outside
    [src/]), taken to hold exactly while an exception is pending. *)
Definition TryCatch_has_caught (i : Isolate) : bool :=
  match exception_ i with Some _ => true | None => false end.

(** [TryCatch::get_message]: reads the pending exception, logs it, hands
    out message and stack, and resets the pending exception to null. *)
Definition TryCatch_get_message : M (string * string) :=
  let* e0 := get in
  match exception_ (isolate_ e0) with
  | None => crash "jsb_check(!JS_IsNull(ex))"
  | Some ex =>
      let filename := match ex_fileName ex with None => "native" | Some s => s end in
      let line := match ex_lineNumber ex with None => "" | Some s => s end in
      let message := ex_message ex in
      let stack := ex_stack ex in
      let* _ := JSB_LOG Error "[%s:%s] %s\nJavascript stack:\n%s"
                  [LStr filename; LStr line; LStr message; LStr stack] in
      let* _ := modify (fun e => set_isolate_ (iso_set_exception None (isolate_ e)) e) in
      ret (message, stack)
  end.

(** Modelled from the spec: [BridgeHelper::get_exception] (outside
    [src/]) yields the formatted message of the captured exception; it
    reads it through [TryCatch::get_message] and joins message and stack
    trace. *)
Definition BridgeHelper_get_exception : M string :=
  let* ms := TryCatch_get_message in
  ret (fst ms +:+ "\n" +:+ snd ms).

(* ===================================================================== *)
(** ** The call bridge *)
(* ===================================================================== *)

(** One element of the stack array [argv]: raw storage, or a constructed
    [LocalValue], empty or holding a value. *)
Inductive Slot :=
| SlotRaw
| SlotLocal (v : option JSValue).

Definition slot_value (s : Slot) : JSValue :=
  match s with
  | SlotLocal (Some v) => v
  | _ => VUndefined
  end.

Definition is_raw (s : Slot) : bool :=
  match s with SlotRaw => true | SlotLocal _ => false end.

(** [while (index >= 0) argv[index--].~LocalValue();] *)
Fixpoint destroy_down (index : nat) (argv : list Slot) : list Slot :=
  match index with
  | O => <[O := SlotRaw]> argv
  | S i => destroy_down i (<[S i := SlotRaw]> argv)
  end.

(** [for (index = from; index < from + n; ++index) argv[index].~LocalValue();] *)
Fixpoint destroy_up (from n : nat) (argv : list Slot) : list Slot :=
  match n with
  | O => argv
  | S n' => destroy_up (S from) n' (<[from := SlotRaw]> argv)
  end.

Section CallBridge.
Context `{Engine}.

(** The first loop of [_call], from [index] on: each element of [argv] is
    constructed in place and filled by [gd_var_to_js]; on the first
    failure the elements constructed so far are destroyed.  The result
    tells whether every argument was converted. *)
Fixpoint convert_args (iso : Isolate) (p_args : list Variant) (index : nat)
    (argv : list Slot) : bool * list Slot :=
  match p_args with
  | [] => (true, argv)
  | a :: rest =>
      let argv1 := <[index := SlotLocal None]> argv in
      match gd_var_to_js iso a with
      | Some v => convert_args iso rest (S index) (<[index := SlotLocal (Some v)]> argv1)
      | None => (false, destroy_down index argv1)
      end
  end.

(** [Environment::_call].  Besides the returned [Variant] and the
    updated [r_error], the model hands out the stack array [argv] as the
    function leaves it. *)
Definition _call (p_func p_self : JSValue) (p_args : list Variant) (r_error : CallError)
    : M (Variant * CallError * list Slot) :=
  let* e0 := get in
  let p_argcount := length p_args in
  let argv0 := replicate p_argcount SlotRaw in
  match convert_args (isolate_ e0) p_args 0 argv0 with
  | (false, argv) =>
      ret (VarNil, set_error CALL_ERROR_INVALID_METHOD r_error, argv)
  | (true, argv) =>
      let* _ := emit (EvCall p_func p_self (slot_value <$> argv)) in
      let (rval, iso') := Function_Call p_func p_self (slot_value <$> argv) (isolate_ e0) in
      let* _ := modify (set_isolate_ iso') in
      let argv' := destroy_up 0 p_argcount argv in
      if TryCatch_has_caught iso' then
        let* msg := BridgeHelper_get_exception in
        let* _ := JSB_LOG Error "exception thrown in function:\n%s" [LStr msg] in
        ret (VarNil, set_error CALL_ERROR_INVALID_METHOD r_error, argv')
      else
        match rval with
        | None => ret (VarNil, r_error, argv')
        | Some rval_checked =>
            match js_to_gd_var iso' rval_checked with
            | Some rvar => ret (rvar, r_error, argv')
            | None =>
                if IsPromise rval_checked then ret (VarNil, r_error, argv')
                else
                  let* _ := JSB_LOG Error "failed to translate returned value" [] in
                  ret (VarNil, set_error CALL_ERROR_INVALID_METHOD r_error, argv')
            end
        end
  end.

End CallBridge.

(* ===================================================================== *)
(** ** The module cache and the resolver chain *)
(* ===================================================================== *)

(** What [_load_module] asks of its collaborators, none of it under
    [src/]: the loaders and resolvers (a loader is known by the name it
    is registered under, a resolver by its number), the module's
    [on_load], the parser of script classes, and the path utilities.
    [load] and [on_load] see the module and the isolate;
    [_parse_script_class] also sees the table of script classes.
    [PathUtil::extract] yields [None] when it does not return [OK]. *)
Class ModuleSystem := {
  loader_load : string -> JavaScriptModule -> Isolate -> bool * JavaScriptModule * Isolate;
  resolver_get_source_info : N -> string -> option ModuleSourceInfo;
  resolver_load : N -> string -> JavaScriptModule -> Isolate -> bool * JavaScriptModule * Isolate;
  module_on_load : JavaScriptModule -> Isolate -> JavaScriptModule * Isolate;
  parse_script_class : JavaScriptModule -> gmap N ScriptClassInfo -> Isolate ->
                       JavaScriptModule * gmap N ScriptClassInfo * Isolate;
  PathUtil_dirname : string -> string;
  PathUtil_combine : string -> string -> string;
  PathUtil_extract : string -> option string
}.

(** [jsb_throw(isolate, msg)] and [impl::Helper::throw_error]: an error
    with that message becomes the pending exception. *)
Definition jsb_throw (msg : string) : M unit :=
  let* _ := emit (EvThrow msg) in
  modify (fun e =>
    set_isolate_ (iso_set_exception (Some (mkJSException None None msg "")) (isolate_ e)) e).

(** [v8::Object::New] and [v8::Array::New]. *)
Definition Object_New (k : ObjectKind) : M JSObject :=
  let* e0 := get in
  let* _ := modify (set_next_ref_ (next_ref_ e0 + 1)) in
  let* _ :=
    match k with
    | KArray =>
        modify (fun e =>
          set_isolate_ (iso_set_elements (<[next_ref_ e0 := []]> (elements_ (isolate_ e)))
                          (isolate_ e)) e)
    | _ => ret tt
    end in
  ret (mkJSObject k (next_ref_ e0)).

(** [obj->Set(context, key, value)] for a named property. *)
Definition Object_Set (o : JSObject) (key : string) (v : JSValue) : M unit :=
  modify (fun e =>
    set_isolate_ (iso_set_properties (<[(obj_ref o, key) := v]> (properties_ (isolate_ e)))
                    (isolate_ e)) e).

(** [obj->Get(context, key)]: a missing property reads as [undefined]. *)
Definition Object_Get (i : Isolate) (o : JSObject) (key : string) : JSValue :=
  default VUndefined (properties_ i !! (obj_ref o, key)).

(** A write through the [JavaScriptModule&] or [JavaScriptModule*] of an
    entry of the cache. *)
Definition module_update (module_id : string) (f : JavaScriptModule -> JavaScriptModule) : M unit :=
  fun e =>
    match module_cache_ e !! module_id with
    | Some m => Ok (tt, set_module_cache_ (<[module_id := f m]> (module_cache_ e)) e)
    | None => Crash "module: dangling pointer"
    end.

Definition module_get (module_id : string) : M JavaScriptModule :=
  fun e =>
    match module_cache_ e !! module_id with
    | Some m => Ok (m, e)
    | None => Crash "module: dangling pointer"
    end.

(** Modelled from the spec: [JavaScriptModuleCache::insert] is declared
    outside [src/]; it creates the module object of a new module and
    enters the module in the cache under its id. *)
Definition module_cache_insert (p_module_id : string) : M unit :=
  let* module_obj := Object_New KPlain in
  modify (fun e =>
    set_module_cache_
      (<[p_module_id :=
           mkJavaScriptModule p_module_id ModuleSourceInfo_default
             (GStrong (VObject module_obj)) GEmpty 0 false]> (module_cache_ e)) e).

Section Modules.
Context `{ModuleSystem}.

(** Modelled from the spec: [Environment::find_module_resolver] is
    declared outside [src/]; the resolvers are asked in order and the
    first that knows the id wins. *)
Fixpoint find_module_resolver_in (resolvers : list N) (p_module_id : string)
    : M (option (N * ModuleSourceInfo)) :=
  match resolvers with
  | [] => ret None
  | r :: rest =>
      let* _ := emit (EvResolve r p_module_id) in
      match resolver_get_source_info r p_module_id with
      | Some si => ret (Some (r, si))
      | None => find_module_resolver_in rest p_module_id
      end
  end.

(** The answer of the chain and the questions it takes, in closed form. *)
Fixpoint resolve_in (resolvers : list N) (p_module_id : string) : option (N * ModuleSourceInfo) :=
  match resolvers with
  | [] => None
  | r :: rest =>
      match resolver_get_source_info r p_module_id with
      | Some si => Some (r, si)
      | None => resolve_in rest p_module_id
      end
  end.

Fixpoint resolve_events (resolvers : list N) (p_module_id : string) : list Event :=
  match resolvers with
  | [] => []
  | r :: rest =>
      EvResolve r p_module_id ::
      match resolver_get_source_info r p_module_id with
      | Some _ => []
      | None => resolve_events rest p_module_id
      end
  end.

Definition find_module_resolver (p_module_id : string) : M (option (N * ModuleSourceInfo)) :=
  let* e0 := get in find_module_resolver_in (module_resolvers_ e0) p_module_id.

(** The id handed to the resolvers: a relative id is combined with the
    directory of the parent and normalised; [None] is the bad path. *)
Definition normalized_module_id (p_parent_id p_module_id : string) : option string :=
  if String.prefix "./" p_module_id || String.prefix "../" p_module_id then
    let combined_id := PathUtil_combine (PathUtil_dirname p_parent_id) p_module_id in
    match PathUtil_extract combined_id with
    | Some normalized_id => if String.eqb normalized_id "" then None else Some normalized_id
    | None => None
    end
  else Some p_module_id.

Definition call_loader_load (loader module_id : string) : M bool :=
  let* _ := emit (EvLoaderLoad loader module_id) in
  let* m := module_get module_id in
  let* e0 := get in
  let '(ok, m', iso') := loader_load loader m (isolate_ e0) in
  let* _ := modify (set_isolate_ iso') in
  let* _ := module_update module_id (fun _ => m') in
  ret ok.

Definition call_resolver_load (resolver : N) (path module_id : string) : M bool :=
  let* _ := emit (EvResolverLoad resolver path) in
  let* m := module_get module_id in
  let* e0 := get in
  let '(ok, m', iso') := resolver_load resolver path m (isolate_ e0) in
  let* _ := modify (set_isolate_ iso') in
  let* _ := module_update module_id (fun _ => m') in
  ret ok.

Definition call_on_load (module_id : string) : M unit :=
  let* m := module_get module_id in
  let* e0 := get in
  let '(m', iso') := module_on_load m (isolate_ e0) in
  let* _ := modify (set_isolate_ iso') in
  module_update module_id (fun _ => m').

Definition call_parse_script_class (module_id : string) : M unit :=
  let* m := module_get module_id in
  let* e0 := get in
  let '(m', classes', iso') := parse_script_class m (script_classes_ e0) (isolate_ e0) in
  let* _ := modify (set_isolate_ iso') in
  let* _ := modify (set_script_classes_ classes') in
  module_update module_id (fun _ => m').

(** The part of [_load_module] that links a new module into the
    children of its parent. *)
Definition build_module_tree (p_parent_id : string) (module_obj : JSObject) : M unit :=
  if String.eqb p_parent_id "" then ret tt
  else
    let* e0 := get in
    match module_cache_ e0 !! p_parent_id with
    | Some parent =>
        match Global_Get (module parent) with
        | Some (VObject parent_module) =>
            match Object_Get (isolate_ e0) parent_module "children" with
            | VObject (mkJSObject KArray children) =>
                modify (fun e =>
                  set_isolate_
                    (iso_set_elements
                       (<[children := default [] (elements_ (isolate_ e) !! children)
                                      ++ [VObject module_obj]]> (elements_ (isolate_ e)))
                       (isolate_ e)) e)
            | _ => JSB_LOG Error "can not access children on '%s'" [LStr p_parent_id]
            end
        | _ => crash "empty module handle"
        end
    | None => JSB_LOG Warning "parent module not found with the name '%s'" [LStr p_parent_id]
    end.

(** [Environment::_load_module].  A [JavaScriptModule*] is rendered by
    the id under which the module sits in the cache, [nullptr] by
    [None]. *)
Definition _load_module (p_parent_id p_module_id : string) : M (option string) :=
  let* e0 := get in
  let existing_module := module_cache_ e0 !! p_module_id in
  if match existing_module with Some m => is_loaded m | None => false end then
    ret (Some p_module_id)
  else if bool_decide (p_module_id ∈ module_loaders_ e0) then
    let* _ := jsb_checkf (match existing_module with Some _ => false | None => true end)
                "module loader does not support reloading" in
    let* _ := module_cache_insert p_module_id in
    let* ok := call_loader_load p_module_id p_module_id in
    if negb ok then ret None
    else
      let* _ := call_on_load p_module_id in
      ret (Some p_module_id)
  else
    match normalized_module_id p_parent_id p_module_id with
    | None =>
        let* _ := jsb_throw "bad path" in
        ret None
    | Some normalized_id =>
        let* found := find_module_resolver normalized_id in
        match found with
        | Some (resolver, src_info) =>
            let module_id := source_filepath src_info in
            let* e1 := get in
            match module_cache_ e1 !! module_id with
            | Some m =>
                if is_loaded m then ret (Some module_id)
                else
                  let* _ := jsb_check (String.eqb (id m) module_id) in
                  let* _ := jsb_check (String.eqb (source_filepath (source_info m))
                                         (source_filepath src_info)) in
                  let* _ := JSB_LOG VeryVerbose "reload module %s" [LStr module_id] in
                  let* _ := module_update module_id (set_reload_requested false) in
                  let* ok := call_resolver_load resolver (source_filepath src_info) module_id in
                  if negb ok then ret None
                  else
                    let* _ := call_parse_script_class module_id in
                    ret (Some module_id)
            | None =>
                let* _ := JSB_LOG Verbose "instantiating module %s" [LStr module_id] in
                let* _ := module_cache_insert module_id in
                let* exports_obj := Object_New KPlain in
                let* m := module_get module_id in
                match Global_Get (module m) with
                | Some (VObject module_obj) =>
                    let* children := Object_New KArray in
                    let* _ := Object_Set module_obj "children" (VObject children) in
                    let* _ := Object_Set module_obj "exports" (VObject exports_obj) in
                    let* _ := module_update module_id (set_source_info src_info) in
                    let* _ := module_update module_id (set_exports (Global_Reset (VObject exports_obj))) in
                    let* ok := call_resolver_load resolver (source_filepath src_info) module_id in
                    if negb ok then ret None
                    else
                      let* _ := build_module_tree p_parent_id module_obj in
                      let* _ := call_on_load module_id in
                      let* _ := call_parse_script_class module_id in
                      let* e2 := get in
                      let* _ :=
                        if TryCatch_has_caught (isolate_ e2) then
                          let* msg := BridgeHelper_get_exception in
                          JSB_LOG Error "something wrong when parsing '%s'\n%s"
                            [LStr module_id; LStr msg]
                        else ret tt in
                      ret (Some module_id)
                | _ => crash "empty module handle"
                end
            end
        | None =>
            let* _ := jsb_throw ("unknown module: " +:+ normalized_id) in
            ret None
        end
    end.

End Modules.

(** The events of a trace from position [n] on. *)
Definition trace_since (e e' : Environment) : list Event :=
  drop (length (trace_ e)) (trace_ e').

(* ===================================================================== *)
(** ** Cross-binding *)
(* ===================================================================== *)

Definition Symbol_CDO : JSValue := VSymbol 1.

(** Modelled from the spec: [Environment::check_internal_state] is
    declared outside [src/]; operations of an environment are to run on
    its owning thread, which is what the check is taken to assert. *)
Definition check_internal_state `{Host} : M unit :=
  let* e0 := get in
  jsb_check (get_caller_id =? thread_id_ e0).


(** Modelled from the spec: [Environment::try_get_object] is declared
    outside [src/]; it yields the script object bound to a host address,
    if there is one. *)
Definition try_get_object (p : Ptr) (e : Environment) : option JSValue :=
  match objects_index_ e !! p with
  | Some object_id =>
      match objects_ e !! object_id with
      | Some h => Global_Get (ref_ h)
      | None => None
      end
  | None => None
  end.

(** [script_classes_.get_value_scoped], behind
    [Environment::get_script_class]. *)
Definition get_script_class (p_class_id : ScriptClassID) : M ScriptClassInfo :=
  fun e =>
    match script_classes_ e !! p_class_id with
    | Some c => Ok (c, e)
    | None => Crash "SArray: invalid index"
    end.

(** Modelled from the spec: [v8::Object::SetPrototype] belongs to the
    engine; it replaces the prototype link of the object, and on an
    object that is not extensible it throws and yields nothing. *)
Definition Object_SetPrototype (o : JSObject) (prototype : JSValue) : M bool :=
  let* e0 := get in
  if bool_decide (obj_ref o ∈ non_extensible_ (isolate_ e0)) then
    let* _ := jsb_throw "#<Object> is not extensible" in
    ret false
  else
    let* _ := modify (fun e =>
      set_isolate_ (iso_set_prototypes (<[obj_ref o := prototype]> (prototypes_ (isolate_ e)))
                      (isolate_ e)) e) in
    ret true.

Section CrossBind.
Context `{Host} `{Engine}.

(** [Environment::_rebind]. *)
Definition _rebind (p_this : Ptr) (p_class_id : ScriptClassID) : M unit :=
  let* e0 := get in
  match try_get_object p_this e0 with
  | None => JSB_LOG Fatal "bad instance" []
  | Some instance =>
      let* class_info := get_script_class p_class_id in
      match Global_Get (js_class class_info) with
      | Some (VObject class_obj) =>
          let prototype := Object_Get (isolate_ e0) class_obj "prototype" in
          let* _ := jsb_check (IsObject instance) in
          let* _ := jsb_check (IsObject prototype) in
          match instance with
          | VObject instance_obj =>
              let* ok := Object_SetPrototype instance_obj prototype in
              if ok then ret tt
              else
                let* e1 := get in
                if TryCatch_has_caught (isolate_ e1) then
                  let* msg := BridgeHelper_get_exception in
                  JSB_LOG Warning "something wrong\n%s" [LStr msg]
                else ret tt
          | _ => ret tt
          end
      | _ => crash "empty class handle"
      end
  end.

(** [Environment::rebind]. *)
Definition rebind (p_this : Ptr) (p_class_id : ScriptClassID) : M unit :=
  let* _ := check_internal_state in
  _rebind p_this p_class_id.


End CrossBind.

(* ===================================================================== *)
(** ** Teardown of the registry *)
(* ===================================================================== *)

(** [objects_index_.begin()->key]: the first address in the enumeration
    of the index, if the index is not empty.  The enumeration is the one
    of the finite map; what is proved of the loop holds for any other. *)
Definition objects_index_begin (e : Environment) : option Ptr :=
  fst <$> head (map_to_list (objects_index_ e)).

(** A host callback made while [~Environment] runs.  By then no shared
    pointer owns the environment, and the destructor does not take the
    environment out of the store (only [dispose] does): while it is in
    the store [EnvironmentStore::access] finds its address and fails in
    [shared_from_this]; once it has left the store [access] finds
    nothing, [free_callback] does nothing and [reference_callback]
    answers [true]. *)
Definition host_callback_destructing (cb : HostCallback) : M unit :=
  let* e0 := get in
  if in_store_ e0 then crash "shared_from_this: bad_weak_ptr"
  else ret tt.

(** The finalizer of a class, called from the destructor. *)
Definition invoke_finalizer_destructing (class_id : NativeClassID) (class_info : NativeClassInfo)
    (p_pointer : Ptr) (is_persistent : bool) : M unit :=
  let* _ := emit (EvFinalizer class_id p_pointer is_persistent) in
  for_each host_callback_destructing (finalizer class_info p_pointer is_persistent).

(** [Environment::free_object], called from the destructor. *)
Definition free_object_destructing `{Host} (p_pointer : Ptr) (p_finalize : bool) : M unit :=
  free_object_with invoke_finalizer_destructing p_pointer p_finalize.

(** The loop [while (!objects_index_.is_empty()) free_object(begin()->key, true)]
    of [Environment::~Environment], run for at most [fuel] rounds.  The
    result tells whether the loop has come to its end. *)
Fixpoint free_all_objects `{Host} (fuel : nat) : M bool :=
  match fuel with
  | O =>
      let* e := get in
      ret (match objects_index_begin e with None => true | Some _ => false end)
  | S fuel' =>
      let* e := get in
      match objects_index_begin e with
      | None => ret true
      | Some p =>
          let* _ := free_object_destructing p true in
          free_all_objects fuel'
      end
  end.

(** The part of [Environment::~Environment] that deals with the
    registry: the check that both tables agree in size, the loop, the
    checks that both tables are empty, and the clearing of the native
    classes.  The loop is given as many rounds as the index has entries. *)
Definition Environment_destruct_objects `{Host} : M unit :=
  let* e0 := get in
  let* _ := jsb_check (bool_decide (size (objects_ e0) = size (objects_index_ e0))) in
  let* _ := JSB_LOG VeryVerbose "cleanup %d objects" [LInt (N.of_nat (size (objects_ e0)))] in
  let* finished := free_all_objects (size (objects_index_ e0)) in
  if finished then
    let* e1 := get in
    let* _ := jsb_check (bool_decide (size (objects_ e1) = 0%nat)) in
    let* _ := jsb_check (bool_decide (size (objects_index_ e1) = 0%nat)) in
    modify (set_native_classes_ ∅)
  else crash "loop not finished".

(** [EnvironmentStore::remove], the last step of [dispose], and the
    environment once it has left the store. *)
Definition set_in_store_ (x : bool) (e : Environment) : Environment :=
  mkEnvironment (thread_id_ e) (isolate_ e) (native_classes_ e) (script_classes_ e)
    (objects_ e) (objects_index_ e) (persistent_objects_ e) (module_cache_ e)
    (module_loaders_ e) (module_resolvers_ e) x (next_ref_ e) (trace_ e).

(** The environment after one round of the loop on the bound address
    [p] when the finalizer has returned: the binding is gone and the
    finalizer has been called. *)
Definition finalized (e : Environment) (p : Ptr) (oid : N) (h : ObjectHandle)
    (ci : NativeClassInfo) : Environment :=
  set_trace_ (trace_ (detached e p oid h ci true) ++
                [EvFinalizer (class_id h) p (bool_decide (p ∈ persistent_objects_ e))])
    (detached e p oid h ci true).

(** Every handle of the registry is of a registered class. *)
Definition classes_registered (e : Environment) : Prop :=
  ∀ oid h, objects_ e !! oid = Some h → is_Some (native_classes_ e !! class_id h).

(** Whether a finalizer makes a host callback. *)
Definition calls_back (l : list HostCallback) : bool :=
  match l with [] => false | _ :: _ => true end.

(** Operations of the host on the registry, [mark_as_persistent_object]
    and [bind_godot_object] included, and a run of them. *)
Inductive HostOp :=
| HRegistry (op : RegistryOp)
| HMarkPersistent (p_pointer : Ptr)
| HBindGodotObject (p_class_id : NativeClassID) (p_pointer : Ptr) (p_object : JSObject).

Definition host_op `{Host} (op : HostOp) : M unit :=
  match op with
  | HRegistry op' => registry_op op'
  | HMarkPersistent p => mark_as_persistent_object p
  | HBindGodotObject c p o => let* _ := bind_godot_object c p o in ret tt
  end.

Fixpoint run_host_ops `{Host} (ops : list HostOp) (e : Environment) : list Environment :=
  match ops with
  | [] => []
  | op :: ops' =>
      match exec (host_op op) e with
      | Some e' => e' :: run_host_ops ops' e'
      | None => []
      end
  end.

(** Every persistent address is a bound address. *)
Definition persistent_bound (e : Environment) : Prop :=
  ∀ p, p ∈ persistent_objects_ e → is_Some (objects_index_ e !! p).

(* ===================================================================== *)
(** ** The function cache *)
(* ===================================================================== *)

(** Modelled from the spec: [TStrongRef] is declared outside [src/]; it
    is a strong handle with an explicit count, starting at 1: [ref]
    raises the count, [unref] lowers it (a count already at zero fails a
    check) and tells whether it has reached zero. *)
Record TStrongRef := mkTStrongRef {
  object_ : Global;
  strong_count_ : N
}.

Definition TStrongRef_new (p_func : JSObject) : TStrongRef :=
  mkTStrongRef (GStrong (VObject p_func)) 1.

Definition TStrongRef_ref (r : TStrongRef) : TStrongRef :=
  mkTStrongRef (object_ r) (strong_count_ r + 1).

Definition TStrongRef_unref (r : TStrongRef) : option (bool * TStrongRef) :=
  if strong_count_ r =? 0 then None
  else Some (strong_count_ r - 1 =? 0, mkTStrongRef (object_ r) (strong_count_ r - 1)).

(** The two members of the environment behind the function cache:
    [function_bank_], the id-to-handle table, and [function_refs_], the
    map from the identity of a script function ([TWeakRef] hashes and
    compares by the identity of the object) to its id. *)
Record FunctionCache := mkFunctionCache {
  function_bank_ : gmap N TStrongRef;
  function_refs_ : gmap N N
}.

Definition FunctionCache_empty : FunctionCache := mkFunctionCache ∅ ∅.

(** [Environment::get_cached_function]. *)
Definition get_cached_function (p_func : JSObject) (fc : FunctionCache)
    : Result (N * FunctionCache) :=
  match function_refs_ fc !! obj_ref p_func with
  | Some callback_id =>
      match function_bank_ fc !! callback_id with
      | Some strong_ref =>
          Ok (callback_id,
              mkFunctionCache (<[callback_id := TStrongRef_ref strong_ref]> (function_bank_ fc))
                (function_refs_ fc))
      | None => Crash "SArray: invalid index"
      end
  | None =>
      let new_id := SArray_new_index (function_bank_ fc) in
      Ok (new_id,
          mkFunctionCache (<[new_id := TStrongRef_new p_func]> (function_bank_ fc))
            (<[obj_ref p_func := new_id]> (function_refs_ fc)))
  end.

Section FunctionCacheOps.
Context `{Host} `{Engine}.

(** [Environment::retain_function]; [get_string_value] turns the method
    name into the property key. *)
Definition retain_function (p_object_id : NativeObjectID) (p_method : string)
    (fc : FunctionCache) : M (N * FunctionCache) :=
  let* _ := check_internal_state in
  let* e0 := get in
  match objects_ e0 !! p_object_id with
  | Some handle =>
      match Global_Get (ref_ handle) with
      | Some (VObject obj) =>
          match Object_Get (isolate_ e0) obj p_method with
          | VObject (mkJSObject KFunction f) =>
              match get_cached_function (mkJSObject KFunction f) fc with
              | Ok r => ret r
              | Crash msg => crash msg
              end
          | _ => ret (0, fc)
          end
      | _ => crash "empty handle"
      end
  | None => ret (0, fc)
  end.

(** [Environment::release_function]. *)
Definition release_function (p_func_id : N) (fc : FunctionCache) : M (bool * FunctionCache) :=
  let* _ := check_internal_state in
  match function_bank_ fc !! p_func_id with
  | Some strong_ref =>
      match TStrongRef_unref strong_ref with
      | None => crash "jsb_check"
      | Some (true, strong_ref') =>
          match Global_Get (object_ strong_ref') with
          | Some (VObject f) =>
              let* _ := jsb_check (bool_decide (is_Some (function_refs_ fc !! obj_ref f))) in
              ret (true, mkFunctionCache (delete p_func_id (function_bank_ fc))
                           (delete (obj_ref f) (function_refs_ fc)))
          | _ =>
              let* _ := JSB_LOG Verbose
                "(not an error if Environment is disposing) try to release a function which has already been disposed %s"
                [LInt p_func_id] in
              ret (true, mkFunctionCache (delete p_func_id (function_bank_ fc))
                           (function_refs_ fc))
          end
      | Some (false, strong_ref') =>
          ret (true, mkFunctionCache (<[p_func_id := strong_ref']> (function_bank_ fc))
                       (function_refs_ fc))
      end
  | None => ret (false, fc)
  end.

(** Modelled from the spec: [Environment::get_object] is declared
    outside [src/]; it yields the script object of a valid object id. *)
Definition get_object (p_object_id : NativeObjectID) : M JSValue :=
  fun e =>
    match objects_ e !! p_object_id with
    | Some h =>
        match Global_Get (ref_ h) with
        | Some v => Ok (v, e)
        | None => Crash "empty handle"
        end
    | None => Crash "SArray: invalid index"
    end.

(** [Environment::call_function].  On the two early returns no [argv]
    has been allocated. *)
Definition call_function (p_object_id : NativeObjectID) (p_func_id : N)
    (p_args : list Variant) (r_error : CallError) (fc : FunctionCache)
    : M (Variant * CallError * list Slot) :=
  let* _ := check_internal_state in
  match function_bank_ fc !! p_func_id with
  | None => ret (VarNil, set_error CALL_ERROR_INVALID_METHOD r_error, [])
  | Some js_func =>
      if negb (p_object_id =? 0) then
        let* e0 := get in
        if negb (SArray_is_valid_index (objects_ e0) p_object_id) then
          let* _ := JSB_LOG Error "invalid `this` for calling function" [] in
          ret (VarNil, set_error CALL_ERROR_INVALID_METHOD r_error, [])
        else
          let* _ := jsb_check (negb (Global_IsEmpty (object_ js_func))) in
          let* self := get_object p_object_id in
          _call (default VUndefined (Global_Get (object_ js_func))) self p_args r_error
      else
        let* _ := jsb_check (negb (Global_IsEmpty (object_ js_func))) in
        _call (default VUndefined (Global_Get (object_ js_func))) VUndefined p_args r_error
  end.

End FunctionCacheOps.

(** The invariant of the function cache: the identity map and the bank
    describe the same set of function objects, every count is positive, and
    the empty id is not in use. *)
Record function_cache_wf (fc : FunctionCache) : Prop := mk_function_cache_wf {
  fcwf_zero : function_bank_ fc !! 0 = None;
  fcwf_refs : ∀ f i, function_refs_ fc !! f = Some i →
                ∃ r, function_bank_ fc !! i = Some r ∧
                     object_ r = GStrong (VObject (mkJSObject KFunction f)) ∧
                     0 < strong_count_ r;
  fcwf_bank : ∀ i r, function_bank_ fc !! i = Some r →
                ∃ f, object_ r = GStrong (VObject (mkJSObject KFunction f)) ∧
                     function_refs_ fc !! f = Some i
}.

(* ===================================================================== *)
(** ** Loading by name, reload requests, evaluation *)
(* ===================================================================== *)

(** Godot's [Error], as far as the modelled functions return it. *)
Inductive GodotError := OK | ERR_COMPILATION_FAILED.

Inductive EReloadResult := NoSuchModule | NoChanges | Requested.

(** What [mark_as_reloading] and [eval_source] ask of code outside
    [src/]: [JavaScriptModule::mark_as_reloading], which looks at the
    source of a module and may flag the module, and
    [impl::Helper::eval], which runs a script and, like a call, leaves a
    thrown exception pending. *)
Class ScriptSource := {
  module_mark_as_reloading : JavaScriptModule -> bool * JavaScriptModule;
  Helper_eval : string -> string -> Isolate -> option JSValue * Isolate
}.

Section LoadAndEval.
Context `{Host} `{ModuleSystem} `{ScriptSource}.

(** [Environment::load]: the returned error and [*r_module]. *)
Definition load (p_name : string) : M (GodotError * option string) :=
  let* _ := check_internal_state in
  let* module := _load_module "" p_name in
  let* e1 := get in
  if TryCatch_has_caught (isolate_ e1) then
    let* msg := BridgeHelper_get_exception in
    let* _ := JSB_LOG Warning "something went wrong on loading '%s'\n%s"
                [LStr p_name; LStr msg] in
    ret (ERR_COMPILATION_FAILED, module)
  else ret (OK, module).

(** [Environment::mark_as_reloading]. *)
Definition mark_as_reloading (p_name : string) : M EReloadResult :=
  let* e0 := get in
  match module_cache_ e0 !! p_name with
  | Some m =>
      let* _ := jsb_check (negb (String.eqb (source_filepath (source_info m)) "")) in
      if negb (is_loaded m) then ret Requested
      else
        let (changed, m') := module_mark_as_reloading m in
        let* _ := module_update p_name (fun _ => m') in
        if changed then ret Requested else ret NoChanges
  | None => ret NoSuchModule
  end.

(** [Environment::eval_source]: [r_err] and the value moved out, if any. *)
Definition eval_source (p_source p_filename : string) : M (GodotError * option JSValue) :=
  let* e0 := get in
  let (maybe, iso') := Helper_eval p_source p_filename (isolate_ e0) in
  let* _ := modify (set_isolate_ iso') in
  if TryCatch_has_caught iso' then
    let* msg := BridgeHelper_get_exception in
    let* _ := JSB_LOG Error "failed to eval_source: %s" [LStr msg] in
    ret (ERR_COMPILATION_FAILED, None)
  else ret (OK, maybe).

End LoadAndEval.

(* ===================================================================== *)
(** ** Example data *)
(* ===================================================================== *)

(** A small host and class table the examples run on: one thread, host
    objects that are reference counted and alive, and a class whose
    finalizer unreferences the host object and deletes it, which makes
    the host call [reference_callback] and [free_callback] back. *)
Definition example_host : Host :=
  {| get_caller_id := 1; is_ref_counted := λ _, true; init_ref := λ _, true |}.

Definition example_class : NativeClassInfo :=
  mkNativeClassInfo "Node" GodotObject
    (λ p persistent, [CbReference p false; CbFree p p]).

Definition example_env : Environment :=
  Environment_new 1 (<[1 := example_class]> ∅).

Definition example_object (n : N) : JSObject := mkJSObject KPlain n.

Definition example_ops : list RegistryOp :=
  [OpBind 1 100 (example_object 7) Managed;
   OpReference 100 true;
   OpReference 100 false;
   OpFree 100 true;
   OpBind 1 100 (example_object 8) External;
   OpFree 100 false].


(** The example environment with address 100 bound under id 1 to the
    handle [h]. *)
Definition example_env_bound (h : ObjectHandle) : Environment :=
  set_objects_ {[1 := h]} (set_objects_index_ {[100 := 1]} example_env).

Definition example_weak_handle : ObjectHandle :=
  mkObjectHandle 1 100 (GWeak (VObject (example_object 7)) 100) 0.

Definition example_strong_handle : ObjectHandle :=
  mkObjectHandle 1 100 (GStrong (VObject (example_object 7))) 1.

Definition example_exception : JSException :=
  mkJSException (Some "main.js") (Some "3") "boom" "at f (main.js:3)".

Definition example_function (n : N) : JSValue := VObject (mkJSObject KFunction n).

(** An engine for the examples.  Host objects do not convert to script
    values; symbols and objects do not convert back.  Function 1 returns
    a number, function 2 throws, function 3 returns a promise, function 4
    returns a symbol.  Constructor 1 returns a fresh object, constructor
    2 throws, constructor 3 returns a number. *)
Definition example_engine : Engine :=
  {| gd_var_to_js := λ _ v,
       match v with
       | VarNil => Some VUndefined
       | VarBool b => Some (VBoolean b)
       | VarInt z => Some (VNumber z)
       | VarString s => Some (VString s)
       | VarObject _ => None
       end;
     js_to_gd_var := λ _ v,
       match v with
       | VUndefined | VNull => Some VarNil
       | VBoolean b => Some (VarBool b)
       | VNumber z => Some (VarInt z)
       | VString s => Some (VarString s)
       | VSymbol _ | VObject _ => None
       end;
     Function_Call := λ f _ _ iso,
       match f with
       | VObject (mkJSObject KFunction 1) => (Some (VNumber 42), iso)
       | VObject (mkJSObject KFunction 2) => (None, iso_set_exception (Some example_exception) iso)
       | VObject (mkJSObject KFunction 3) => (Some (VObject (mkJSObject KPromise 9)), iso)
       | VObject (mkJSObject KFunction 4) => (Some (VSymbol 5), iso)
       | _ => (None, iso)
       end;
     Object_CallAsConstructor := λ c _ iso,
       match c with
       | VObject (mkJSObject KFunction 1) => (Some (VObject (mkJSObject KPlain 50)), iso)
       | VObject (mkJSObject KFunction 2) => (None, iso_set_exception (Some example_exception) iso)
       | VObject (mkJSObject KFunction 3) => (Some (VNumber 7), iso)
       | _ => (None, iso)
       end |}.

Definition example_call_error : CallError := mkCallError CALL_OK 0 0.

(** A module system for the examples: resolver 0 knows the bare id
    ["a"] as the file ["res://a.js"]; loading does nothing and
    succeeds. *)
Definition example_modules : ModuleSystem :=
  {| loader_load := λ _ m iso, (true, m, iso);
     resolver_get_source_info := λ r p_module_id,
       if (r =? 0) && String.eqb p_module_id "a"
       then Some (mkModuleSourceInfo "res://a.js" "") else None;
     resolver_load := λ _ _ m iso, (true, m, iso);
     module_on_load := λ m iso, (m, iso);
     parse_script_class := λ m classes iso, (m, classes, iso);
     PathUtil_dirname := λ s, s;
     PathUtil_combine := λ a b, a +:+ "/" +:+ b;
     PathUtil_extract := λ s, Some s |}.

Definition example_module : JavaScriptModule :=
  mkJavaScriptModule "res://a.js" (mkModuleSourceInfo "res://a.js" "")
    (GStrong (VObject (example_object 20))) (GStrong (VObject (example_object 21)))
    0 false.

(** The example environment with ["res://a.js"] loaded and resolver 0
    installed. *)
Definition example_env_modules : Environment :=
  set_module_resolvers_ [0]
    (set_module_cache_ {["res://a.js" := example_module]} example_env).

(** A host whose reference-counted objects are already dead: [init_ref]
    fails. *)
Definition dead_host : Host :=
  {| get_caller_id := 1; is_ref_counted := λ _, true; init_ref := λ _, false |}.

(** A script class [Foo] over the native class 1, its constructor being
    function 1 of the example engine; the example environment with that
    class registered under id 1 and a prototype object for it. *)
Definition example_script_class : ScriptClassInfo :=
  mkScriptClassInfo "Foo" "Node" 1 (GStrong (example_function 1)).

Definition example_env_classes : Environment :=
  set_isolate_
    (iso_set_properties {[(1, "prototype") := VObject (example_object 30)]} Isolate_new)
    (set_script_classes_ {[1 := example_script_class]} example_env).

(** The same with address 100 bound under id 1. *)
Definition example_env_crossbound : Environment :=
  set_objects_ {[1 := example_strong_handle]}
    (set_objects_index_ {[100 := 1]} example_env_classes).

(** Two bound addresses, 100 under id 1 and 200 under id 2, the second
    one persistent. *)
Definition example_env_two : Environment :=
  set_trace_ [EvIndexInsert 100 1; EvIndexInsert 200 2]
    (set_persistent_objects_ {[200]}
       (set_objects_ (<[2 := mkObjectHandle 1 200 (GStrong (VObject (example_object 9))) 1]>
                        {[1 := example_weak_handle]})
          (set_objects_index_ (<[200 := 2]> {[100 := 1]}) example_env))).

(** The bound example environment whose script object 7 has a method
    ["_ready"], function 1 of the example engine. *)
Definition example_env_method : Environment :=
  set_isolate_ (iso_set_properties {[(7, "_ready") := example_function 1]} Isolate_new)
    (example_env_bound example_strong_handle).

(** A module system in which everything fails: path normalisation, the
    resolvers and the loaders. *)
Definition strict_modules : ModuleSystem :=
  {| loader_load := λ _ m iso, (false, m, iso);
     resolver_get_source_info := λ _ _, None;
     resolver_load := λ _ _ m iso, (false, m, iso);
     module_on_load := λ m iso, (m, iso);
     parse_script_class := λ m classes iso, (m, classes, iso);
     PathUtil_dirname := λ s, s;
     PathUtil_combine := λ a b, a +:+ "/" +:+ b;
     PathUtil_extract := λ _, None |}.

(** A dirty module: a reload of it has been requested. *)
Definition example_dirty_module : JavaScriptModule :=
  set_reload_requested true example_module.

(** A source collaborator for the examples: a module never changes on
    disk; the script ["throw"] throws and any other evaluates to 1. *)
Definition example_source : ScriptSource :=
  {| module_mark_as_reloading := λ m, (false, m);
     Helper_eval := λ src _ iso,
       if String.eqb src "throw"
       then (None, iso_set_exception (Some example_exception) iso)
       else (Some (VNumber 1), iso) |}.

(** The two bound addresses again, in an environment that has been
    disposed: it has left the store. *)
Definition example_env_disposed : Environment := set_in_store_ false example_env_two.



(* ===================================================================== *)
(** ** Symbolic execution of the monad *)
(* ===================================================================== *)

Ltac munfold :=
  unfold bind, ret, get, modify, crash, emit, JSB_LOG, jsb_check, jsb_checkf,
    objects_add, objects_get_value, objects_update, objects_remove_at_checked,
    native_classes_get_value, SetAlignedPointerInInternalField,
    objects_index_insert, objects_index_erase in *.

(** One step: simplify, resolve a lookup that is known, or split on the
    condition or lookup the computation is stuck on. *)
Ltac mstep_in Hr :=
  first
    [ progress (simpl in Hr)
    | progress (rewrite ?lookup_insert_eq in Hr)
    | discriminate Hr
    | match type of Hr with
      | context [if ?c then _ else _] => destruct c eqn:?
      | context [match ?m !! ?k with Some _ => _ | None => _ end] => destruct (m !! k) eqn:?
      end ].

Ltac mrun_in Hr := munfold; repeat mstep_in Hr.

(** Normal form of an environment built by setters. *)
Ltac env_simpl :=
  unfold set_trace_, set_objects_, set_objects_index_, set_persistent_objects_,
    set_isolate_, set_module_cache_, set_script_classes_, set_next_ref_;
  simpl.

(* ===================================================================== *)
(** ** Facts on traces and on the id table *)
(* ===================================================================== *)

Lemma SArray_new_index_fresh {A} (t : gmap N A) : t !! SArray_new_index t = None.
Proof.
  unfold SArray_new_index.
  pose proof (is_fresh ({[0]} ∪ dom t)) as Hf.
  apply not_elem_of_dom. set_solver.
Qed.

Lemma SArray_new_index_nonzero {A} (t : gmap N A) : SArray_new_index t ≠ 0.
Proof.
  unfold SArray_new_index.
  pose proof (is_fresh ({[0]} ∪ dom t)) as Hf. set_solver.
Qed.

Lemma replay_app tr1 tr2 s :
  replay (tr1 ++ tr2) s =
  match replay tr1 s with Some s' => replay tr2 s' | None => None end.
Proof.
  revert s. induction tr1 as [|ev tr1 IH]; intros s; simpl; [done|].
  destruct ev; simpl; try apply IH.
  case_bool_decide; [done|apply IH].
Qed.

Lemma replay_neutral tr s :
  forallb index_neutral tr = true → replay tr s = Some s.
Proof.
  induction tr as [|ev tr IH]; simpl; [done|].
  intros [Hev Htr]%andb_prop. destruct ev; simpl in *; try done; by apply IH.
Qed.

(** A trace that replays is free of double binds, whatever the start. *)
Lemma replay_no_double_bind tr s s' :
  replay tr s = Some s' → no_double_bind tr.
Proof.
  revert s s'. induction tr as [|ev tr IH]; intros s s' Hr i j p id1 id2 Hij Hi Hj.
  - by rewrite lookup_nil in Hi.
  - destruct i as [|i].
    + (* the first event inserts p *)
      simpl in Hi. injection Hi as ->. simpl in Hr.
      case_bool_decide as Hp; [done|].
      destruct j as [|j]; [lia|]. simpl in Hj.
      (* search the erase in the tail *)
      assert (Hgen : ∀ (tl : list Event) (t t' : gset N) (n : nat),
                 p ∈ t → replay tl t = Some t' →
                 tl !! n = Some (EvIndexInsert p id2) →
                 ∃ k, (k < n)%nat ∧ tl !! k = Some (EvIndexErase p)).
      { clear. induction tl as [|ev tl IHtl]; intros t t' n Hin Hrp Hn.
        - by rewrite lookup_nil in Hn.
        - destruct n as [|n].
          + simpl in Hn. injection Hn as ->. simpl in Hrp.
            case_bool_decide; [done|contradiction].
          + simpl in Hn.
            assert ((∃ t2, p ∈ t2 ∧ replay tl t2 = Some t') ∨ ev = EvIndexErase p)
              as Hcase.
            { destruct ev; simpl in Hrp; try (by left; exists t).
              - case_bool_decide; [done|]. left. eexists. split; [|exact Hrp]. set_solver.
              - destruct (decide (p0 = p)) as [->|Hne]; [by right|].
                left. eexists. split; [|exact Hrp]. set_solver. }
            destruct Hcase as [(t2 & Hin2 & Hrp2)| ->];
              [|exists 0%nat; split; [lia|done]].
              destruct (IHtl t2 t' n Hin2 Hrp2 Hn) as (k & Hk & Hek).
              exists (S k). split; [lia|done]. }
      destruct (Hgen tr ({[p]} ∪ s) s' j) as (k & Hk & Hek); [set_solver|done|done|].
      exists (S k). split; [lia|done].
    + destruct j as [|j]; [lia|]. simpl in Hi, Hj.
      assert (∃ t, replay tr t = Some s') as [t Ht].
      { destruct ev; simpl in Hr; try (by eexists).
        case_bool_decide; [done|by eexists]. }
      destruct (IH t s' Ht i j p id1 id2) as (k & Hk & Hek); [lia|done|done|].
      exists (S k). split; [lia|done].
Qed.

Section RegistryFacts.
Context `{Host}.

(** *** bind_pointer *)

Lemma bind_pointer_inv e cid p o pol oid e' :
  bind_pointer cid p o pol e = Ok (oid, e') →
  (get_caller_id =? thread_id_ e) = true ∧
  objects_index_ e !! p = None ∧
  oid = SArray_new_index (objects_ e) ∧
  (∃ ci, native_classes_ e !! cid = Some ci ∧ type ci ≠ GodotPrimitive) ∧
  objects_index_ e' = <[p := oid]> (objects_index_ e) ∧
  objects_ e' = <[oid := mkObjectHandle cid p
                    (match pol with Managed => GWeak (VObject o) p | External => GStrong (VObject o) end)
                    (match pol with Managed => 0 | External => 1 end)]> (objects_ e) ∧
  (∃ tl, trace_ e' = trace_ e ++ EvIndexInsert p oid :: tl ∧ forallb index_neutral tl = true
         ∧ forallb (λ ev, negb (is_finalizer_event ev)) tl = true
         ∧ forallb (λ ev, negb (is_construct_event ev)) tl = true) ∧
  native_classes_ e' = native_classes_ e ∧
  persistent_objects_ e' = persistent_objects_ e ∧
  thread_id_ e' = thread_id_ e ∧ in_store_ e' = in_store_ e.
Proof.
  unfold bind_pointer. intros Hr. mrun_in Hr.
  all: destruct pol; repeat mstep_in Hr.
  all: injection Hr as <- <-; simpl.
  all: rewrite ?insert_insert_eq.
  all: match goal with
       | Hb : negb (bool_decide _) = true |- _ =>
           apply negb_true_iff, bool_decide_eq_false in Hb;
           rewrite <- eq_None_not_Some in Hb
       end.
  all: repeat split; try done.
  all: rewrite <- ?List.app_assoc; simpl.
  all: try (eexists; split; [reflexivity|done]).
  all: eexists; split; [reflexivity|].
  all: intros Heq; rewrite Heq in *; discriminate.
Qed.

(** *** reference_object *)

Lemma reference_object_unbound e p inc :
  (get_caller_id =? thread_id_ e) = true →
  objects_index_ e !! p = None →
  reference_object p inc e =
    Ok (true, set_trace_ (trace_ e ++ [EvLog VeryVerbose "bad pointer %d" [LInt p]]) e).
Proof.
  intros Ht Hp. unfold reference_object. munfold. simpl. rewrite Ht. simpl.
  rewrite Hp. reflexivity.
Qed.

Lemma reference_object_bound e p inc oid h ci :
  (get_caller_id =? thread_id_ e) = true →
  objects_index_ e !! p = Some oid →
  objects_ e !! oid = Some h →
  native_classes_ e !! class_id h = Some ci →
  type ci ≠ GodotPrimitive →
  (inc = true → ref_count_ h = 0 → ref_ h ≠ GEmpty) →
  (inc = false → ref_ h ≠ GEmpty ∧ 0 < ref_count_ h) →
  reference_object p inc e = Ok (false, referenced e oid p inc h).
Proof.
  intros Ht Hp Ho Hc Hty Hinc Hdec.
  unfold reference_object. munfold. simpl. rewrite Ht. simpl. rewrite Hp.
  rewrite Ho. rewrite Hc.
  assert (negb (NativeClassType_eqb (type ci) GodotPrimitive) = true) as ->
    by (destruct (type ci); done).
  unfold referenced, reference_events, reference_handle.
  destruct inc.
  - destruct (ref_count_ h =? 0) eqn:Hz.
    + assert (Global_IsEmpty (ref_ h) = false) as ->.
      { apply N.eqb_eq in Hz. specialize (Hinc eq_refl Hz). by destruct (ref_ h). }
      simpl. rewrite Ho. simpl. rewrite lookup_insert_eq.
      destruct e; simpl. by rewrite insert_insert_eq.
    + simpl. rewrite Ho. destruct e; simpl. rewrite app_nil_r.
      destruct h; done.
  - destruct (Hdec eq_refl) as [Hne Hpos].
    assert (Global_IsEmpty (ref_ h) = false) as -> by (by destruct (ref_ h)).
    apply N.ltb_lt in Hpos as Hpos'. rewrite Hpos'. simpl. rewrite Ho. simpl.
    rewrite lookup_insert_eq. simpl.
    destruct (ref_count_ h - 1 =? 0) eqn:Hz.
    + simpl. rewrite lookup_insert_eq. destruct e; simpl. by rewrite insert_insert_eq.
    + destruct e; simpl. rewrite app_nil_r. destruct h; done.
Qed.

Lemma reference_object_inv e p inc r e' :
  reference_object p inc e = Ok (r, e') →
  (get_caller_id =? thread_id_ e) = true ∧
  ((objects_index_ e !! p = None ∧ r = true ∧
    e' = set_trace_ (trace_ e ++ [EvLog VeryVerbose "bad pointer %d" [LInt p]]) e)
   ∨ (∃ oid h ci,
        objects_index_ e !! p = Some oid ∧ objects_ e !! oid = Some h ∧
        native_classes_ e !! class_id h = Some ci ∧ type ci ≠ GodotPrimitive ∧
        (inc = true → ref_count_ h = 0 → ref_ h ≠ GEmpty) ∧
        (inc = false → ref_ h ≠ GEmpty ∧ 0 < ref_count_ h) ∧
        r = false ∧ e' = referenced e oid p inc h)).
Proof.
  intros Hr.
  assert ((get_caller_id =? thread_id_ e) = true) as Ht.
  { unfold reference_object in Hr. munfold. simpl in Hr.
    destruct (get_caller_id =? thread_id_ e); [done|discriminate]. }
  split; [done|].
  destruct (objects_index_ e !! p) as [oid|] eqn:Hp.
  - right.
    assert (∃ h ci, objects_ e !! oid = Some h ∧
              native_classes_ e !! class_id h = Some ci ∧ type ci ≠ GodotPrimitive ∧
              (inc = true → ref_count_ h = 0 → ref_ h ≠ GEmpty) ∧
              (inc = false → ref_ h ≠ GEmpty ∧ 0 < ref_count_ h))
      as (h & ci & Ho & Hc & Hty & Hinc & Hdec).
    { unfold reference_object in Hr. munfold. simpl in Hr. rewrite Ht in Hr.
      simpl in Hr. rewrite Hp in Hr.
      destruct (objects_ e !! oid) as [h|] eqn:Ho; [|discriminate].
      destruct (native_classes_ e !! class_id h) as [ci|] eqn:Hc; [|discriminate].
      exists h, ci. split; [done|]. split; [done|].
      destruct (NativeClassType_eqb (type ci) GodotPrimitive) eqn:Hty; [discriminate|].
      simpl in Hr.
      split; [by intros Heq; rewrite Heq in Hty|].
      destruct inc.
      - split; [|done]. intros _ Hz Hempty. rewrite Hz, Hempty in Hr. discriminate.
      - split; [done|]. intros _.
        destruct (Global_IsEmpty (ref_ h)) eqn:Hem; [discriminate|]. simpl in Hr.
        destruct (0 <? ref_count_ h) eqn:Hpos; [|discriminate].
        split; [by intros Heq; rewrite Heq in Hem|by apply N.ltb_lt]. }
    exists oid, h, ci. repeat (split; [done|]).
    rewrite (reference_object_bound e p inc oid h ci) in Hr by done.
    by injection Hr as <- <-.
  - left. rewrite reference_object_unbound in Hr by done.
    by injection Hr as <- <-.
Qed.

(** *** free_object *)

Lemma free_object_with_unbound hook e p fin :
  (get_caller_id =? thread_id_ e) = true →
  objects_index_ e !! p = None →
  free_object_with hook p fin e = Ok (tt, e).
Proof.
  intros Ht Hp. unfold free_object_with. munfold. simpl. rewrite Ht. simpl.
  by rewrite Hp.
Qed.

Lemma free_object_with_bound hook e p fin oid h ci :
  (get_caller_id =? thread_id_ e) = true →
  objects_index_ e !! p = Some oid →
  objects_ e !! oid = Some h →
  pointer h = p →
  native_classes_ e !! class_id h = Some ci →
  (fin = false → ∃ obj, Global_Get (ref_ h) = Some (VObject obj)) →
  free_object_with hook p fin e =
    if fin then
      hook (class_id h) ci p (bool_decide (p ∈ persistent_objects_ e)) (detached e p oid h ci true)
    else Ok (tt, detached e p oid h ci false).
Proof.
  intros Ht Hp Ho Hptr Hc Hobj.
  unfold free_object_with. munfold. simpl. rewrite Ht. simpl. rewrite Hp.
  rewrite Ho. rewrite Hptr, N.eqb_refl. simpl.
  destruct fin; simpl.
  - rewrite Ho. simpl. rewrite lookup_insert_eq. simpl. rewrite Hc.
    f_equal. unfold detached. env_simpl.
    rewrite delete_insert_eq. rewrite <- List.app_assoc. reflexivity.
  - destruct (Hobj eq_refl) as [obj Hget]. unfold clear_internal_field.
    rewrite Hget. munfold. simpl. rewrite Ho. simpl. rewrite lookup_insert_eq.
    simpl. rewrite Hc. unfold detached. rewrite Hget. env_simpl.
    unfold modify. simpl.
    rewrite delete_insert_eq. by rewrite <- List.app_assoc.
Qed.

Lemma free_object_with_inv hook e p fin e' :
  free_object_with hook p fin e = Ok (tt, e') →
  (get_caller_id =? thread_id_ e) = true ∧
  ((objects_index_ e !! p = None ∧ e' = e)
   ∨ (∃ oid h ci,
        objects_index_ e !! p = Some oid ∧ objects_ e !! oid = Some h ∧
        pointer h = p ∧ native_classes_ e !! class_id h = Some ci ∧
        (fin = false → ∃ obj, Global_Get (ref_ h) = Some (VObject obj)) ∧
        (if fin then
           hook (class_id h) ci p (bool_decide (p ∈ persistent_objects_ e))
             (detached e p oid h ci true) = Ok (tt, e')
         else e' = detached e p oid h ci false))).
Proof.
  intros Hr.
  assert ((get_caller_id =? thread_id_ e) = true) as Ht.
  { unfold free_object_with in Hr. munfold. simpl in Hr.
    destruct (get_caller_id =? thread_id_ e); [done|discriminate]. }
  split; [done|].
  destruct (objects_index_ e !! p) as [oid|] eqn:Hp.
  - right.
    assert (∃ h ci, objects_ e !! oid = Some h ∧ pointer h = p ∧
              native_classes_ e !! class_id h = Some ci ∧
              (fin = false → ∃ obj, Global_Get (ref_ h) = Some (VObject obj)))
      as (h & ci & Ho & Hptr & Hc & Hobj).
    { unfold free_object_with in Hr. munfold. simpl in Hr. rewrite Ht in Hr.
      simpl in Hr. rewrite Hp in Hr.
      destruct (objects_ e !! oid) as [h|] eqn:Ho; [|discriminate].
      destruct (pointer h =? p) eqn:Hptr; [|discriminate]. simpl in Hr.
      apply N.eqb_eq in Hptr.
      assert (fin = false → ∃ obj, Global_Get (ref_ h) = Some (VObject obj)) as Hobj.
      { intros ->. unfold clear_internal_field in Hr.
        destruct (Global_Get (ref_ h)) as [[]|]; try discriminate. by eexists. }
      destruct (native_classes_ e !! class_id h) as [ci|] eqn:Hc.
      { by exists h, ci. }
      exfalso. destruct fin.
      - simpl in Hr. rewrite Ho in Hr. simpl in Hr. rewrite lookup_insert_eq in Hr.
        simpl in Hr. rewrite Hc in Hr. discriminate.
      - destruct (Hobj eq_refl) as [obj Hget]. unfold clear_internal_field in Hr.
        rewrite Hget in Hr. munfold. simpl in Hr. rewrite Ho in Hr. simpl in Hr.
        rewrite lookup_insert_eq in Hr. simpl in Hr. rewrite Hc in Hr. discriminate. }
    exists oid, h, ci. repeat (split; [done|]).
    rewrite (free_object_with_bound hook e p fin oid h ci) in Hr by done.
    destruct fin; [done|]. by injection Hr as <-.
  - left. rewrite free_object_with_unbound in Hr by done.
    by injection Hr as <-.
Qed.

(** *** The invariant is kept *)

Lemma registry_wf_log e tl :
  forallb index_neutral tl = true →
  registry_wf e → registry_wf (set_trace_ (trace_ e ++ tl) e).
Proof.
  intros Hn [Hs Hi Ht]. split; simpl; [done|done|].
  rewrite replay_app, Ht. by apply replay_neutral.
Qed.

Lemma registry_wf_referenced e oid p inc h :
  objects_ e !! oid = Some h →
  registry_wf e → registry_wf (referenced e oid p inc h).
Proof.
  intros Ho [Hs Hi Ht]. unfold referenced. split; simpl.
  - rewrite Hs. symmetry. apply map_size_insert_Some. eauto.
  - intros q oid' Hq. destruct (Hi q oid' Hq) as (h' & Hh' & Hptr).
    destruct (decide (oid' = oid)) as [->|Hne].
    + rewrite lookup_insert_eq. eexists. split; [done|].
      rewrite Ho in Hh'. injection Hh' as <-.
      unfold reference_handle. by destruct inc.
    + rewrite lookup_insert_ne by done. eauto.
  - rewrite replay_app, Ht. apply replay_neutral.
    unfold reference_events. by destruct inc, (_ =? 0).
Qed.

Lemma registry_wf_detached e p oid h ci fin :
  objects_index_ e !! p = Some oid →
  objects_ e !! oid = Some h →
  registry_wf e → registry_wf (detached e p oid h ci fin).
Proof.
  intros Hp Ho [Hs Hi Ht]. unfold detached. split; simpl.
  - rewrite !map_size_delete, Hp, Ho. by rewrite Hs.
  - intros q oid' Hq.
    apply lookup_delete_Some in Hq as [Hne Hq].
    destruct (Hi q oid' Hq) as (h' & Hh' & Hptr).
    exists h'. split; [|done].
    rewrite lookup_delete_ne; [done|].
    intros Heq. subst oid'. destruct (Hi p oid Hp) as (h2 & Hh2 & Hptr2). congruence.
  - rewrite replay_app, Ht. simpl. by rewrite dom_delete_L.
Qed.

Lemma bind_pointer_wf e cid p o pol oid e' :
  bind_pointer cid p o pol e = Ok (oid, e') →
  registry_wf e → registry_wf e'.
Proof.
  intros Hb [Hs Hi Ht].
  destruct (bind_pointer_inv _ _ _ _ _ _ _ Hb)
    as (_ & Hp & Hoid & _ & Hidx & Hobj & (tl & Htr & Hn & _) & _).
  pose proof (SArray_new_index_fresh (objects_ e)) as Hfresh. rewrite <- Hoid in Hfresh.
  split.
  - rewrite Hidx, Hobj. rewrite !map_size_insert_None by done. by rewrite Hs.
  - rewrite Hidx, Hobj. intros q oid' Hq.
    destruct (decide (q = p)) as [->|Hne].
    + rewrite lookup_insert_eq in Hq. injection Hq as <-.
      rewrite lookup_insert_eq. by eexists.
    + rewrite lookup_insert_ne in Hq by done.
      destruct (Hi q oid' Hq) as (h' & Hh' & Hptr).
      exists h'. split; [|done]. rewrite lookup_insert_ne; [done|]. congruence.
  - rewrite Htr, Hidx, replay_app, Ht. simpl.
    rewrite bool_decide_eq_false_2 by (by apply not_elem_of_dom).
    rewrite dom_insert_L. by apply replay_neutral.
Qed.

Lemma reference_object_wf e p inc r e' :
  reference_object p inc e = Ok (r, e') →
  registry_wf e → registry_wf e'.
Proof.
  intros Hr Hwf.
  destruct (reference_object_inv _ _ _ _ _ Hr)
    as (_ & [(_ & _ & ->)|(oid & h & ci & _ & Ho & _ & _ & _ & _ & _ & ->)]).
  - by apply registry_wf_log.
  - by apply registry_wf_referenced.
Qed.

Lemma free_object_detach_wf e p e' :
  free_object_detach p e = Ok (tt, e') →
  registry_wf e → registry_wf e'.
Proof.
  intros Hr Hwf. unfold free_object_detach in Hr.
  destruct (free_object_with_inv _ _ _ _ _ Hr)
    as (_ & [(_ & ->)|(oid & h & ci & Hp & Ho & _ & _ & _ & ->)]); [done|].
  by apply registry_wf_detached.
Qed.

Lemma host_callback_wf cb e e' :
  host_callback cb e = Ok (tt, e') →
  registry_wf e → registry_wf e'.
Proof.
  intros Hr Hwf. destruct cb as [pi pb|pb b]; simpl in Hr.
  - unfold free_callback in Hr. munfold. simpl in Hr.
    destruct (in_store_ e); [|by injection Hr as <-].
    destruct (pi =? pb); [|discriminate]. simpl in Hr.
    by eapply free_object_detach_wf.
  - unfold reference_callback in Hr. munfold. simpl in Hr.
    destruct (in_store_ e); [|by injection Hr as <-].
    destruct (reference_object pb b e) as [[r e1]|] eqn:Href; [|discriminate].
    injection Hr as <-. by eapply reference_object_wf.
Qed.

Lemma for_each_host_callback_wf cbs e e' :
  for_each host_callback cbs e = Ok (tt, e') →
  registry_wf e → registry_wf e'.
Proof.
  revert e. induction cbs as [|cb cbs IH]; intros e Hr Hwf; simpl in Hr.
  - by injection Hr as <-.
  - unfold bind in Hr.
    destruct (host_callback cb e) as [[[] e1]|] eqn:Hcb; [|discriminate].
    eapply IH; [exact Hr|]. by eapply host_callback_wf.
Qed.

Lemma invoke_finalizer_unfold cid ci p pers e :
  invoke_finalizer cid ci p pers e =
  for_each host_callback (finalizer ci p pers)
    (set_trace_ (trace_ e ++ [EvFinalizer cid p pers]) e).
Proof. reflexivity. Qed.

Lemma free_object_wf e p fin e' :
  free_object p fin e = Ok (tt, e') →
  registry_wf e → registry_wf e'.
Proof.
  intros Hr Hwf. unfold free_object in Hr.
  destruct (free_object_with_inv _ _ _ _ _ Hr)
    as (_ & [(_ & ->)|(oid & h & ci & Hp & Ho & _ & _ & _ & Hfin)]); [done|].
  destruct fin.
  - rewrite invoke_finalizer_unfold in Hfin.
    eapply for_each_host_callback_wf; [exact Hfin|].
    apply (registry_wf_log _ [_]); [done|].
    by apply registry_wf_detached.
  - subst e'. by apply registry_wf_detached.
Qed.

Lemma registry_op_wf op e e' :
  exec (registry_op op) e = Some e' →
  registry_wf e → registry_wf e'.
Proof.
  unfold exec. intros Hr Hwf.
  destruct (registry_op op e) as [[[] e1]|] eqn:Hop; [|discriminate].
  injection Hr as ->. destruct op; simpl in Hop; unfold bind, ret in Hop.
  - destruct (bind_pointer _ _ _ _ e) as [[oid e2]|] eqn:Hb; [|discriminate].
    injection Hop as <-. by eapply bind_pointer_wf.
  - destruct (reference_object _ _ e) as [[r e2]|] eqn:Hb; [|discriminate].
    injection Hop as <-. by eapply reference_object_wf.
  - by eapply free_object_wf.
Qed.

Lemma run_ops_wf ops e :
  registry_wf e → Forall registry_wf (run_ops ops e).
Proof.
  revert e. induction ops as [|op ops IH]; intros e Hwf; simpl; [constructor|].
  destruct (exec (registry_op op) e) as [e'|] eqn:Hex; [|constructor].
  assert (registry_wf e') by (by eapply registry_op_wf).
  constructor; [done|by apply IH].
Qed.

Lemma Environment_new_wf t classes : registry_wf (Environment_new t classes).
Proof. split; simpl; [done| |by rewrite dom_empty_L]. intros p oid Hp. by rewrite lookup_empty in Hp. Qed.

Lemma bind_pointer_duplicate e cid p o pol :
  is_Some (objects_index_ e !! p) → ∀ r, bind_pointer cid p o pol e ≠ Ok r.
Proof.
  intros [oid Hp] [oid' e'] Hb.
  destruct (bind_pointer_inv _ _ _ _ _ _ _ Hb) as (_ & Hnone & _). congruence.
Qed.

End RegistryFacts.

(* ===================================================================== *)
(** ** The registry: sizes, single binding, reference counting *)
(* ===================================================================== *)

(** C1. For every sequence of [bind_pointer], [reference_object] (+1 and
    -1) and [free_object] calls on an environment whose registry is well
    formed, after each call that returns the pointer-to-id map
    [objects_index_] and the id-to-handle table [objects_] have the same
    size, no address is inserted twice into the map without an erasure of
    that address in between, and a further [bind_pointer] of an address
    that is bound does not return. *)
Theorem registry_sizes_agree_single_binding `{Host} ops e :
  registry_wf e →
  Forall (λ e', size (objects_index_ e') = size (objects_ e') ∧
                no_double_bind (trace_ e') ∧
                ∀ cid p o pol, is_Some (objects_index_ e' !! p) →
                  ∀ r, bind_pointer cid p o pol e' ≠ Ok r)
         (run_ops ops e).
Proof.
  intros Hwf. eapply Forall_impl; [by apply run_ops_wf|].
  intros e' [Hs Hi Ht]. split; [done|]. split.
  - by eapply replay_no_double_bind.
  - intros cid p o pol. apply bind_pointer_duplicate.
Qed.

Example example_ops_all_return :
  length (@run_ops example_host example_ops example_env) = 6%nat.
Proof. vm_compute. reflexivity. Qed.

Lemma registry_sizes_agree_single_binding_witness :
  registry_wf example_env ∧
  Forall (λ e', size (objects_index_ e') = size (objects_ e') ∧
                no_double_bind (trace_ e') ∧
                ∀ cid p o pol, is_Some (objects_index_ e' !! p) →
                  ∀ r, @bind_pointer example_host cid p o pol e' ≠ Ok r)
         (@run_ops example_host example_ops example_env).
Proof.
  split; [apply Environment_new_wf|].
  apply (@registry_sizes_agree_single_binding example_host example_ops example_env).
  apply Environment_new_wf.
Defined.


Section ReferenceCounting.
Context `{Host}.

Lemma reference_n_spec n : ∀ e p oid h ci,
  (get_caller_id =? thread_id_ e) = true →
  objects_index_ e !! p = Some oid →
  objects_ e !! oid = Some h →
  native_classes_ e !! class_id h = Some ci →
  type ci ≠ GodotPrimitive →
  ref_count_ h ≠ 0 →
  ∃ en, reference_n n p e = Ok (tt, en) ∧
        objects_ en !! oid = Some (set_ref_count_ (ref_count_ h + N.of_nat n) h) ∧
        trace_ en = trace_ e.
Proof.
  induction n as [|n IH]; intros e p oid h ci Ht Hp Ho Hc Hty Hnz.
  - exists e. simpl. unfold ret. split; [done|]. split; [|done].
    rewrite Ho. f_equal. destruct h; unfold set_ref_count_; simpl. f_equal. lia.
  - simpl. unfold bind.
    rewrite (reference_object_bound e p true oid h ci) by (try done; intros; lia).
    set (e1 := referenced e oid p true h).
    assert (objects_ e1 !! oid = Some (set_ref_count_ (ref_count_ h + 1) h)) as Ho1.
    { unfold e1, referenced, reference_handle. simpl. rewrite lookup_insert_eq.
      apply N.eqb_neq in Hnz. by rewrite Hnz. }
    destruct (IH e1 p oid (set_ref_count_ (ref_count_ h + 1) h) ci)
      as (en & Hrun & Hon & Htn); try done.
    { simpl. lia. }
    exists en. split; [done|]. split.
    + rewrite Hon. f_equal. unfold set_ref_count_. simpl. f_equal. lia.
    + rewrite Htn. unfold e1, referenced, reference_events. simpl.
      apply N.eqb_neq in Hnz. rewrite Hnz. by rewrite app_nil_r.
Qed.

Lemma reference_object_no_finalizer e p inc r e' :
  reference_object p inc e = Ok (r, e') →
  ∃ tl, trace_ e' = trace_ e ++ tl ∧
        forallb (λ ev, negb (is_finalizer_event ev)) tl = true.
Proof.
  intros Hr.
  destruct (reference_object_inv _ _ _ _ _ Hr)
    as (_ & [(_ & _ & ->)|(oid & h & ci & _ & _ & _ & _ & _ & _ & _ & ->)]).
  - by eexists.
  - eexists. split; [reflexivity|]. unfold reference_events.
    by destruct inc, (_ =? 0).
Qed.

End ReferenceCounting.

(** C3. On a bound pointer whose handle is weak with reference count 0,
    [reference_object(p, true)] returns [false], makes the handle strong
    and the count 1, and calls [ClearWeak] once; any number [n] of further
    increments only raises the count to [1 + n]: the handle stays as it
    is and the trace records no other [ClearWeak]. *)
Theorem reference_increment_strong_once `{Host} e p oid h ci o q n :
  (get_caller_id =? thread_id_ e) = true →
  objects_index_ e !! p = Some oid →
  objects_ e !! oid = Some h →
  native_classes_ e !! class_id h = Some ci →
  type ci ≠ GodotPrimitive →
  ref_count_ h = 0 →
  ref_ h = GWeak o q →
  ∃ e1 en,
    reference_object p true e = Ok (false, e1) ∧
    objects_ e1 !! oid = Some (mkObjectHandle (class_id h) (pointer h) (GStrong o) 1) ∧
    trace_ e1 = trace_ e ++ [EvClearWeak oid] ∧
    reference_n n p e1 = Ok (tt, en) ∧
    objects_ en !! oid =
      Some (mkObjectHandle (class_id h) (pointer h) (GStrong o) (1 + N.of_nat n)) ∧
    trace_ en = trace_ e ++ [EvClearWeak oid].
Proof.
  intros Ht Hp Ho Hc Hty Hz Hweak.
  set (e1 := referenced e oid p true h).
  assert (objects_ e1 !! oid = Some (mkObjectHandle (class_id h) (pointer h) (GStrong o) 1)) as Ho1.
  { unfold e1, referenced, reference_handle. simpl. rewrite lookup_insert_eq.
    by rewrite Hz, Hweak. }
  assert (trace_ e1 = trace_ e ++ [EvClearWeak oid]) as Ht1.
  { unfold e1, referenced, reference_events. simpl. by rewrite Hz. }
  destruct (reference_n_spec n e1 p oid
              (mkObjectHandle (class_id h) (pointer h) (GStrong o) 1) ci)
    as (en & Hrun & Hon & Htn); try done.
  exists e1, en. split.
  { apply reference_object_bound with (ci := ci); try done.
    intros _ _. by rewrite Hweak. }
  split; [done|]. split; [done|]. split; [done|]. split.
  - rewrite Hon. unfold set_ref_count_. simpl. done.
  - by rewrite Htn.
Qed.

(** C4. On a bound pointer whose handle holds an object with reference
    count 1, [reference_object(p, false)] returns [false], leaves the
    count 0 and the handle weak with the pointer as callback parameter,
    keeps the binding in both tables, and records [SetWeak] and nothing
    else; and no call of [reference_object] whatsoever records an
    invocation of a class finalizer. *)
Theorem reference_decrement_to_zero_weak `{Host} e p oid h ci o :
  (get_caller_id =? thread_id_ e) = true →
  objects_index_ e !! p = Some oid →
  objects_ e !! oid = Some h →
  native_classes_ e !! class_id h = Some ci →
  type ci ≠ GodotPrimitive →
  ref_count_ h = 1 →
  Global_Get (ref_ h) = Some o →
  (∃ e',
    reference_object p false e = Ok (false, e') ∧
    objects_ e' !! oid = Some (mkObjectHandle (class_id h) (pointer h) (GWeak o p) 0) ∧
    objects_index_ e' = objects_index_ e ∧
    trace_ e' = trace_ e ++ [EvSetWeak oid p]) ∧
  (∀ q inc r e2, reference_object q inc e = Ok (r, e2) →
    ∃ tl, trace_ e2 = trace_ e ++ tl ∧
          forallb (λ ev, negb (is_finalizer_event ev)) tl = true).
Proof.
  intros Ht Hp Ho Hc Hty Hone Hget. split.
  - exists (referenced e oid p false h). split.
    { apply reference_object_bound with (ci := ci); try done.
      intros _. split; [|lia]. intros Hem. by rewrite Hem in Hget. }
    unfold referenced, reference_handle, reference_events. simpl.
    rewrite lookup_insert_eq, Hone. simpl. repeat split.
    f_equal. f_equal. destruct (ref_ h); simpl in *; congruence.
  - intros q inc r e2. apply reference_object_no_finalizer.
Qed.

(** C10. [reference_object] returns [true] exactly when the pointer is
    not in [objects_index_]: on an unbound pointer the call returns
    [true]; on a bound pointer with a live handle it returns [false] for
    an increment and for a decrement, the decrement from 1 to 0
    included; and [reference_callback] hands that result to the host
    while the environment is registered. *)
Theorem reference_object_result `{Host} e p :
  (get_caller_id =? thread_id_ e) = true →
  (∀ inc r e', reference_object p inc e = Ok (r, e') →
     (r = true ↔ objects_index_ e !! p = None)) ∧
  (objects_index_ e !! p = None →
     ∀ inc, ∃ e', reference_object p inc e = Ok (true, e')) ∧
  (∀ oid h ci,
     objects_index_ e !! p = Some oid →
     objects_ e !! oid = Some h →
     native_classes_ e !! class_id h = Some ci →
     type ci ≠ GodotPrimitive →
     ref_ h ≠ GEmpty →
     (∃ e', reference_object p true e = Ok (false, e')) ∧
     (0 < ref_count_ h → ∃ e', reference_object p false e = Ok (false, e') ∧
        is_Some (objects_index_ e' !! p))) ∧
  (in_store_ e = true →
     ∀ inc, reference_callback p inc e = reference_object p inc e).
Proof.
  intros Ht. repeat split.
  - intros ->.
    destruct (reference_object_inv _ _ _ _ _ H0)
      as (_ & [(Hn & _)|(oid & h & ci & _ & _ & _ & _ & _ & _ & Hf & _)]);
      [done|discriminate].
  - intros Hn.
    destruct (reference_object_inv _ _ _ _ _ H0)
      as (_ & [(_ & -> & _)|(oid & h & ci & Hs & _)]); [done|congruence].
  - intros Hn inc. eexists. by apply reference_object_unbound.
  - eexists. by eapply reference_object_bound.
  - intros Hpos. eexists. split; [by eapply reference_object_bound|].
    unfold referenced. simpl. by rewrite H0.
  - intros Hin inc. unfold reference_callback, bind, get. by rewrite Hin.
Qed.

Lemma reference_increment_strong_once_witness :
  ∃ e1 en,
    @reference_object example_host 100 true (example_env_bound example_weak_handle)
      = Ok (false, e1) ∧
    objects_ e1 !! 1 = Some (mkObjectHandle 1 100 (GStrong (VObject (example_object 7))) 1) ∧
    trace_ e1 = [EvClearWeak 1] ∧
    @reference_n example_host 3 100 e1 = Ok (tt, en) ∧
    objects_ en !! 1 = Some (mkObjectHandle 1 100 (GStrong (VObject (example_object 7))) 4) ∧
    trace_ en = [EvClearWeak 1].
Proof.
  apply (@reference_increment_strong_once example_host
           (example_env_bound example_weak_handle) 100 1 example_weak_handle
           example_class (VObject (example_object 7)) 100 3);
    [reflexivity|reflexivity|reflexivity|reflexivity|discriminate|reflexivity|reflexivity].
Defined.

Lemma reference_decrement_to_zero_weak_witness :
  (∃ e',
    @reference_object example_host 100 false (example_env_bound example_strong_handle)
      = Ok (false, e') ∧
    objects_ e' !! 1 = Some (mkObjectHandle 1 100 (GWeak (VObject (example_object 7)) 100) 0) ∧
    objects_index_ e' = objects_index_ (example_env_bound example_strong_handle) ∧
    trace_ e' = [EvSetWeak 1 100]) ∧
  (∀ q inc r e2,
    @reference_object example_host q inc (example_env_bound example_strong_handle) = Ok (r, e2) →
    ∃ tl, trace_ e2 = trace_ (example_env_bound example_strong_handle) ++ tl ∧
          forallb (λ ev, negb (is_finalizer_event ev)) tl = true).
Proof.
  apply (@reference_decrement_to_zero_weak example_host
           (example_env_bound example_strong_handle) 100 1 example_strong_handle
           example_class (VObject (example_object 7)));
    [reflexivity|reflexivity|reflexivity|reflexivity|discriminate|reflexivity|reflexivity].
Defined.

Lemma reference_object_result_witness :
  (∀ inc r e',
     @reference_object example_host 100 inc (example_env_bound example_strong_handle) = Ok (r, e') →
     (r = true ↔ objects_index_ (example_env_bound example_strong_handle) !! 100 = None)) ∧
  (objects_index_ (example_env_bound example_strong_handle) !! 100 = None →
     ∀ inc, ∃ e',
       @reference_object example_host 100 inc (example_env_bound example_strong_handle) = Ok (true, e')) ∧
  (∀ oid h ci,
     objects_index_ (example_env_bound example_strong_handle) !! 100 = Some oid →
     objects_ (example_env_bound example_strong_handle) !! oid = Some h →
     native_classes_ (example_env_bound example_strong_handle) !! class_id h = Some ci →
     type ci ≠ GodotPrimitive →
     ref_ h ≠ GEmpty →
     (∃ e', @reference_object example_host 100 true (example_env_bound example_strong_handle)
              = Ok (false, e')) ∧
     (0 < ref_count_ h →
        ∃ e', @reference_object example_host 100 false (example_env_bound example_strong_handle)
                = Ok (false, e') ∧
              is_Some (objects_index_ e' !! 100))) ∧
  (in_store_ (example_env_bound example_strong_handle) = true →
     ∀ inc, @reference_callback example_host 100 inc (example_env_bound example_strong_handle)
            = @reference_object example_host 100 inc (example_env_bound example_strong_handle)).
Proof.
  apply (@reference_object_result example_host
           (example_env_bound example_strong_handle) 100).
  reflexivity.
Defined.

(* ===================================================================== *)
(** ** Reentrant and repeated [free_object] *)
(* ===================================================================== *)

Section Reentrancy.
Context `{Host}.

Lemma index_shrinks_refl e : index_shrinks e e.
Proof. by split. Qed.

Lemma index_shrinks_trans e1 e2 e3 :
  index_shrinks e1 e2 → index_shrinks e2 e3 → index_shrinks e1 e3.
Proof. intros [Ht1 Hi1] [Ht2 Hi2]. split; [congruence|auto]. Qed.

Lemma reference_object_shrinks e p inc r e' :
  reference_object p inc e = Ok (r, e') → index_shrinks e e'.
Proof.
  intros Hr.
  destruct (reference_object_inv _ _ _ _ _ Hr)
    as (_ & [(_ & _ & ->)|(oid & h & ci & _ & _ & _ & _ & _ & _ & _ & ->)]);
    by split.
Qed.

Lemma free_object_detach_shrinks e p e' :
  free_object_detach p e = Ok (tt, e') → index_shrinks e e'.
Proof.
  intros Hr. unfold free_object_detach in Hr.
  destruct (free_object_with_inv _ _ _ _ _ Hr)
    as (_ & [(_ & ->)|(oid & h & ci & _ & _ & _ & _ & _ & ->)]);
    [apply index_shrinks_refl|].
  split; [done|]. simpl. intros q Hq.
  destruct (decide (q = p)) as [->|Hne];
    [apply lookup_delete_eq|by rewrite lookup_delete_ne].
Qed.

Lemma host_callback_shrinks cb e e' :
  host_callback cb e = Ok (tt, e') → index_shrinks e e'.
Proof.
  intros Hr. destruct cb as [pi pb|pb b]; simpl in Hr.
  - unfold free_callback in Hr. munfold. simpl in Hr.
    destruct (in_store_ e); [|injection Hr as <-; apply index_shrinks_refl].
    destruct (pi =? pb); [|discriminate]. simpl in Hr.
    by eapply free_object_detach_shrinks.
  - unfold reference_callback in Hr. munfold. simpl in Hr.
    destruct (in_store_ e); [|injection Hr as <-; apply index_shrinks_refl].
    destruct (reference_object pb b e) as [[r e1]|] eqn:Href; [|discriminate].
    injection Hr as <-. by eapply reference_object_shrinks.
Qed.

Lemma for_each_host_callback_shrinks cbs e e' :
  for_each host_callback cbs e = Ok (tt, e') → index_shrinks e e'.
Proof.
  revert e. induction cbs as [|cb cbs IH]; intros e Hr; simpl in Hr.
  - injection Hr as <-. apply index_shrinks_refl.
  - unfold bind in Hr.
    destruct (host_callback cb e) as [[[] e1]|] eqn:Hcb; [|discriminate].
    eapply index_shrinks_trans; [by eapply host_callback_shrinks|by apply IH].
Qed.

(** A reentrant [free_callback] on an address that is not in the index
    returns without touching the environment. *)
Lemma free_callback_unbound e p :
  (get_caller_id =? thread_id_ e) = true →
  objects_index_ e !! p = None →
  free_callback p p e = Ok (tt, e).
Proof.
  intros Ht Hp. unfold free_callback, bind, get.
  destruct (in_store_ e); [|done].
  unfold jsb_check, jsb_checkf. rewrite N.eqb_refl. unfold ret.
  unfold free_object_detach. by apply free_object_with_unbound.
Qed.

(** Dropping the reentrant frees of [p] from what a finalizer does
    changes nothing once [p] has left the index. *)
Lemma for_each_skip_reentrant_free p cbs : ∀ e,
  (get_caller_id =? thread_id_ e) = true →
  objects_index_ e !! p = None →
  for_each host_callback cbs e =
  for_each host_callback (List.filter (λ cb, negb (is_free_of p cb)) cbs) e.
Proof.
  induction cbs as [|cb cbs IH]; intros e Ht Hp; simpl; [done|].
  destruct (is_free_of p cb) eqn:Hfree; simpl.
  - destruct cb as [pi pb|]; [|discriminate]. simpl in Hfree.
    apply andb_prop in Hfree as [->%N.eqb_eq ->%N.eqb_eq].
    unfold bind. simpl. rewrite free_callback_unbound by done. by apply IH.
  - unfold bind. destruct (host_callback cb e) as [[[] e1]|] eqn:Hcb; [|done].
    destruct (host_callback_shrinks _ _ _ Hcb) as [Ht1 Hi1].
    apply IH; [by rewrite Ht1|by apply Hi1].
Qed.

End Reentrancy.

(** C2. When [free_object(p, finalize)] returns, [p] is out of the
    pointer-to-id map and a second call on the resulting environment
    returns it unchanged.  If [p] was bound, the binding is removed from
    both tables in the environment [detached] before the class finalizer
    is invoked: the finalizer runs in that environment, a [free_object]
    on [p] there is a no-op, and the reentrant [free_callback]s on [p]
    that the finalizer provokes can be dropped without changing the
    outcome. *)
Theorem free_object_reentrant_safe `{Host} e p fin e' :
  free_object p fin e = Ok (tt, e') →
  objects_index_ e' !! p = None ∧
  (∀ fin', free_object p fin' e' = Ok (tt, e')) ∧
  (∀ oid, objects_index_ e !! p = Some oid →
     ∃ h ci,
       objects_ e !! oid = Some h ∧
       native_classes_ e !! class_id h = Some ci ∧
       objects_index_ (detached e p oid h ci fin) !! p = None ∧
       objects_ (detached e p oid h ci fin) !! oid = None ∧
       (∀ fin', free_object p fin' (detached e p oid h ci fin)
                = Ok (tt, detached e p oid h ci fin)) ∧
       if fin then
         let pers := bool_decide (p ∈ persistent_objects_ e) in
         let s := set_trace_ (trace_ (detached e p oid h ci true)
                                ++ [EvFinalizer (class_id h) p pers])
                    (detached e p oid h ci true) in
         for_each host_callback (finalizer ci p pers) s = Ok (tt, e') ∧
         for_each host_callback
           (List.filter (λ cb, negb (is_free_of p cb)) (finalizer ci p pers)) s
           = Ok (tt, e')
       else e' = detached e p oid h ci false).
Proof.
  intros Hr. unfold free_object in Hr.
  destruct (free_object_with_inv _ _ _ _ _ Hr) as (Ht & Hcases).
  assert (objects_index_ e' !! p = None ∧ thread_id_ e' = thread_id_ e) as [Hgone Hte'].
  { destruct Hcases as [(Hn & ->)|(oid & h & ci & Hp & Ho & _ & _ & _ & Hfin)]; [done|].
    destruct fin.
    - rewrite invoke_finalizer_unfold in Hfin.
      destruct (for_each_host_callback_shrinks _ _ _ Hfin) as [Hth Hidx].
      split; [|by rewrite Hth]. apply Hidx. simpl. apply lookup_delete_eq.
    - subst e'. split; [|done]. simpl. apply lookup_delete_eq. }
  split; [done|]. split.
  { intros fin'. apply free_object_with_unbound; [by rewrite Hte'|done]. }
  intros oid Hp.
  destruct Hcases as [(Hn & _)|(oid' & h & ci & Hp' & Ho & _ & Hc & _ & Hfin)]; [congruence|].
  assert (oid' = oid) as -> by congruence.
  exists h, ci. split; [done|]. split; [done|].
  split; [simpl; apply lookup_delete_eq|]. split; [simpl; apply lookup_delete_eq|].
  split.
  { intros fin'. apply free_object_with_unbound; [done|]. simpl. apply lookup_delete_eq. }
  destruct fin; [|done].
  rewrite invoke_finalizer_unfold in Hfin. split; [done|].
  rewrite <- for_each_skip_reentrant_free; [done|done|].
  simpl. apply lookup_delete_eq.
Qed.

Lemma free_object_reentrant_safe_witness :
  ∃ e',
    @free_object example_host 100 true (example_env_bound example_weak_handle) = Ok (tt, e') ∧
    objects_index_ e' !! 100 = None ∧
    (∀ fin', @free_object example_host 100 fin' e' = Ok (tt, e')).
Proof.
  eexists. split; [vm_compute; reflexivity|].
  pose proof (@free_object_reentrant_safe example_host
                (example_env_bound example_weak_handle) 100 true _
                ltac:(vm_compute; reflexivity)) as (Hgone & Hagain & _).
  split; [exact Hgone|exact Hagain].
Defined.

(* ===================================================================== *)
(** ** The call bridge: argument conversion, exceptions, return value *)
(* ===================================================================== *)

Section CallBridgeFacts.
Context `{Engine}.

Lemma replicate_snoc {A} (n : nat) (x : A) : replicate n x ++ [x] = replicate (S n) x.
Proof. induction n as [|n IH]; simpl; [done|]. by rewrite IH. Qed.

Lemma destroy_down_spec k : ∀ pre s post,
  length pre = k →
  destroy_down k (pre ++ s :: post) = replicate (S k) SlotRaw ++ post.
Proof.
  induction k as [|k IH]; intros pre s post Hlen.
  - destruct pre; [done|discriminate].
  - simpl destroy_down.
    rewrite insert_app_r_alt by lia. rewrite Hlen, Nat.sub_diag. simpl.
    destruct (decide (pre = [])) as [->|Hne]; [discriminate|].
    destruct (exists_last Hne) as (pre' & x & ->).
    rewrite length_app in Hlen. simpl in Hlen.
    rewrite <- List.app_assoc. simpl. rewrite IH by lia.
    change (SlotRaw :: post) with ([SlotRaw] ++ post).
    rewrite List.app_assoc. by rewrite replicate_snoc.
Qed.

Lemma destroy_up_spec n : ∀ from pre mid post,
  length pre = from → length mid = n →
  destroy_up from n (pre ++ mid ++ post) = pre ++ replicate n SlotRaw ++ post.
Proof.
  induction n as [|n IH]; intros from pre mid post Hpre Hmid.
  - by destruct mid.
  - destruct mid as [|s mid]; [discriminate|]. simpl.
    rewrite insert_app_r_alt by lia. rewrite Hpre, Nat.sub_diag. simpl.
    replace (pre ++ SlotRaw :: mid ++ post) with ((pre ++ [SlotRaw]) ++ mid ++ post)
      by (by rewrite <- List.app_assoc).
    rewrite IH.
    + by rewrite <- List.app_assoc.
    + rewrite length_app. simpl. lia.
    + simpl in Hmid. lia.
Qed.

(** Every argument converts: the array holds the converted values. *)
Lemma convert_args_ok iso p_args vals :
  Forall2 (λ a v, gd_var_to_js iso a = Some v) p_args vals →
  ∀ index pre post,
    length pre = index → length post = length p_args →
    convert_args iso p_args index (pre ++ post)
    = (true, pre ++ (SlotLocal ∘ Some <$> vals)).
Proof.
  induction 1 as [|a v rest vs Hav Hrest IH]; intros index pre post Hpre Hpost.
  - destruct post; [|discriminate]. done.
  - destruct post as [|s post]; [discriminate|]. simpl. rewrite Hav.
    rewrite !insert_app_r_alt by lia. rewrite Hpre, Nat.sub_diag. simpl.
    replace (pre ++ SlotLocal (Some v) :: post)
      with ((pre ++ [SlotLocal (Some v)]) ++ post) by (by rewrite <- List.app_assoc).
    rewrite IH.
    + by rewrite <- List.app_assoc.
    + rewrite length_app. simpl. lia.
    + simpl in Hpost. lia.
Qed.

(** Some argument does not convert: the array is left all raw. *)
Lemma convert_args_fail iso p_args :
  Exists (λ a, gd_var_to_js iso a = None) p_args →
  ∀ index pre,
    length pre = index →
    convert_args iso p_args index (pre ++ replicate (length p_args) SlotRaw)
    = (false, replicate (index + length p_args) SlotRaw).
Proof.
  induction p_args as [|a rest IH]; intros Hex index pre Hpre.
  - by apply Exists_nil in Hex.
  - simpl.
    destruct (gd_var_to_js iso a) as [v|] eqn:Hav;
      rewrite !insert_app_r_alt by lia; rewrite Hpre, Nat.sub_diag; simpl.
    + apply Exists_cons in Hex as [Hex|Hex]; [congruence|].
      replace (pre ++ SlotLocal (Some v) :: replicate (length rest) SlotRaw)
        with ((pre ++ [SlotLocal (Some v)]) ++ replicate (length rest) SlotRaw)
        by (by rewrite <- List.app_assoc).
      rewrite (IH Hex (S index)).
      * f_equal. f_equal. lia.
      * rewrite length_app. simpl. lia.
    + rewrite destroy_down_spec by done. f_equal.
      rewrite <- replicate_add. f_equal. lia.
Qed.

Lemma fmap_slot_value (vals : list JSValue) : slot_value <$> (SlotLocal ∘ Some <$> vals) = vals.
Proof. induction vals as [|v vs IH]; [done|]. rewrite !fmap_cons. by rewrite IH. Qed.

(** [_call] when every argument converts, up to the point where the
    outcome of the invocation is examined. *)
Lemma _call_converted p_func p_self p_args vals r_error e :
  Forall2 (λ a v, gd_var_to_js (isolate_ e) a = Some v) p_args vals →
  _call p_func p_self p_args r_error e =
    let e1 := set_trace_ (trace_ e ++ [EvCall p_func p_self vals]) e in
    let (rval, iso') := Function_Call p_func p_self vals (isolate_ e) in
    let e2 := set_isolate_ iso' e1 in
    let argv' := replicate (length p_args) SlotRaw in
    (if TryCatch_has_caught iso' then
       let* msg := BridgeHelper_get_exception in
       let* _ := JSB_LOG Error "exception thrown in function:\n%s" [LStr msg] in
       ret (VarNil, set_error CALL_ERROR_INVALID_METHOD r_error, argv')
     else
       match rval with
       | None => ret (VarNil, r_error, argv')
       | Some rval_checked =>
           match js_to_gd_var iso' rval_checked with
           | Some rvar => ret (rvar, r_error, argv')
           | None =>
               if IsPromise rval_checked then ret (VarNil, r_error, argv')
               else
                 let* _ := JSB_LOG Error "failed to translate returned value" [] in
                 ret (VarNil, set_error CALL_ERROR_INVALID_METHOD r_error, argv')
           end
       end) e2.
Proof.
  intros Hall. unfold _call. unfold bind at 1. unfold get.
  pose proof (convert_args_ok _ _ _ Hall 0%nat [] (replicate (length p_args) SlotRaw)
                eq_refl (length_replicate _ _)) as Hconv.
  simpl in Hconv. rewrite Hconv. rewrite fmap_slot_value.
  unfold bind at 1. unfold emit, modify. simpl.
  destruct (Function_Call p_func p_self vals (isolate_ e)) as [rval iso'].
  unfold bind at 1. simpl.
  assert (destroy_up 0 (length p_args) (SlotLocal ∘ Some <$> vals)
          = replicate (length p_args) SlotRaw) as ->.
  { pose proof (destroy_up_spec (length p_args) 0%nat [] (SlotLocal ∘ Some <$> vals) []
                  eq_refl) as Hd.
    rewrite !app_nil_r in Hd. simpl in Hd. apply Hd.
    rewrite length_fmap. symmetry. by eapply Forall2_length. }
  done.
Qed.

End CallBridgeFacts.

(** C5, as the claim states it, fails: with an argument that does not
    convert (a host object, for the example engine) the bridge does not
    report [CALL_ERROR_INVALID_ARGUMENT]. *)
Lemma call_argument_failure_not_invalid_argument :
  Exists (λ a, @gd_var_to_js example_engine (isolate_ example_env) a = None)
    [VarInt 1; VarObject 5] ∧
  ¬ ∃ v r argv e',
      @_call example_engine (example_function 1) VUndefined [VarInt 1; VarObject 5]
        example_call_error example_env = Ok ((v, r, argv), e') ∧
      error r = CALL_ERROR_INVALID_ARGUMENT.
Proof.
  split.
  - apply Exists_cons_tl, Exists_cons_hd. reflexivity.
  - intros (v & r & argv & e' & Hcall & Herr).
    vm_compute in Hcall. injection Hcall as <- <- <- <-. discriminate Herr.
Qed.

(** C5, amended.  If some argument does not convert, [_call] returns the
    empty [Variant] and sets the error [CALL_ERROR_INVALID_METHOD]; every
    element of [argv] constructed so far has been destroyed; and the
    environment, engine and trace included, is the one the call started
    in, so the function has not been invoked. *)
Theorem call_argument_failure `{Engine} p_func p_self p_args r_error e :
  Exists (λ a, gd_var_to_js (isolate_ e) a = None) p_args →
  _call p_func p_self p_args r_error e =
    Ok ((VarNil, set_error CALL_ERROR_INVALID_METHOD r_error,
         replicate (length p_args) SlotRaw), e).
Proof.
  intros Hex. unfold _call, bind, get.
  pose proof (convert_args_fail _ _ Hex 0%nat [] eq_refl) as Hconv.
  simpl in Hconv. by rewrite Hconv.
Qed.

Lemma call_argument_failure_witness :
  @_call example_engine (example_function 1) VUndefined [VarInt 1; VarObject 5]
    example_call_error example_env =
  Ok ((VarNil, mkCallError CALL_ERROR_INVALID_METHOD 0 0, [SlotRaw; SlotRaw]), example_env).
Proof.
  apply (@call_argument_failure example_engine (example_function 1) VUndefined
           [VarInt 1; VarObject 5] example_call_error example_env).
  apply Exists_cons_tl, Exists_cons_hd. reflexivity.
Defined.

(** C6. If the arguments convert and the invoked function throws, the
    exception left pending by the engine is captured: [_call] logs the
    engine's message and the line ["exception thrown in function"] with
    the formatted exception, returns the empty [Variant] with the error
    [CALL_ERROR_INVALID_METHOD], and leaves no exception pending in the
    isolate. *)
Theorem call_exception_captured `{Engine} p_func p_self p_args vals r_error e rval iso' ex :
  Forall2 (λ a v, gd_var_to_js (isolate_ e) a = Some v) p_args vals →
  Function_Call p_func p_self vals (isolate_ e) = (rval, iso') →
  exception_ iso' = Some ex →
  ∃ e',
    _call p_func p_self p_args r_error e =
      Ok ((VarNil, set_error CALL_ERROR_INVALID_METHOD r_error,
           replicate (length p_args) SlotRaw), e') ∧
    exception_ (isolate_ e') = None ∧
    trace_ e' = trace_ e ++
      [EvCall p_func p_self vals;
       EvLog Error "[%s:%s] %s\nJavascript stack:\n%s"
         [LStr (match ex_fileName ex with None => "native" | Some s => s end);
          LStr (match ex_lineNumber ex with None => "" | Some s => s end);
          LStr (ex_message ex); LStr (ex_stack ex)];
       EvLog Error "exception thrown in function:\n%s"
         [LStr (ex_message ex +:+ "\n" +:+ ex_stack ex)]].
Proof.
  intros Hall Hcall Hex.
  rewrite (_call_converted _ _ _ vals) by done. rewrite Hcall. simpl.
  unfold TryCatch_has_caught. rewrite Hex.
  unfold BridgeHelper_get_exception, TryCatch_get_message. munfold. simpl.
  rewrite Hex. simpl. eexists. split; [reflexivity|]. simpl. split; [done|].
  by rewrite <- !List.app_assoc.
Qed.

Lemma call_exception_captured_witness :
  ∃ e',
    @_call example_engine (example_function 2) VUndefined [VarInt 1] example_call_error
      example_env =
      Ok ((VarNil, mkCallError CALL_ERROR_INVALID_METHOD 0 0, [SlotRaw]), e') ∧
    exception_ (isolate_ e') = None ∧
    trace_ e' =
      [EvCall (example_function 2) VUndefined [VNumber 1];
       EvLog Error "[%s:%s] %s\nJavascript stack:\n%s"
         [LStr "main.js"; LStr "3"; LStr "boom"; LStr "at f (main.js:3)"];
       EvLog Error "exception thrown in function:\n%s"
         [LStr "boom\nat f (main.js:3)"]].
Proof.
  apply (@call_exception_captured example_engine (example_function 2) VUndefined
           [VarInt 1] [VNumber 1] example_call_error example_env None
           (iso_set_exception (Some example_exception) (isolate_ example_env))
           example_exception).
  - repeat constructor.
  - reflexivity.
  - reflexivity.
Defined.

(** C7. If the arguments convert, the invocation returns a value without
    throwing and the value does not convert to a [Variant], [_call]
    returns the empty [Variant]; it leaves [r_error] as it was and logs
    nothing when the value is a promise, and sets
    [CALL_ERROR_INVALID_METHOD] and logs the failure otherwise.  Starting
    from [CALL_OK], no error is reported if and only if the value is a
    promise. *)
Theorem call_unconvertible_return `{Engine} p_func p_self p_args vals r_error e rv iso' :
  Forall2 (λ a v, gd_var_to_js (isolate_ e) a = Some v) p_args vals →
  Function_Call p_func p_self vals (isolate_ e) = (Some rv, iso') →
  exception_ iso' = None →
  js_to_gd_var iso' rv = None →
  error r_error = CALL_OK →
  ∃ r' e',
    _call p_func p_self p_args r_error e =
      Ok ((VarNil, r', replicate (length p_args) SlotRaw), e') ∧
    (IsPromise rv = true →
       r' = r_error ∧ trace_ e' = trace_ e ++ [EvCall p_func p_self vals]) ∧
    (IsPromise rv = false →
       r' = set_error CALL_ERROR_INVALID_METHOD r_error ∧
       trace_ e' = trace_ e ++
         [EvCall p_func p_self vals;
          EvLog Error "failed to translate returned value" []]) ∧
    (error r' = CALL_OK ↔ IsPromise rv = true).
Proof.
  intros Hall Hcall Hex Hconv Hok.
  rewrite (_call_converted _ _ _ vals) by done. rewrite Hcall. simpl.
  unfold TryCatch_has_caught. rewrite Hex, Hconv.
  destruct (IsPromise rv) eqn:Hp.
  - eexists _, _. split; [reflexivity|]. simpl.
    split; [done|]. split; [done|]. done.
  - munfold. simpl. eexists _, _. split; [reflexivity|]. simpl.
    split; [done|]. split.
    + intros _. split; [done|]. by rewrite <- List.app_assoc.
    + split; discriminate.
Qed.

Lemma call_unconvertible_return_witness :
  ∃ r' e',
    @_call example_engine (example_function 3) VUndefined [VarInt 1] example_call_error
      example_env = Ok ((VarNil, r', [SlotRaw]), e') ∧
    (IsPromise (VObject (mkJSObject KPromise 9)) = true →
       r' = example_call_error ∧
       trace_ e' = [EvCall (example_function 3) VUndefined [VNumber 1]]) ∧
    (IsPromise (VObject (mkJSObject KPromise 9)) = false →
       r' = set_error CALL_ERROR_INVALID_METHOD example_call_error ∧
       trace_ e' =
         [EvCall (example_function 3) VUndefined [VNumber 1];
          EvLog Error "failed to translate returned value" []]) ∧
    (error r' = CALL_OK ↔ IsPromise (VObject (mkJSObject KPromise 9)) = true).
Proof.
  apply (@call_unconvertible_return example_engine (example_function 3) VUndefined
           [VarInt 1] [VNumber 1] example_call_error example_env
           (VObject (mkJSObject KPromise 9)) (isolate_ example_env)).
  - repeat constructor.
  - reflexivity.
  - reflexivity.
  - reflexivity.
  - reflexivity.
Defined.

Example call_unconvertible_symbol_reports_error :
  ∃ e', @_call example_engine (example_function 4) VUndefined [] example_call_error
          example_env =
        Ok ((VarNil, mkCallError CALL_ERROR_INVALID_METHOD 0 0, []), e').
Proof. eexists. vm_compute. reflexivity. Qed.

(* ===================================================================== *)
(** ** Loading a module that is in the cache *)
(* ===================================================================== *)

Section ModuleFacts.
Context `{ModuleSystem}.

Lemma find_module_resolver_in_spec resolvers p_module_id : ∀ e,
  find_module_resolver_in resolvers p_module_id e =
  Ok (resolve_in resolvers p_module_id,
      set_trace_ (trace_ e ++ resolve_events resolvers p_module_id) e).
Proof.
  induction resolvers as [|r rest IH]; intros e; simpl.
  - unfold ret. rewrite app_nil_r. by destruct e.
  - unfold bind, emit, modify.
    destruct (resolver_get_source_info r p_module_id) as [si|].
    + done.
    + rewrite IH. simpl. by rewrite <- List.app_assoc.
Qed.

Lemma resolve_events_no_load resolvers p_module_id :
  forallb (λ ev, negb (is_load_event ev)) (resolve_events resolvers p_module_id) = true.
Proof.
  induction resolvers as [|r rest IH]; simpl; [done|].
  by destruct (resolver_get_source_info r p_module_id).
Qed.

Lemma load_module_direct_hit e p_parent_id p_module_id m :
  module_cache_ e !! p_module_id = Some m → is_loaded m = true →
  _load_module p_parent_id p_module_id e = Ok (Some p_module_id, e).
Proof.
  intros Hm Hl. unfold _load_module, bind, get. by rewrite Hm, Hl.
Qed.

Lemma load_module_resolved_hit e p_parent_id p_module_id normalized_id resolver si m :
  (match module_cache_ e !! p_module_id with
   | Some m0 => is_loaded m0 | None => false end) = false →
  p_module_id ∉ module_loaders_ e →
  normalized_module_id p_parent_id p_module_id = Some normalized_id →
  resolve_in (module_resolvers_ e) normalized_id = Some (resolver, si) →
  module_cache_ e !! source_filepath si = Some m →
  is_loaded m = true →
  _load_module p_parent_id p_module_id e =
    Ok (Some (source_filepath si),
        set_trace_ (trace_ e ++ resolve_events (module_resolvers_ e) normalized_id) e).
Proof.
  intros Hmiss Hnl Hnorm Hres Hm Hl.
  unfold _load_module. unfold bind at 1. unfold get at 1. rewrite Hmiss.
  rewrite bool_decide_eq_false_2 by done. rewrite Hnorm.
  unfold bind at 1. unfold find_module_resolver, bind at 1, get at 1.
  rewrite find_module_resolver_in_spec, Hres.
  unfold bind, get. simpl. by rewrite Hm, Hl.
Qed.

End ModuleFacts.

(** C8, as the claim states it, fails: the module of the id ["a"] is in
    the cache, loaded, under its resolved id ["res://a.js"], and still
    [_load_module] cannot return without a loading event in the trace,
    because it asks the resolver chain again. *)
Lemma load_cached_module_consults_resolver :
  @resolve_in example_modules (module_resolvers_ example_env_modules) "a"
    = Some (0, mkModuleSourceInfo "res://a.js" "") ∧
  module_cache_ example_env_modules !! "res://a.js" = Some example_module ∧
  is_loaded example_module = true ∧
  ¬ ∃ r e',
      @_load_module example_modules "" "a" example_env_modules = Ok (r, e') ∧
      forallb (λ ev, negb (is_loading_event ev)) (trace_since example_env_modules e') = true.
Proof.
  split; [reflexivity|]. split; [reflexivity|]. split; [reflexivity|].
  intros (r & e' & Hload & Hnone).
  vm_compute in Hload. injection Hload as <- <-. vm_compute in Hnone. discriminate.
Qed.

(** C8, amended.  When the requested id is itself the id of a loaded
    module of the cache, [_load_module] returns that module and leaves
    the environment as it is: no loader, no resolver.  When it is not,
    no loader is registered under it and the resolver chain resolves it
    to the id of a loaded module of the cache, [_load_module] returns
    that module after asking the chain, which is all the trace gains: no
    [load] of a loader or a resolver is invoked and the cache is
    unchanged.  In both cases a second call returns the same module. *)
Theorem load_module_cached `{ModuleSystem} e p_parent_id p_module_id :
  (∀ m, module_cache_ e !! p_module_id = Some m → is_loaded m = true →
     _load_module p_parent_id p_module_id e = Ok (Some p_module_id, e)) ∧
  (∀ normalized_id resolver si m,
     (match module_cache_ e !! p_module_id with
      | Some m0 => is_loaded m0 | None => false end) = false →
     p_module_id ∉ module_loaders_ e →
     normalized_module_id p_parent_id p_module_id = Some normalized_id →
     resolve_in (module_resolvers_ e) normalized_id = Some (resolver, si) →
     module_cache_ e !! source_filepath si = Some m →
     is_loaded m = true →
     ∃ e' e'',
       _load_module p_parent_id p_module_id e = Ok (Some (source_filepath si), e') ∧
       _load_module p_parent_id p_module_id e' = Ok (Some (source_filepath si), e'') ∧
       module_cache_ e' = module_cache_ e ∧ module_cache_ e'' = module_cache_ e ∧
       isolate_ e'' = isolate_ e ∧
       trace_ e' = trace_ e ++ resolve_events (module_resolvers_ e) normalized_id ∧
       trace_ e'' = trace_ e' ++ resolve_events (module_resolvers_ e) normalized_id ∧
       forallb (λ ev, negb (is_load_event ev))
         (resolve_events (module_resolvers_ e) normalized_id) = true).
Proof.
  split.
  - intros m. apply load_module_direct_hit.
  - intros normalized_id resolver si m Hmiss Hnl Hnorm Hres Hm Hl.
    eexists _, _. split; [by eapply load_module_resolved_hit|].
    split; [by eapply load_module_resolved_hit|].
    simpl. repeat split. apply resolve_events_no_load.
Qed.

Lemma load_module_cached_witness :
  @_load_module example_modules "" "res://a.js" example_env_modules
    = Ok (Some "res://a.js", example_env_modules) ∧
  ∃ e' e'',
    @_load_module example_modules "" "a" example_env_modules = Ok (Some "res://a.js", e') ∧
    @_load_module example_modules "" "a" e' = Ok (Some "res://a.js", e'') ∧
    module_cache_ e'' = module_cache_ example_env_modules ∧
    trace_ e'' = [EvResolve 0 "a"; EvResolve 0 "a"].
Proof.
  pose proof (@load_module_cached example_modules example_env_modules "" "res://a.js")
    as [Hdirect _].
  pose proof (@load_module_cached example_modules example_env_modules "" "a")
    as [_ Hresolved].
  split.
  - apply (Hdirect example_module); reflexivity.
  - destruct (Hresolved "a" 0 (mkModuleSourceInfo "res://a.js" "") example_module)
      as (e' & e'' & H1 & H2 & _ & Hc & _ & Ht1 & Ht2 & _);
      [reflexivity|vm_compute; set_solver|reflexivity|reflexivity|reflexivity|reflexivity|].
    exists e', e''. split; [exact H1|]. split; [exact H2|]. split; [exact Hc|].
    rewrite Ht2, Ht1. reflexivity.
Defined.

(* ===================================================================== *)
(** ** Cross-binding and rebinding *)
(* ===================================================================== *)

Section CrossBindFacts.
Context `{Host} `{Engine}.

Lemma bind_pointer_ok e cid p o pol ci :
  (get_caller_id =? thread_id_ e) = true →
  native_classes_ e !! cid = Some ci →
  type ci ≠ GodotPrimitive →
  objects_index_ e !! p = None →
  ∃ e', bind_pointer cid p o pol e = Ok (SArray_new_index (objects_ e), e').
Proof.
  intros Ht Hc Hty Hp.
  unfold bind_pointer. munfold. simpl. rewrite Ht. simpl.
  unfold SArray_is_valid_index. rewrite Hc. simpl. rewrite Hp.
  rewrite bool_decide_eq_false_2 by (by intros [? ?]). simpl.
  repeat (rewrite lookup_insert_eq; simpl). rewrite Hc.
  assert (negb (NativeClassType_eqb (type ci) GodotPrimitive) = true) as ->
    by (destruct (type ci); done).
  simpl. repeat (rewrite lookup_insert_eq; simpl).
  destruct pol; simpl; repeat (rewrite lookup_insert_eq; simpl); by eexists.
Qed.





Lemma filter_none {A} (f : A → bool) (l : list A) :
  forallb (λ x, negb (f x)) l = true → List.filter f l = [].
Proof.
  induction l as [|x l IH]; simpl; [done|].
  intros [Hx Hl]%andb_prop. destruct (f x); [done|]. by apply IH.
Qed.






End CrossBindFacts.




(* ===================================================================== *)
(** ** More on the registry: binding, persistence, finalization *)
(* ===================================================================== *)

Section RegistryMore.
Context `{Host}.

Lemma bind_pointer_internal_field e cid p o pol oid e' :
  bind_pointer cid p o pol e = Ok (oid, e') →
  internal_fields_ (isolate_ e') !! obj_ref o = Some p.
Proof.
  unfold bind_pointer. intros Hr. mrun_in Hr.
  all: destruct pol; repeat mstep_in Hr.
  all: injection Hr as <- <-; simpl; apply lookup_insert_eq.
Qed.

Lemma mark_as_persistent_object_unbound e p :
  objects_index_ e !! p = None →
  mark_as_persistent_object p e =
    Ok (tt, set_trace_
              (trace_ e ++ [EvLog Error "failed to mark as persistent due to invalid pointer" []]) e).
Proof. intros Hp. unfold mark_as_persistent_object, bind, get. by rewrite Hp. Qed.

Lemma mark_as_persistent_object_inv e p e' :
  mark_as_persistent_object p e = Ok (tt, e') →
  ((objects_index_ e !! p = None ∧
    e' = set_trace_
           (trace_ e ++ [EvLog Error "failed to mark as persistent due to invalid pointer" []]) e))
  ∨ (∃ oid e1, objects_index_ e !! p = Some oid ∧ (p ∉ persistent_objects_ e) ∧
               reference_object p true e = Ok (false, e1) ∧
               e' = set_persistent_objects_ ({[p]} ∪ persistent_objects_ e1) e1).
Proof.
  intros Hr. destruct (objects_index_ e !! p) as [oid|] eqn:Hp.
  - right. unfold mark_as_persistent_object in Hr. munfold. simpl in Hr. rewrite Hp in Hr.
    case_bool_decide as Hin; simpl in Hr; [discriminate|].
    destruct (reference_object p true e) as [[r e1]|] eqn:Href; [|discriminate].
    injection Hr as <-.
    destruct (reference_object_inv _ _ _ _ _ Href)
      as (_ & [(Hn & _)|(oid' & h & ci & _ & _ & _ & _ & _ & _ & -> & _)]); [congruence|].
    by exists oid, e1.
  - left. rewrite mark_as_persistent_object_unbound in Hr by done.
    by injection Hr as <-.
Qed.

(** *** Persistent addresses stay bound *)

Lemma persistent_bound_frame e e' :
  persistent_objects_ e' = persistent_objects_ e →
  objects_index_ e' = objects_index_ e →
  persistent_bound e → persistent_bound e'.
Proof. intros Hp Hi Hb q. rewrite Hp, Hi. apply Hb. Qed.

Lemma persistent_bound_detached e p oid h ci fin :
  persistent_bound e → persistent_bound (detached e p oid h ci fin).
Proof.
  intros Hb q. unfold detached. simpl. intros [Hq Hne]%elem_of_difference.
  rewrite lookup_delete_ne by set_solver. by apply Hb.
Qed.

Lemma reference_object_persistent e p inc r e' :
  reference_object p inc e = Ok (r, e') →
  persistent_objects_ e' = persistent_objects_ e ∧ objects_index_ e' = objects_index_ e.
Proof.
  intros Hr.
  by destruct (reference_object_inv _ _ _ _ _ Hr)
    as (_ & [(_ & _ & ->)|(oid & h & ci & _ & _ & _ & _ & _ & _ & _ & ->)]).
Qed.

Lemma host_callback_persistent cb e e' :
  host_callback cb e = Ok (tt, e') → persistent_bound e → persistent_bound e'.
Proof.
  intros Hr Hb. destruct cb as [pi pb|pb b]; simpl in Hr.
  - unfold free_callback in Hr. munfold. simpl in Hr.
    destruct (in_store_ e); [|by injection Hr as <-].
    destruct (pi =? pb); [|discriminate]. simpl in Hr.
    unfold free_object_detach in Hr.
    destruct (free_object_with_inv _ _ _ _ _ Hr)
      as (_ & [(_ & ->)|(oid & h & ci & _ & _ & _ & _ & _ & ->)]); [done|].
    by apply persistent_bound_detached.
  - unfold reference_callback in Hr. munfold. simpl in Hr.
    destruct (in_store_ e); [|by injection Hr as <-].
    destruct (reference_object pb b e) as [[r e1]|] eqn:Href; [|discriminate].
    injection Hr as <-.
    destruct (reference_object_persistent _ _ _ _ _ Href) as [Hp Hi].
    by eapply persistent_bound_frame.
Qed.

Lemma for_each_host_callback_persistent cbs : ∀ e e',
  for_each host_callback cbs e = Ok (tt, e') → persistent_bound e → persistent_bound e'.
Proof.
  induction cbs as [|cb cbs IH]; intros e e' Hr Hb; simpl in Hr.
  - by injection Hr as <-.
  - unfold bind in Hr.
    destruct (host_callback cb e) as [[[] e1]|] eqn:Hcb; [|discriminate].
    eapply IH; [exact Hr|]. by eapply host_callback_persistent.
Qed.

Lemma free_object_persistent e p fin e' :
  free_object p fin e = Ok (tt, e') → persistent_bound e → persistent_bound e'.
Proof.
  intros Hr Hb. unfold free_object in Hr.
  destruct (free_object_with_inv _ _ _ _ _ Hr)
    as (_ & [(_ & ->)|(oid & h & ci & Hp & Ho & _ & _ & _ & Hfin)]); [done|].
  destruct fin.
  - rewrite invoke_finalizer_unfold in Hfin.
    eapply for_each_host_callback_persistent; [exact Hfin|].
    eapply persistent_bound_frame; [| |by apply (persistent_bound_detached e p oid h ci true)];
      done.
  - subst e'. by apply persistent_bound_detached.
Qed.

Lemma bind_pointer_persistent e cid p o pol oid e' :
  bind_pointer cid p o pol e = Ok (oid, e') → persistent_bound e → persistent_bound e'.
Proof.
  intros Hb Hpb.
  destruct (bind_pointer_inv _ _ _ _ _ _ _ Hb)
    as (_ & Hp & _ & _ & Hidx & _ & _ & _ & Hpers & _).
  intros q. rewrite Hpers, Hidx. intros Hq.
  destruct (decide (q = p)) as [->|Hne]; [by rewrite lookup_insert_eq|].
  rewrite lookup_insert_ne by done. by apply Hpb.
Qed.

Lemma host_op_persistent op e e' :
  exec (host_op op) e = Some e' → persistent_bound e → persistent_bound e'.
Proof.
  unfold exec. intros Hr Hb.
  destruct (host_op op e) as [[[] e1]|] eqn:Hop; [|discriminate].
  injection Hr as ->. destruct op as [[c p o pol|p inc|p fin]|p|c p o]; simpl in Hop.
  - unfold bind, ret in Hop.
    destruct (bind_pointer c p o pol e) as [[oid e2]|] eqn:Hbp; [|discriminate].
    injection Hop as <-. by eapply bind_pointer_persistent.
  - unfold bind, ret in Hop.
    destruct (reference_object p inc e) as [[r e2]|] eqn:Href; [|discriminate].
    injection Hop as <-.
    destruct (reference_object_persistent _ _ _ _ _ Href) as [Hp Hi].
    by eapply persistent_bound_frame.
  - by eapply free_object_persistent.
  - destruct (mark_as_persistent_object_inv _ _ _ Hop)
      as [(_ & ->)|(oid & e1 & Hp & _ & Href & ->)]; [done|].
    destruct (reference_object_persistent _ _ _ _ _ Href) as [Hpe Hi].
    intros q. simpl. rewrite Hpe, Hi. intros [->%elem_of_singleton|Hq]%elem_of_union; [by eexists|].
    by apply Hb.
  - unfold bind_godot_object in Hop.
    destruct (is_ref_counted p && negb (init_ref p)).
    + munfold. simpl in Hop. by injection Hop as <-.
    + unfold bind, ret, emit, modify in Hop.
      destruct (bind_pointer c p o External e) as [[oid e2]|] eqn:Hbp; [|discriminate].
      injection Hop as <-. eapply persistent_bound_frame; [| |by eapply bind_pointer_persistent];
        done.
Qed.

(** *** No finalizer below a host callback *)

Lemma host_callback_no_finalizer cb e e' :
  host_callback cb e = Ok (tt, e') →
  ∃ tl, trace_ e' = trace_ e ++ tl ∧
        forallb (λ ev, negb (is_finalizer_event ev)) tl = true.
Proof.
  intros Hr. destruct cb as [pi pb|pb b]; simpl in Hr.
  - unfold free_callback in Hr. munfold. simpl in Hr.
    destruct (in_store_ e); [|injection Hr as <-; exists []; by rewrite app_nil_r].
    destruct (pi =? pb); [|discriminate]. simpl in Hr.
    unfold free_object_detach in Hr.
    destruct (free_object_with_inv _ _ _ _ _ Hr)
      as (_ & [(_ & ->)|(oid & h & ci & _ & _ & _ & _ & _ & ->)]).
    + exists []. by rewrite app_nil_r.
    + by eexists.
  - unfold reference_callback in Hr. munfold. simpl in Hr.
    destruct (in_store_ e); [|injection Hr as <-; exists []; by rewrite app_nil_r].
    destruct (reference_object pb b e) as [[r e1]|] eqn:Href; [|discriminate].
    injection Hr as <-. by eapply reference_object_no_finalizer.
Qed.

Lemma for_each_host_callback_no_finalizer cbs : ∀ e e',
  for_each host_callback cbs e = Ok (tt, e') →
  ∃ tl, trace_ e' = trace_ e ++ tl ∧
        forallb (λ ev, negb (is_finalizer_event ev)) tl = true.
Proof.
  induction cbs as [|cb cbs IH]; intros e e' Hr; simpl in Hr.
  - injection Hr as <-. exists []. by rewrite app_nil_r.
  - unfold bind in Hr.
    destruct (host_callback cb e) as [[[] e1]|] eqn:Hcb; [|discriminate].
    destruct (host_callback_no_finalizer _ _ _ Hcb) as (tl1 & Ht1 & Hn1).
    destruct (IH _ _ Hr) as (tl2 & Ht2 & Hn2).
    exists (tl1 ++ tl2). split.
    + by rewrite Ht2, Ht1, <- List.app_assoc.
    + rewrite forallb_app. by rewrite Hn1, Hn2.
Qed.

End RegistryMore.

(** X1. [bind_pointer] followed by [free_object(p, false)] is a round
    trip on the registry: the second call returns, both tables are what
    they were before the binding, and the internal field of the script
    object, which the binding had set to the address, is null again. *)
Theorem bind_then_free_restores `{Host} e cid p o pol oid e1 :
  bind_pointer cid p o pol e = Ok (oid, e1) →
  internal_fields_ (isolate_ e1) !! obj_ref o = Some p ∧
  ∃ e2, free_object p false e1 = Ok (tt, e2) ∧
        objects_ e2 = objects_ e ∧
        objects_index_ e2 = objects_index_ e ∧
        internal_fields_ (isolate_ e2) !! obj_ref o = Some 0.
Proof.
  intros Hb. split; [by eapply bind_pointer_internal_field|].
  destruct (bind_pointer_inv _ _ _ _ _ _ _ Hb)
    as (Ht & Hp & Hoid & (ci & Hc & Hty) & Hidx & Hobj & _ & Hnc & _ & Hth & _).
  pose proof (SArray_new_index_fresh (objects_ e)) as Hfresh. rewrite <- Hoid in Hfresh.
  set (h := mkObjectHandle cid p
              (match pol with Managed => GWeak (VObject o) p | External => GStrong (VObject o) end)
              (match pol with Managed => 0 | External => 1 end)).
  exists (detached e1 p oid h ci false). split.
  - unfold free_object.
    rewrite (free_object_with_bound _ e1 p false oid h ci); try done.
    + by rewrite Hth.
    + rewrite Hidx. apply lookup_insert_eq.
    + rewrite Hobj. apply lookup_insert_eq.
    + by rewrite Hnc.
    + intros _. exists o. by destruct pol.
  - unfold detached. simpl. rewrite Hobj, Hidx.
    rewrite !delete_insert_eq. rewrite !delete_id by done.
    split; [done|]. split; [done|].
    destruct pol; simpl; apply lookup_insert_eq.
Qed.

Lemma bind_then_free_restores_witness :
  ∃ e1 e2,
    @bind_pointer example_host 1 100 (example_object 7) Managed example_env = Ok (1, e1) ∧
    internal_fields_ (isolate_ e1) !! 7 = Some 100 ∧
    @free_object example_host 100 false e1 = Ok (tt, e2) ∧
    objects_ e2 = objects_ example_env ∧
    objects_index_ e2 = objects_index_ example_env ∧
    internal_fields_ (isolate_ e2) !! 7 = Some 0.
Proof.
  eexists.
  destruct (@bind_then_free_restores example_host example_env 1 100 (example_object 7)
              Managed 1 _ ltac:(vm_compute; reflexivity))
    as (Hif & e2 & Hfree & Hobj & Hidx & Hif2).
  exists e2. split; [vm_compute; reflexivity|]. by repeat split.
Defined.

(** X2. [bind_pointer] returns exactly when it is called on the owning
    thread with the id of a registered class that is not a value type and
    an address that is not bound; the id it returns is then not empty and
    was not in use, and the new handle is weak with count 0 under the
    Managed policy and strong with count 1 under the External policy. *)
Theorem bind_pointer_returns_iff `{Host} e cid p o pol :
  ((∃ r, bind_pointer cid p o pol e = Ok r) ↔
   ((get_caller_id =? thread_id_ e) = true ∧
    (∃ ci, native_classes_ e !! cid = Some ci ∧ type ci ≠ GodotPrimitive) ∧
    objects_index_ e !! p = None)) ∧
  (∀ oid e', bind_pointer cid p o pol e = Ok (oid, e') →
     oid ≠ 0 ∧ objects_ e !! oid = None ∧
     objects_index_ e' !! p = Some oid ∧
     objects_ e' !! oid =
       Some (mkObjectHandle cid p
               (match pol with Managed => GWeak (VObject o) p | External => GStrong (VObject o) end)
               (match pol with Managed => 0 | External => 1 end))).
Proof.
  split.
  - split.
    + intros [[oid e'] Hb].
      destruct (bind_pointer_inv _ _ _ _ _ _ _ Hb) as (Ht & Hp & _ & Hc & _). done.
    + intros (Ht & (ci & Hc & Hty) & Hp).
      destruct (bind_pointer_ok e cid p o pol ci Ht Hc Hty Hp) as (e' & Hb).
      eexists. exact Hb.
  - intros oid e' Hb.
    destruct (bind_pointer_inv _ _ _ _ _ _ _ Hb) as (_ & _ & -> & _ & Hidx & Hobj & _).
    split; [apply SArray_new_index_nonzero|]. split; [apply SArray_new_index_fresh|].
    rewrite Hidx, Hobj. split; apply lookup_insert_eq.
Qed.

(** X3. A decrement on a bound pointer whose count is already 0 does
    not return: the check [ref_count_ > 0] fails.  Nor does any
    decrement on a handle that is empty. *)
Theorem reference_decrement_at_zero_fails `{Host} e p oid h :
  objects_index_ e !! p = Some oid →
  objects_ e !! oid = Some h →
  ref_count_ h = 0 ∨ ref_ h = GEmpty →
  ∀ r, reference_object p false e ≠ Ok r.
Proof.
  intros Hp Ho Hbad [r e'] Hr.
  destruct (reference_object_inv _ _ _ _ _ Hr)
    as (_ & [(Hn & _)|(oid' & h' & ci & Hp' & Ho' & _ & _ & _ & Hdec & _)]); [congruence|].
  assert (oid' = oid) as -> by congruence.
  assert (h' = h) as -> by congruence.
  destruct (Hdec eq_refl) as [Hne Hpos].
  destruct Hbad as [Hz|Hem]; [lia|done].
Qed.

Lemma reference_decrement_at_zero_fails_witness :
  ref_count_ example_weak_handle = 0 ∧
  ∀ r, @reference_object example_host 100 false (example_env_bound example_weak_handle) ≠ Ok r.
Proof.
  split; [reflexivity|].
  apply (@reference_decrement_at_zero_fails example_host
           (example_env_bound example_weak_handle) 100 1 example_weak_handle);
    [reflexivity|reflexivity|left; reflexivity].
Defined.

(** X4. On a bound pointer with a positive count and a live handle, an
    increment followed by a decrement gives back the environment it
    started from, trace included: between them no engine call is made. *)
Theorem reference_inc_dec_identity `{Host} e p oid h ci :
  (get_caller_id =? thread_id_ e) = true →
  objects_index_ e !! p = Some oid →
  objects_ e !! oid = Some h →
  native_classes_ e !! class_id h = Some ci →
  type ci ≠ GodotPrimitive →
  0 < ref_count_ h →
  ref_ h ≠ GEmpty →
  ∃ e1, reference_object p true e = Ok (false, e1) ∧
        reference_object p false e1 = Ok (false, e).
Proof.
  intros Ht Hp Ho Hc Hty Hpos Hne.
  assert ((ref_count_ h =? 0) = false) as Hnz by (apply N.eqb_neq; lia).
  set (h1 := mkObjectHandle (class_id h) (pointer h) (ref_ h) (ref_count_ h + 1)).
  exists (referenced e oid p true h). split.
  { by apply reference_object_bound with (ci := ci). }
  assert (objects_ (referenced e oid p true h) !! oid = Some h1) as Ho1.
  { unfold referenced, reference_handle. simpl. rewrite lookup_insert_eq. by rewrite Hnz. }
  rewrite (reference_object_bound _ p false oid h1 ci); try done.
  - f_equal. f_equal. unfold referenced at 1, reference_events, reference_handle. simpl.
    replace (ref_count_ h + 1 - 1) with (ref_count_ h) by lia. rewrite Hnz.
    unfold referenced, reference_events. simpl. rewrite Hnz. rewrite !app_nil_r.
    env_simpl. rewrite insert_insert_eq.
    rewrite insert_id by (rewrite Ho; by destruct h).
    by destruct e.
  - intros _. split; [done|simpl; lia].
Qed.

Lemma reference_inc_dec_identity_witness :
  ∃ e1,
    @reference_object example_host 100 true (example_env_bound example_strong_handle)
      = Ok (false, e1) ∧
    @reference_object example_host 100 false e1
      = Ok (false, example_env_bound example_strong_handle).
Proof.
  apply (@reference_inc_dec_identity example_host
           (example_env_bound example_strong_handle) 100 1 example_strong_handle example_class);
    [reflexivity|reflexivity|reflexivity|reflexivity|discriminate|reflexivity|discriminate].
Defined.

(** X5. [mark_as_persistent_object] on a bound address that is not yet
    persistent and has a live handle returns, puts the address in the
    persistent set and raises its count by one, a handle of count 0
    being made strong; a second marking of the same address does not
    return. *)
Theorem mark_as_persistent_once `{Host} e p oid h ci :
  (get_caller_id =? thread_id_ e) = true →
  objects_index_ e !! p = Some oid →
  objects_ e !! oid = Some h →
  native_classes_ e !! class_id h = Some ci →
  type ci ≠ GodotPrimitive →
  ref_ h ≠ GEmpty →
  p ∉ persistent_objects_ e →
  ∃ e', mark_as_persistent_object p e = Ok (tt, e') ∧
        p ∈ persistent_objects_ e' ∧
        objects_ e' !! oid =
          Some (mkObjectHandle (class_id h) (pointer h)
                  (if ref_count_ h =? 0 then Global_ClearWeak (ref_ h) else ref_ h)
                  (ref_count_ h + 1)) ∧
        objects_index_ e' = objects_index_ e ∧
        ∀ r, mark_as_persistent_object p e' ≠ Ok r.
Proof.
  intros Ht Hp Ho Hc Hty Hne Hnp.
  eexists. split.
  { unfold mark_as_persistent_object. munfold. simpl. rewrite Hp.
    rewrite bool_decide_eq_false_2 by done. simpl.
    rewrite (reference_object_bound e p true oid h ci) by done. reflexivity. }
  simpl. split; [set_solver|]. split; [by rewrite lookup_insert_eq|].
  split; [done|].
  intros [[] e''] Hr.
  destruct (mark_as_persistent_object_inv _ _ _ Hr)
    as [(Hn & _)|(oid' & e1 & _ & Hnot & _)].
  - simpl in Hn. congruence.
  - simpl in Hnot. set_solver.
Qed.

Lemma mark_as_persistent_once_witness :
  ∃ e', @mark_as_persistent_object example_host 100 (example_env_bound example_weak_handle)
          = Ok (tt, e') ∧
        100 ∈ persistent_objects_ e' ∧
        objects_ e' !! 1 =
          Some (mkObjectHandle 1 100 (GStrong (VObject (example_object 7))) 1) ∧
        objects_index_ e' = objects_index_ (example_env_bound example_weak_handle) ∧
        ∀ r, @mark_as_persistent_object example_host 100 e' ≠ Ok r.
Proof.
  apply (@mark_as_persistent_once example_host (example_env_bound example_weak_handle)
           100 1 example_weak_handle example_class);
    [reflexivity|reflexivity|reflexivity|reflexivity|discriminate|discriminate|].
  vm_compute. set_solver.
Defined.

(** X6. Along every run of [bind_pointer], [reference_object],
    [free_object], [mark_as_persistent_object] and [bind_godot_object]
    calls, each persistent address is a bound address, provided this
    holds at the start. *)
Theorem persistent_addresses_stay_bound `{Host} ops e :
  persistent_bound e →
  Forall persistent_bound (run_host_ops ops e).
Proof.
  revert e. induction ops as [|op ops IH]; intros e Hb; simpl; [constructor|].
  destruct (exec (host_op op) e) as [e'|] eqn:Hex; [|constructor].
  assert (persistent_bound e') by (by eapply host_op_persistent).
  constructor; [done|by apply IH].
Qed.

Lemma persistent_addresses_stay_bound_witness :
  persistent_bound example_env ∧
  Forall persistent_bound
    (@run_host_ops example_host
       [HBindGodotObject 1 100 (example_object 7); HMarkPersistent 100;
        HMarkPersistent 300; HRegistry (OpFree 100 true)] example_env) ∧
  length (@run_host_ops example_host
       [HBindGodotObject 1 100 (example_object 7); HMarkPersistent 100;
        HMarkPersistent 300; HRegistry (OpFree 100 true)] example_env) = 4%nat.
Proof.
  assert (persistent_bound example_env) as Hb.
  { intros p Hp. vm_compute in Hp. set_solver. }
  split; [exact Hb|]. split; [|vm_compute; reflexivity].
  apply (@persistent_addresses_stay_bound example_host _ example_env Hb).
Defined.

(** X7. A [free_object] that returns has invoked the class finalizer
    exactly once when the address was bound and finalization was asked
    for, with the class of the handle and with the persistent flag set
    exactly if the address was in the persistent set; otherwise it has
    invoked no finalizer. *)
Theorem free_object_finalizes_once `{Host} e p fin e' :
  free_object p fin e = Ok (tt, e') →
  ∃ tl, trace_ e' = trace_ e ++ tl ∧
        List.filter is_finalizer_event tl =
          match objects_index_ e !! p with
          | Some oid =>
              match objects_ e !! oid with
              | Some h =>
                  if fin
                  then [EvFinalizer (class_id h) p (bool_decide (p ∈ persistent_objects_ e))]
                  else []
              | None => []
              end
          | None => []
          end.
Proof.
  intros Hr. unfold free_object in Hr.
  destruct (free_object_with_inv _ _ _ _ _ Hr)
    as (_ & [(Hn & ->)|(oid & h & ci & Hp & Ho & _ & _ & _ & Hfin)]).
  - rewrite Hn. exists []. by rewrite app_nil_r.
  - rewrite Hp, Ho. destruct fin.
    + rewrite invoke_finalizer_unfold in Hfin.
      destruct (for_each_host_callback_no_finalizer _ _ _ Hfin) as (tl & Htl & Hno).
      eexists. split.
      { rewrite Htl. simpl. rewrite <- !List.app_assoc. reflexivity. }
      simpl. by rewrite (filter_none _ _ Hno).
    + subst e'. by eexists.
Qed.

Lemma free_object_finalizes_once_witness :
  ∃ e' tl,
    @free_object example_host 200 true example_env_two = Ok (tt, e') ∧
    trace_ e' = trace_ example_env_two ++ tl ∧
    List.filter is_finalizer_event tl = [EvFinalizer 1 200 true].
Proof.
  eexists.
  destruct (@free_object_finalizes_once example_host example_env_two 200 true _
              ltac:(vm_compute; reflexivity)) as (tl & Htl & Hf).
  exists tl. split; [vm_compute; reflexivity|]. split; [exact Htl|exact Hf].
Defined.

(** X8. A host callback ([free_callback], [reference_callback]) that
    returns has invoked no class finalizer and has bound no address; and
    once the environment has left the [EnvironmentStore] it returns the
    environment untouched, [reference_callback] answering [true]. *)
Theorem host_callback_harmless `{Host} cb e :
  (∀ e', host_callback cb e = Ok (tt, e') →
     (∃ tl, trace_ e' = trace_ e ++ tl ∧
            forallb (λ ev, negb (is_finalizer_event ev)) tl = true) ∧
     (∀ p, objects_index_ e !! p = None → objects_index_ e' !! p = None)) ∧
  (in_store_ e = false →
     host_callback cb e = Ok (tt, e) ∧
     ∀ p b, reference_callback p b e = Ok (true, e)).
Proof.
  split.
  - intros e' Hr. split; [by eapply host_callback_no_finalizer|].
    by destruct (host_callback_shrinks _ _ _ Hr).
  - intros Hout. split.
    + destruct cb; simpl; unfold free_callback, reference_callback, bind, get, ret;
        by rewrite Hout.
    + intros p b. unfold reference_callback, bind, get, ret. by rewrite Hout.
Qed.

Section Teardown.
Context `{Host}.

Lemma objects_index_begin_None e :
  objects_index_begin e = None ↔ objects_index_ e = ∅.
Proof.
  unfold objects_index_begin. split.
  - intros Hh. apply map_to_list_empty_iff.
    destruct (map_to_list (objects_index_ e)); [done|discriminate].
  - intros ->. by rewrite map_to_list_empty.
Qed.

Lemma objects_index_begin_Some e p :
  objects_index_begin e = Some p → is_Some (objects_index_ e !! p).
Proof.
  unfold objects_index_begin. intros Hh.
  destruct (map_to_list (objects_index_ e)) as [|[q oid] l] eqn:Hl; [discriminate|].
  simpl in Hh. injection Hh as ->. exists oid.
  apply elem_of_map_to_list. rewrite Hl. left.
Qed.

Lemma for_each_host_callback_destructing l e :
  for_each host_callback_destructing l e =
    if in_store_ e && calls_back l then Crash "shared_from_this: bad_weak_ptr"
    else Ok (tt, e).
Proof.
  induction l as [|cb l IH]; simpl.
  - by rewrite andb_false_r.
  - unfold bind at 1. unfold host_callback_destructing at 1. unfold bind, get.
    destruct (in_store_ e) eqn:Hs; simpl; [done|].
    rewrite IH. by rewrite ?Hs.
Qed.

Lemma free_object_destructing_bound e p oid h ci :
  (get_caller_id =? thread_id_ e) = true →
  objects_index_ e !! p = Some oid →
  objects_ e !! oid = Some h →
  pointer h = p →
  native_classes_ e !! class_id h = Some ci →
  free_object_destructing p true e =
    if in_store_ e && calls_back (finalizer ci p (bool_decide (p ∈ persistent_objects_ e)))
    then Crash "shared_from_this: bad_weak_ptr"
    else Ok (tt, finalized e p oid h ci).
Proof.
  intros Ht Hp Ho Hptr Hc. unfold free_object_destructing.
  rewrite (free_object_with_bound _ e p true oid h ci) by (done || discriminate).
  unfold invoke_finalizer_destructing, bind, emit, modify.
  rewrite for_each_host_callback_destructing. reflexivity.
Qed.

Lemma free_object_destructing_inv e p e' :
  free_object_destructing p true e = Ok (tt, e') →
  ∃ oid h ci,
    (objects_index_ e !! p = None ∧ e' = e) ∨
    (objects_index_ e !! p = Some oid ∧ objects_ e !! oid = Some h ∧
     e' = finalized e p oid h ci).
Proof.
  intros Hr. unfold free_object_destructing in Hr.
  destruct (free_object_with_inv _ _ _ _ _ Hr)
    as (Ht & [(Hn & ->)|(oid & h & ci & Hp & Ho & Hptr & Hc & _ & Hfin)]).
  - exists 0, (mkObjectHandle 0 0 GEmpty 0), (mkNativeClassInfo "" GodotObject (λ _ _, [])).
    by left.
  - exists oid, h, ci. right. split; [done|]. split; [done|].
    unfold invoke_finalizer_destructing, bind, emit, modify in Hfin.
    rewrite for_each_host_callback_destructing in Hfin.
    destruct (in_store_ _ && _); [discriminate|]. by injection Hfin as <-.
Qed.

Lemma registry_wf_finalized e p oid h ci :
  objects_index_ e !! p = Some oid →
  objects_ e !! oid = Some h →
  registry_wf e → registry_wf (finalized e p oid h ci).
Proof.
  intros Hp Ho Hwf. unfold finalized.
  apply (registry_wf_log _ [EvFinalizer _ _ _]); [done|].
  by apply registry_wf_detached.
Qed.

Lemma finalized_size e p oid h ci :
  objects_index_ e !! p = Some oid →
  size (objects_index_ e) = S (size (objects_index_ (finalized e p oid h ci))).
Proof.
  intros Hp. simpl. rewrite map_size_delete, Hp.
  assert (size (objects_index_ e) ≠ 0%nat) as Hnz.
  { intros Hz. apply map_size_empty_iff in Hz. rewrite Hz in Hp. by rewrite lookup_empty in Hp. }
  lia.
Qed.

Lemma free_all_objects_spec fuel : ∀ e b e',
  (size (objects_index_ e) ≤ fuel)%nat →
  registry_wf e →
  free_all_objects fuel e = Ok (b, e') →
  b = true ∧ objects_index_ e' = ∅ ∧ registry_wf e'.
Proof.
  induction fuel as [|fuel IH]; intros e b e' Hsz Hwf Hr; simpl in Hr;
    unfold bind, get, ret in Hr.
  - assert (objects_index_ e = ∅) as Hem by (apply map_size_empty_iff; lia).
    apply objects_index_begin_None in Hem as Hb. rewrite Hb in Hr.
    by injection Hr as <- <-.
  - destruct (objects_index_begin e) as [p|] eqn:Hb.
    + destruct (free_object_destructing p true e) as [[[] e1]|] eqn:Hfree; [|discriminate].
      destruct (objects_index_begin_Some _ _ Hb) as [oid0 Hp0].
      destruct (free_object_destructing_inv _ _ _ Hfree)
        as (oid & h & ci & [(Hn & _)|(Hp & Ho & ->)]); [congruence|].
      pose proof (finalized_size e p oid h ci Hp) as Hs.
      eapply (IH (finalized e p oid h ci)); [lia|by apply registry_wf_finalized|exact Hr].
    + injection Hr as <- <-. split; [done|]. split; [|done].
      by apply objects_index_begin_None.
Qed.

Lemma free_all_objects_total fuel : ∀ e,
  (size (objects_index_ e) ≤ fuel)%nat →
  registry_wf e →
  (get_caller_id =? thread_id_ e) = true →
  in_store_ e = false →
  classes_registered e →
  ∃ e', free_all_objects fuel e = Ok (true, e').
Proof.
  induction fuel as [|fuel IH]; intros e Hsz Hwf Ht Hs Hcls; simpl;
    unfold bind, get, ret.
  - assert (objects_index_ e = ∅) as Hem by (apply map_size_empty_iff; lia).
    apply objects_index_begin_None in Hem as Hb. rewrite Hb. by eexists.
  - destruct (objects_index_begin e) as [p|] eqn:Hb; [|by eexists].
    destruct (objects_index_begin_Some _ _ Hb) as [oid Hp].
    destruct (wf_index _ Hwf p oid Hp) as (h & Ho & Hptr).
    destruct (Hcls oid h Ho) as [ci Hc].
    rewrite (free_object_destructing_bound e p oid h ci) by done.
    rewrite Hs. simpl andb. cbv iota.
    pose proof (finalized_size e p oid h ci Hp) as Hsize.
    apply IH; [lia|by apply registry_wf_finalized|done|done|].
    intros oid' h' Ho'. simpl in Ho'. apply lookup_delete_Some in Ho' as [_ Ho'].
    simpl. by apply (Hcls oid' h').
Qed.

Lemma Environment_destruct_objects_unfold e :
  registry_wf e →
  Environment_destruct_objects e =
    match free_all_objects (size (objects_index_ e))
            (set_trace_ (trace_ e ++ [EvLog VeryVerbose "cleanup %d objects"
                                        [LInt (N.of_nat (size (objects_ e)))]]) e) with
    | Ok (true, e1) =>
        (let* _ := jsb_check (bool_decide (size (objects_ e1) = 0%nat)) in
         let* _ := jsb_check (bool_decide (size (objects_index_ e1) = 0%nat)) in
         modify (set_native_classes_ ∅)) e1
    | Ok (false, _) => Crash "loop not finished"
    | Crash msg => Crash msg
    end.
Proof.
  intros Hwf.
  unfold Environment_destruct_objects. unfold bind at 1, get at 1.
  unfold bind at 1. unfold jsb_check at 1, jsb_checkf.
  rewrite bool_decide_eq_true_2 by (symmetry; apply (wf_size _ Hwf)).
  unfold ret at 1. unfold bind at 1, JSB_LOG, emit, modify at 1.
  unfold bind at 1. simpl.
  destruct (free_all_objects _ _) as [[[] e1]|]; reflexivity.
Qed.

End Teardown.

(** X9. The registry part of the destructor on a well-formed registry.
    The teardown loop needs no more rounds than the index has entries,
    and whenever the destructor returns, no object and no native class
    is left.  On the owning thread, once the environment has left the
    store and with every handle of a registered class, it does return:
    the host callbacks of the finalizers find no environment and do
    nothing.  While the environment is still in the store it does not
    return if the finalizer of the first object makes a host callback:
    the callback fails in [shared_from_this]. *)
Theorem destructor_empties_registry `{Host} e :
  registry_wf e →
  (∀ b e1,
     free_all_objects (size (objects_index_ e))
       (set_trace_ (trace_ e ++ [EvLog VeryVerbose "cleanup %d objects"
                                   [LInt (N.of_nat (size (objects_ e)))]]) e) = Ok (b, e1) →
     b = true ∧ objects_index_ e1 = ∅ ∧ objects_ e1 = ∅ ∧
     Environment_destruct_objects e = Ok (tt, set_native_classes_ ∅ e1)) ∧
  (∀ e', Environment_destruct_objects e = Ok (tt, e') →
     objects_index_ e' = ∅ ∧ objects_ e' = ∅ ∧ native_classes_ e' = ∅) ∧
  ((get_caller_id =? thread_id_ e) = true →
   in_store_ e = false →
   classes_registered e →
   ∃ e', Environment_destruct_objects e = Ok (tt, e')) ∧
  (∀ p oid h ci,
     (get_caller_id =? thread_id_ e) = true →
     in_store_ e = true →
     objects_index_begin e = Some p →
     objects_index_ e !! p = Some oid →
     objects_ e !! oid = Some h →
     native_classes_ e !! class_id h = Some ci →
     calls_back (finalizer ci p (bool_decide (p ∈ persistent_objects_ e))) = true →
     Environment_destruct_objects e = Crash "shared_from_this: bad_weak_ptr").
Proof.
  intros Hwf.
  pose proof (registry_wf_log e
                [EvLog VeryVerbose "cleanup %d objects"
                   [LInt (N.of_nat (size (objects_ e)))]] eq_refl Hwf) as Hwf0.
  assert (∀ b e1,
     free_all_objects (size (objects_index_ e))
       (set_trace_ (trace_ e ++ [EvLog VeryVerbose "cleanup %d objects"
                                   [LInt (N.of_nat (size (objects_ e)))]]) e) = Ok (b, e1) →
     b = true ∧ objects_index_ e1 = ∅ ∧ objects_ e1 = ∅) as Hloop.
  { intros b e1 Hr.
    destruct (free_all_objects_spec _ _ _ _ (Nat.le_refl _) Hwf0 Hr) as (-> & Hi & Hwf1).
    split; [done|]. split; [done|].
    apply map_size_empty_iff. rewrite <- (wf_size _ Hwf1), Hi. apply map_size_empty. }
  pose proof (Environment_destruct_objects_unfold e Hwf) as Hunf.
  assert (∀ e1,
     free_all_objects (size (objects_index_ e))
       (set_trace_ (trace_ e ++ [EvLog VeryVerbose "cleanup %d objects"
                                   [LInt (N.of_nat (size (objects_ e)))]]) e) = Ok (true, e1) →
     Environment_destruct_objects e = Ok (tt, set_native_classes_ ∅ e1)) as Hdone.
  { intros e1 Hr. destruct (Hloop true e1 Hr) as (_ & Hi & Ho).
    rewrite Hunf, Hr. unfold bind, jsb_check, jsb_checkf, ret, modify.
    rewrite Hi, Ho. by rewrite !bool_decide_eq_true_2 by apply map_size_empty. }
  split; [|split; [|split]].
  - intros b e1 Hr. destruct (Hloop b e1 Hr) as (-> & Hi & Ho).
    repeat (split; [done|]). by apply Hdone.
  - intros e' Hr. rewrite Hunf in Hr.
    destruct (free_all_objects _ _) as [[[] e1]|] eqn:Hfa; try discriminate.
    destruct (Hloop true e1 eq_refl) as (_ & Hi & Ho).
    unfold bind, jsb_check, jsb_checkf, ret, modify in Hr.
    rewrite Hi, Ho in Hr. rewrite !bool_decide_eq_true_2 in Hr by apply map_size_empty.
    by injection Hr as <-.
  - intros Ht Hs Hcls.
    destruct (free_all_objects_total (size (objects_index_ e))
                (set_trace_ (trace_ e ++ [EvLog VeryVerbose "cleanup %d objects"
                                            [LInt (N.of_nat (size (objects_ e)))]]) e))
      as [e1 Hr]; try done.
    eexists. by apply Hdone.
  - intros p oid h ci Ht Hs Hb Hp Ho Hc Hcb.
    rewrite Hunf.
    destruct (size (objects_index_ e)) as [|n] eqn:Hsz.
    { apply map_size_empty_iff in Hsz. rewrite Hsz in Hp. by rewrite lookup_empty in Hp. }
    simpl. unfold bind at 1, get at 1.
    change (objects_index_begin (set_trace_ _ e)) with (objects_index_begin e).
    rewrite Hb. unfold bind at 1.
    destruct (wf_index _ Hwf p oid Hp) as (h' & Ho' & Hptr).
    assert (h' = h) as -> by congruence.
    rewrite (free_object_destructing_bound _ p oid h ci) by done.
    simpl in_store_. simpl persistent_objects_. rewrite Hs, Hcb. reflexivity.
Qed.

Lemma destructor_empties_registry_witness :
  ∃ e', @Environment_destruct_objects example_host example_env_disposed = Ok (tt, e') ∧
        objects_index_ e' = ∅ ∧ objects_ e' = ∅ ∧ native_classes_ e' = ∅.
Proof.
  assert (registry_wf example_env_disposed) as Hwf.
  { split.
    - vm_compute. reflexivity.
    - intros p oid Hp.
      destruct (decide (p = 200)) as [->|Hne200].
      + vm_compute in Hp. injection Hp as <-. by eexists.
      + destruct (decide (p = 100)) as [->|Hne100].
        * vm_compute in Hp. injection Hp as <-. by eexists.
        * unfold example_env_disposed, example_env_two in Hp. simpl in Hp.
          rewrite lookup_insert_ne in Hp by done.
          rewrite lookup_singleton_ne in Hp by done. discriminate.
    - simpl. rewrite dom_insert_L, dom_singleton_L. f_equal; set_solver. }
  pose proof (@destructor_empties_registry example_host example_env_disposed Hwf)
    as (_ & Hd & Htot & _).
  destruct Htot as [e' Hr].
  - reflexivity.
  - reflexivity.
  - intros oid h Ho.
    destruct (decide (oid = 2)) as [->|Hne2].
    + vm_compute in Ho. injection Ho as <-. by eexists.
    + destruct (decide (oid = 1)) as [->|Hne1].
      * vm_compute in Ho. injection Ho as <-. by eexists.
      * unfold example_env_disposed, example_env_two in Ho. simpl in Ho.
        rewrite lookup_insert_ne in Ho by done.
        rewrite lookup_singleton_ne in Ho by done. discriminate.
  - exists e'. split; [exact Hr|]. by apply Hd.
Defined.

(** X10. [bind_godot_object] returns the empty id exactly for a
    reference-counted host object on which [init_ref] fails, and then
    both tables are as before; when it returns another id the address
    is bound under it with a strong handle of count 1 and the instance
    binding of the host object has been requested last. *)
Theorem bind_godot_object_dead_or_external `{Host} e cid p o oid e' :
  bind_godot_object cid p o e = Ok (oid, e') →
  (oid = 0 ↔ is_ref_counted p && negb (init_ref p) = true) ∧
  (oid = 0 → objects_ e' = objects_ e ∧ objects_index_ e' = objects_index_ e) ∧
  (oid ≠ 0 →
     objects_index_ e' !! p = Some oid ∧
     objects_ e' !! oid = Some (mkObjectHandle cid p (GStrong (VObject o)) 1) ∧
     last (trace_ e') = Some (EvInstanceBinding p)).
Proof.
  unfold bind_godot_object. intros Hr.
  destruct (is_ref_counted p && negb (init_ref p)) eqn:Hdead.
  - munfold. simpl in Hr. injection Hr as <- <-. simpl. by repeat split.
  - unfold bind, emit, modify, ret in Hr.
    destruct (bind_pointer cid p o External e) as [[oid1 e1]|] eqn:Hb; [|discriminate].
    injection Hr as <- <-.
    destruct (bind_pointer_inv _ _ _ _ _ _ _ Hb) as (_ & _ & -> & _ & Hidx & Hobj & _).
    pose proof (SArray_new_index_nonzero (objects_ e)) as Hnz.
    split; [split; [done|discriminate]|]. split; [done|]. intros _. simpl.
    rewrite Hidx, Hobj, !lookup_insert_eq. repeat split. apply last_snoc.
Qed.

Lemma bind_godot_object_dead_or_external_witness :
  ∃ e', @bind_godot_object dead_host 1 100 (example_object 7) example_env = Ok (0, e') ∧
        objects_ e' = objects_ example_env ∧
        objects_index_ e' = objects_index_ example_env.
Proof.
  eexists.
  destruct (@bind_godot_object_dead_or_external dead_host example_env 1 100
              (example_object 7) 0 _ ltac:(vm_compute; reflexivity)) as (_ & Hz & _).
  split; [vm_compute; reflexivity|]. apply Hz. reflexivity.
Defined.

(* ===================================================================== *)
(** ** More on exception capture and the call bridge *)
(* ===================================================================== *)

(** X11. [TryCatch::get_message] consumes the pending exception: it
    hands out its message and stack, logs them with the file name
    (["native"] when there is none) and the line, and leaves no exception
    pending, so that [has_caught] is false afterwards and a second
    [get_message] fails its check. *)
Theorem get_message_consumes e ex :
  exception_ (isolate_ e) = Some ex →
  ∃ e', TryCatch_get_message e = Ok ((ex_message ex, ex_stack ex), e') ∧
        TryCatch_has_caught (isolate_ e') = false ∧
        (∀ r, TryCatch_get_message e' ≠ Ok r) ∧
        trace_ e' = trace_ e ++
          [EvLog Error "[%s:%s] %s\nJavascript stack:\n%s"
             [LStr (default "native" (ex_fileName ex));
              LStr (default "" (ex_lineNumber ex));
              LStr (ex_message ex); LStr (ex_stack ex)]] ∧
        objects_ e' = objects_ e ∧ objects_index_ e' = objects_index_ e.
Proof.
  intros Hex. unfold TryCatch_get_message. munfold. simpl. rewrite Hex. simpl.
  eexists. split; [reflexivity|]. simpl. split; [done|]. split.
  - intros r. unfold TryCatch_get_message. munfold. simpl. discriminate.
  - split; [|done]. by destruct (ex_fileName ex), (ex_lineNumber ex).
Qed.

Lemma get_message_consumes_witness :
  ∃ e', TryCatch_get_message
          (set_isolate_ (iso_set_exception (Some example_exception) Isolate_new) example_env)
          = Ok (("boom", "at f (main.js:3)"), e') ∧
        TryCatch_has_caught (isolate_ e') = false ∧
        (∀ r, TryCatch_get_message e' ≠ Ok r).
Proof.
  destruct (get_message_consumes
              (set_isolate_ (iso_set_exception (Some example_exception) Isolate_new) example_env)
              example_exception eq_refl) as (e' & Hm & Hc & Hn & _).
  exists e'. split; [exact Hm|]. split; [exact Hc|exact Hn].
Defined.

Section CallBridgeMore.
Context `{Engine}.

Lemma convert_all_or_fail iso (p_args : list Variant) :
  (∃ vals, Forall2 (λ a v, gd_var_to_js iso a = Some v) p_args vals) ∨
  Exists (λ a, gd_var_to_js iso a = None) p_args.
Proof.
  induction p_args as [|a rest IH].
  - left. exists []. constructor.
  - destruct (gd_var_to_js iso a) as [v|] eqn:Hav.
    + destruct IH as [[vals Hall]|Hex].
      * left. exists (v :: vals). by constructor.
      * right. by apply Exists_cons_tl.
    + right. by apply Exists_cons_hd.
Qed.

Lemma call_argument_failure_eq p_func p_self p_args r_error e :
  Exists (λ a, gd_var_to_js (isolate_ e) a = None) p_args →
  _call p_func p_self p_args r_error e =
    Ok ((VarNil, set_error CALL_ERROR_INVALID_METHOD r_error,
         replicate (length p_args) SlotRaw), e).
Proof.
  intros Hex. unfold _call, bind, get.
  pose proof (convert_args_fail _ _ Hex 0%nat [] eq_refl) as Hconv.
  simpl in Hconv. by rewrite Hconv.
Qed.

End CallBridgeMore.

(** X12. If the arguments convert, the function returns a value without
    throwing, and the value converts to a [Variant], then [_call]
    returns that [Variant], leaves [r_error] as it was, has invoked the
    function once with the converted arguments, and has destroyed every
    element of [argv]. *)
Theorem call_returns_converted_value `{Engine} p_func p_self p_args vals r_error e rv iso' rvar :
  Forall2 (λ a v, gd_var_to_js (isolate_ e) a = Some v) p_args vals →
  Function_Call p_func p_self vals (isolate_ e) = (Some rv, iso') →
  exception_ iso' = None →
  js_to_gd_var iso' rv = Some rvar →
  _call p_func p_self p_args r_error e =
    Ok ((rvar, r_error, replicate (length p_args) SlotRaw),
        set_isolate_ iso' (set_trace_ (trace_ e ++ [EvCall p_func p_self vals]) e)).
Proof.
  intros Hall Hcall Hex Hconv.
  rewrite (_call_converted _ _ _ vals) by done. rewrite Hcall. simpl.
  unfold TryCatch_has_caught. by rewrite Hex, Hconv.
Qed.

Lemma call_returns_converted_value_witness :
  @_call example_engine (example_function 1) VUndefined [VarInt 1; VarBool true]
    example_call_error example_env =
  Ok ((VarInt 42, example_call_error, [SlotRaw; SlotRaw]),
      set_isolate_ (isolate_ example_env)
        (set_trace_ [EvCall (example_function 1) VUndefined [VNumber 1; VBoolean true]]
           example_env)).
Proof.
  apply (@call_returns_converted_value example_engine (example_function 1) VUndefined
           [VarInt 1; VarBool true] [VNumber 1; VBoolean true] example_call_error
           example_env (VNumber 42) (isolate_ example_env) (VarInt 42)).
  - repeat constructor.
  - reflexivity.
  - reflexivity.
  - reflexivity.
Defined.

(** X13. No check of [_call] itself can fail: whatever the arguments
    are and whatever the call of the function by the engine yields,
    [_call] returns, every element of [argv] is destroyed at the end,
    [r_error] is either left as it was or set to
    [CALL_ERROR_INVALID_METHOD], the returned [Variant] is empty whenever
    the error is set, and if the arguments converted no exception is
    pending afterwards. *)
Theorem call_always_returns `{Engine} p_func p_self p_args r_error e :
  ∃ rvar r' e',
    _call p_func p_self p_args r_error e =
      Ok ((rvar, r', replicate (length p_args) SlotRaw), e') ∧
    (r' = r_error ∨ (r' = set_error CALL_ERROR_INVALID_METHOD r_error ∧ rvar = VarNil)) ∧
    (Forall (λ a, is_Some (gd_var_to_js (isolate_ e) a)) p_args →
       exception_ (isolate_ e') = None).
Proof.
  destruct (convert_all_or_fail (isolate_ e) p_args) as [[vals Hall]|Hex].
  - rewrite (_call_converted _ _ _ vals) by done.
    destruct (Function_Call p_func p_self vals (isolate_ e)) as [rval iso'] eqn:Hcall.
    simpl. unfold TryCatch_has_caught.
    destruct (exception_ iso') as [ex|] eqn:Hexc.
    + unfold BridgeHelper_get_exception, TryCatch_get_message. munfold. simpl.
      rewrite Hexc. simpl. eexists _, _, _. split; [reflexivity|]. simpl.
      split; [by right|]. done.
    + destruct rval as [rv|].
      * destruct (js_to_gd_var iso' rv) as [rvar|].
        { eexists _, _, _. split; [reflexivity|]. simpl. split; [by left|]. done. }
        destruct (IsPromise rv).
        { eexists _, _, _. split; [reflexivity|]. simpl. split; [by left|]. done. }
        munfold. simpl. eexists _, _, _. split; [reflexivity|]. simpl.
        split; [by right|]. done.
      * eexists _, _, _. split; [reflexivity|]. simpl. split; [by left|]. done.
  - rewrite call_argument_failure_eq by done.
    eexists _, _, _. split; [reflexivity|]. split; [by right|].
    intros Hall. exfalso.
    apply Exists_exists in Hex as (a & Hin & Hnone).
    rewrite Forall_forall in Hall. destruct (Hall a Hin) as [v Hv]. congruence.
Qed.

(* ===================================================================== *)
(** ** The function cache *)
(* ===================================================================== *)

Section FunctionCacheFacts.
Context `{Host} `{Engine}.

Lemma FunctionCache_empty_wf : function_cache_wf FunctionCache_empty.
Proof. split; simpl; [done| |]; intros ? ? Hl; by rewrite lookup_empty in Hl. Qed.

Lemma get_cached_function_new fc f :
  function_refs_ fc !! f = None →
  get_cached_function (mkJSObject KFunction f) fc =
    Ok (SArray_new_index (function_bank_ fc),
        mkFunctionCache
          (<[SArray_new_index (function_bank_ fc) := TStrongRef_new (mkJSObject KFunction f)]>
             (function_bank_ fc))
          (<[f := SArray_new_index (function_bank_ fc)]> (function_refs_ fc))).
Proof. intros Hn. unfold get_cached_function. simpl. by rewrite Hn. Qed.

Lemma get_cached_function_known fc f i r :
  function_refs_ fc !! f = Some i →
  function_bank_ fc !! i = Some r →
  get_cached_function (mkJSObject KFunction f) fc =
    Ok (i, mkFunctionCache (<[i := TStrongRef_ref r]> (function_bank_ fc)) (function_refs_ fc)).
Proof. intros Hf Hi. unfold get_cached_function. simpl. by rewrite Hf, Hi. Qed.

Lemma get_cached_function_wf fc f :
  function_cache_wf fc →
  ∃ i fc', get_cached_function (mkJSObject KFunction f) fc = Ok (i, fc') ∧
           i ≠ 0 ∧ function_refs_ fc' !! f = Some i ∧ function_cache_wf fc'.
Proof.
  intros [Hzero Hrefs Hbank].
  destruct (function_refs_ fc !! f) as [i|] eqn:Hf.
  - destruct (Hrefs f i Hf) as (r & Hi & Hobj & Hpos).
    rewrite (get_cached_function_known fc f i r) by done.
    eexists _, _. split; [reflexivity|]. simpl.
    split; [intros Heq; rewrite Heq in Hi; congruence|]. split; [done|]. split; simpl.
    + rewrite lookup_insert_ne; [done|]. intros Heq. rewrite Heq in Hi. congruence.
    + intros f' i' Hf'. destruct (Hrefs f' i' Hf') as (r' & Hi' & Hobj' & Hpos').
      destruct (decide (i' = i)) as [->|Hne].
      * rewrite lookup_insert_eq. exists (TStrongRef_ref r).
        assert (r' = r) as -> by congruence. simpl. split; [done|]. split; [done|lia].
      * rewrite lookup_insert_ne by done. eauto.
    + intros i' r' Hi'. destruct (decide (i' = i)) as [->|Hne].
      * rewrite lookup_insert_eq in Hi'. injection Hi' as <-. simpl. eauto.
      * rewrite lookup_insert_ne in Hi' by done. eauto.
  - rewrite get_cached_function_new by done.
    pose proof (SArray_new_index_fresh (function_bank_ fc)) as Hfresh.
    pose proof (SArray_new_index_nonzero (function_bank_ fc)) as Hnz.
    set (i := SArray_new_index (function_bank_ fc)) in *.
    eexists _, _. split; [reflexivity|]. simpl.
    split; [done|]. split; [apply lookup_insert_eq|]. split; simpl.
    + by rewrite lookup_insert_ne.
    + intros f' i' Hf'. destruct (decide (f' = f)) as [->|Hne].
      * rewrite lookup_insert_eq in Hf'. injection Hf' as <-.
        rewrite lookup_insert_eq. exists (TStrongRef_new (mkJSObject KFunction f)).
        simpl. split; [done|]. split; [done|lia].
      * rewrite lookup_insert_ne in Hf' by done.
        destruct (Hrefs f' i' Hf') as (r' & Hi' & Hobj' & Hpos').
        rewrite lookup_insert_ne by congruence. eauto.
    + intros i' r' Hi'. destruct (decide (i' = i)) as [->|Hne].
      * rewrite lookup_insert_eq in Hi'. injection Hi' as <-.
        exists f. simpl. split; [done|]. apply lookup_insert_eq.
      * rewrite lookup_insert_ne in Hi' by done.
        destruct (Hbank i' r' Hi') as (f2 & Hobj & Hf2).
        exists f2. split; [done|].
        rewrite lookup_insert_ne; [done|]. intros <-. congruence.
Qed.

Lemma release_function_inv p_func_id fc e b fc' e' :
  release_function p_func_id fc e = Ok ((b, fc'), e') →
  function_cache_wf fc →
  (get_caller_id =? thread_id_ e) = true ∧ e' = e ∧
  ((function_bank_ fc !! p_func_id = None ∧ b = false ∧ fc' = fc)
   ∨ (∃ r f, function_bank_ fc !! p_func_id = Some r ∧ b = true ∧
               object_ r = GStrong (VObject (mkJSObject KFunction f)) ∧
               function_refs_ fc !! f = Some p_func_id ∧
               fc' = if strong_count_ r - 1 =? 0
                     then mkFunctionCache (delete p_func_id (function_bank_ fc))
                            (delete f (function_refs_ fc))
                     else mkFunctionCache
                            (<[p_func_id := mkTStrongRef (object_ r) (strong_count_ r - 1)]>
                               (function_bank_ fc))
                            (function_refs_ fc))).
Proof.
  intros Hr [Hzero Hrefs Hbank].
  unfold release_function, check_internal_state in Hr. munfold. simpl in Hr.
  destruct (get_caller_id =? thread_id_ e) eqn:Ht; [|discriminate]. simpl in Hr.
  split; [done|].
  destruct (function_bank_ fc !! p_func_id) as [r|] eqn:Hi.
  - destruct (Hbank _ _ Hi) as (f & Hobj & Hf).
    destruct (Hrefs _ _ Hf) as (r2 & Hi2 & _ & Hpos).
    assert (r2 = r) as -> by congruence.
    unfold TStrongRef_unref in Hr.
    assert ((strong_count_ r =? 0) = false) as Hnz by (apply N.eqb_neq; lia).
    rewrite Hnz in Hr.
    destruct (strong_count_ r - 1 =? 0) eqn:Hlast; simpl in Hr.
    + rewrite Hobj in Hr. simpl in Hr.
      rewrite bool_decide_eq_true_2 in Hr by eauto. simpl in Hr.
      injection Hr as <- <- <-. split; [done|]. right. exists r, f. by rewrite Hlast.
    + injection Hr as <- <- <-. split; [done|]. right. exists r, f. by rewrite Hlast.
  - injection Hr as <- <- <-. split; [done|]. by left.
Qed.

Lemma release_function_wf p_func_id fc e b fc' e' :
  release_function p_func_id fc e = Ok ((b, fc'), e') →
  function_cache_wf fc → function_cache_wf fc'.
Proof.
  intros Hr Hwf.
  destruct (release_function_inv _ _ _ _ _ _ Hr Hwf)
    as (_ & _ & [(_ & _ & ->)|(r & f & Hi & _ & Hobj & Hf & ->)]); [done|].
  destruct Hwf as [Hzero Hrefs Hbank].
  destruct (strong_count_ r - 1 =? 0) eqn:Hlast; split; simpl.
  - destruct (decide (p_func_id = 0)) as [->|Hne];
      [apply lookup_delete_eq|by rewrite lookup_delete_ne].
  - intros f' i' Hf'. apply lookup_delete_Some in Hf' as [Hne Hf'].
    destruct (Hrefs f' i' Hf') as (r' & Hi' & Hobj' & Hpos').
    exists r'. split; [|done]. rewrite lookup_delete_ne; [done|].
    intros <-. assert (r' = r) as -> by congruence. congruence.
  - intros i' r' Hi'. apply lookup_delete_Some in Hi' as [Hne Hi'].
    destruct (Hbank i' r' Hi') as (f2 & Hobj' & Hf2).
    exists f2. split; [done|]. rewrite lookup_delete_ne; [done|].
    intros <-. congruence.
  - rewrite lookup_insert_ne; [done|]. intros Heq. rewrite Heq in Hi. congruence.
  - intros f' i' Hf'. destruct (Hrefs f' i' Hf') as (r' & Hi' & Hobj' & Hpos').
    destruct (decide (i' = p_func_id)) as [->|Hne].
    + rewrite lookup_insert_eq. assert (r' = r) as -> by congruence.
      eexists. split; [done|]. simpl. split; [done|].
      apply N.eqb_neq in Hlast. lia.
    + rewrite lookup_insert_ne by done. eauto.
  - intros i' r' Hi'. destruct (decide (i' = p_func_id)) as [->|Hne].
    + rewrite lookup_insert_eq in Hi'. injection Hi' as <-. simpl. eauto.
    + rewrite lookup_insert_ne in Hi' by done. eauto.
Qed.

End FunctionCacheFacts.

(** X14. On a well-formed function cache [get_cached_function] always
    returns, with an id that is not empty and under which the function is
    now registered, and keeps the cache well formed; asked twice for the
    same function it returns the same id, the second call only raising
    the count of the handle by one. *)
Theorem get_cached_function_dedup fc f :
  function_cache_wf fc →
  ∃ i fc1 fc2 r,
    get_cached_function (mkJSObject KFunction f) fc = Ok (i, fc1) ∧
    i ≠ 0 ∧ function_cache_wf fc1 ∧
    function_bank_ fc1 !! i = Some r ∧
    get_cached_function (mkJSObject KFunction f) fc1 = Ok (i, fc2) ∧
    function_cache_wf fc2 ∧
    function_refs_ fc2 = function_refs_ fc1 ∧
    function_bank_ fc2 = <[i := mkTStrongRef (object_ r) (strong_count_ r + 1)]> (function_bank_ fc1).
Proof.
  intros Hwf.
  destruct (get_cached_function_wf fc f Hwf) as (i & fc1 & Hg1 & Hnz & Hf1 & Hwf1).
  destruct (fcwf_refs _ Hwf1 f i Hf1) as (r & Hi & _ & _).
  destruct (get_cached_function_wf fc1 f Hwf1) as (i2 & fc2 & Hg2 & _ & _ & Hwf2).
  rewrite (get_cached_function_known fc1 f i r) in Hg2 by done.
  injection Hg2 as <- <-.
  exists i, fc1,
    (mkFunctionCache (<[i:=TStrongRef_ref r]> (function_bank_ fc1)) (function_refs_ fc1)), r.
  repeat (split; [done|]).
  split; [by apply get_cached_function_known|]. done.
Qed.

Lemma get_cached_function_dedup_witness :
  ∃ i fc1 fc2 r,
    get_cached_function (mkJSObject KFunction 5) FunctionCache_empty = Ok (i, fc1) ∧
    i ≠ 0 ∧ function_cache_wf fc1 ∧
    function_bank_ fc1 !! i = Some r ∧
    get_cached_function (mkJSObject KFunction 5) fc1 = Ok (i, fc2) ∧
    function_cache_wf fc2 ∧
    function_refs_ fc2 = function_refs_ fc1 ∧
    function_bank_ fc2 = <[i := mkTStrongRef (object_ r) (strong_count_ r + 1)]> (function_bank_ fc1).
Proof.
  apply (get_cached_function_dedup FunctionCache_empty 5).
  split; simpl; [done| |]; intros ? ? Hl; by rewrite lookup_empty in Hl.
Defined.

(** X15. Retaining a function and releasing the id that was returned is
    a round trip: on a well-formed cache, [get_cached_function] followed
    by [release_function] on the owning thread gives back the cache it
    started from, whether the function was known or new, and leaves the
    environment alone. *)
Theorem get_then_release_restores `{Host} fc f e :
  function_cache_wf fc →
  (get_caller_id =? thread_id_ e) = true →
  ∃ i fc1,
    get_cached_function (mkJSObject KFunction f) fc = Ok (i, fc1) ∧
    release_function i fc1 e = Ok ((true, fc), e).
Proof.
  intros Hwf Ht. destruct Hwf as [Hzero Hrefs Hbank].
  unfold release_function, check_internal_state. munfold. simpl. rewrite Ht. simpl.
  destruct (function_refs_ fc !! f) as [i|] eqn:Hf.
  - destruct (Hrefs f i Hf) as (r & Hi & Hobj & Hpos).
    rewrite (get_cached_function_known fc f i r) by done.
    eexists _, _. split; [reflexivity|]. simpl. rewrite lookup_insert_eq.
    unfold TStrongRef_unref, TStrongRef_ref. simpl.
    assert ((strong_count_ r + 1 =? 0) = false) as -> by (apply N.eqb_neq; lia).
    replace (strong_count_ r + 1 - 1) with (strong_count_ r) by lia.
    assert ((strong_count_ r =? 0) = false) as -> by (apply N.eqb_neq; lia).
    simpl. rewrite insert_insert_eq.
    rewrite insert_id by (rewrite Hi; by destruct r).
    by destruct fc.
  - rewrite get_cached_function_new by done.
    pose proof (SArray_new_index_fresh (function_bank_ fc)) as Hfresh.
    eexists _, _. split; [reflexivity|]. simpl. rewrite lookup_insert_eq.
    unfold TStrongRef_unref. simpl. rewrite lookup_insert_eq.
    rewrite bool_decide_eq_true_2 by eauto. simpl.
    rewrite !delete_insert_eq, !delete_id by done.
    by destruct fc.
Qed.

Lemma get_then_release_restores_witness :
  ∃ i fc1,
    get_cached_function (mkJSObject KFunction 5) FunctionCache_empty = Ok (i, fc1) ∧
    @release_function example_host i fc1 example_env = Ok ((true, FunctionCache_empty), example_env).
Proof.
  apply (@get_then_release_restores example_host FunctionCache_empty 5 example_env).
  - split; simpl; [done| |]; intros ? ? Hl; by rewrite lookup_empty in Hl.
  - reflexivity.
Defined.

(** X16. [release_function] on a well-formed cache answers [false]
    exactly for an id that is not in the bank, and then changes nothing;
    for an id of the bank it answers [true], drops the function from both
    maps when its count was 1 and only lowers the count otherwise; in
    every case the cache stays well formed and the environment is left
    alone. *)
Theorem release_function_result `{Host} p_func_id fc e b fc' e' :
  release_function p_func_id fc e = Ok ((b, fc'), e') →
  function_cache_wf fc →
  e' = e ∧ function_cache_wf fc' ∧
  (b = false ↔ function_bank_ fc !! p_func_id = None) ∧
  (b = false → fc' = fc) ∧
  (∀ r, function_bank_ fc !! p_func_id = Some r →
     if strong_count_ r =? 1
     then function_bank_ fc' !! p_func_id = None ∧
          (∀ f, function_refs_ fc' !! f ≠ Some p_func_id)
     else function_bank_ fc' !! p_func_id =
            Some (mkTStrongRef (object_ r) (strong_count_ r - 1)) ∧
          function_refs_ fc' = function_refs_ fc).
Proof.
  intros Hr Hwf.
  pose proof (release_function_wf _ _ _ _ _ _ Hr Hwf) as Hwf'.
  destruct (release_function_inv _ _ _ _ _ _ Hr Hwf)
    as (_ & -> & [(Hn & -> & ->)|(r & f & Hi & -> & Hobj & Hf & ->)]).
  - split; [done|]. split; [done|]. split; [done|]. split; [done|].
    intros r Hi. congruence.
  - split; [done|]. split; [done|]. split; [split; [discriminate|congruence]|].
    split; [discriminate|]. intros r' Hi'. assert (r' = r) as -> by congruence.
    destruct (fcwf_refs _ Hwf f _ Hf) as (r2 & Hi2 & _ & Hpos).
    assert (r2 = r) as -> by congruence.
    destruct (strong_count_ r =? 1) eqn:Hone.
    + apply N.eqb_eq in Hone. rewrite Hone. simpl. split; [apply lookup_delete_eq|].
      intros f' Hf'. apply lookup_delete_Some in Hf' as [Hne Hf'].
      destruct (fcwf_refs _ Hwf f' _ Hf') as (r3 & Hi3 & Hobj3 & _).
      assert (r3 = r) as -> by congruence. congruence.
    + apply N.eqb_neq in Hone.
      assert ((strong_count_ r - 1 =? 0) = false) as -> by (apply N.eqb_neq; lia).
      simpl. split; [apply lookup_insert_eq|done].
Qed.

Lemma release_function_result_witness :
  @release_function example_host 9 FunctionCache_empty example_env
    = Ok ((false, FunctionCache_empty), example_env) ∧
  (false = false ↔ function_bank_ FunctionCache_empty !! 9 = None).
Proof.
  assert (function_cache_wf FunctionCache_empty) as Hwf.
  { split; simpl; [done| |]; intros ? ? Hl; by rewrite lookup_empty in Hl. }
  split; [vm_compute; reflexivity|].
  destruct (@release_function_result example_host 9 FunctionCache_empty example_env
              false FunctionCache_empty example_env ltac:(vm_compute; reflexivity) Hwf)
    as (_ & _ & Hiff & _).
  exact Hiff.
Defined.

(** X17. A method retained from a bound object can be called through the
    id: when the object is in the registry with a live script object whose
    property [m] is a function, [retain_function] on a well-formed cache
    returns a non-empty id and a well-formed cache without touching the
    environment, and [call_function] with that id on that object is
    exactly [_call] of that function with the script object as [this]. *)
Theorem retain_then_call `{Host} `{Engine} oid m fc e h obj f :
  function_cache_wf fc →
  (get_caller_id =? thread_id_ e) = true →
  oid ≠ 0 →
  objects_ e !! oid = Some h →
  Global_Get (ref_ h) = Some (VObject obj) →
  Object_Get (isolate_ e) obj m = VObject (mkJSObject KFunction f) →
  ∃ i fc',
    retain_function oid m fc e = Ok ((i, fc'), e) ∧
    i ≠ 0 ∧ function_cache_wf fc' ∧
    ∀ p_args r_error,
      call_function oid i p_args r_error fc' e =
      _call (VObject (mkJSObject KFunction f)) (VObject obj) p_args r_error e.
Proof.
  intros Hwf Ht Hnz Ho Hget Hprop.
  destruct (get_cached_function_wf fc f Hwf) as (i & fc' & Hg & Hi & Hf & Hwf').
  exists i, fc'. split.
  { unfold retain_function, check_internal_state. munfold. simpl. rewrite Ht. simpl.
    by rewrite Ho, Hget, Hprop, Hg. }
  split; [done|]. split; [done|]. intros p_args r_error.
  destruct (fcwf_refs _ Hwf' f i Hf) as (r & Hbank & Hobj & _).
  unfold call_function, check_internal_state. munfold. simpl. rewrite Ht. simpl.
  rewrite Hbank. apply N.eqb_neq in Hnz. rewrite Hnz. simpl.
  unfold SArray_is_valid_index. rewrite Ho. simpl.
  unfold get_object. rewrite Hobj. simpl. by rewrite Ho, Hget.
Qed.

Lemma retain_then_call_witness :
  ∃ i fc',
    @retain_function example_host 1 "_ready" FunctionCache_empty example_env_method
      = Ok ((i, fc'), example_env_method) ∧
    i ≠ 0 ∧ function_cache_wf fc' ∧
    ∀ p_args r_error,
      @call_function example_host example_engine 1 i p_args r_error fc' example_env_method =
      @_call example_engine (VObject (mkJSObject KFunction 1))
        (VObject (example_object 7)) p_args r_error example_env_method.
Proof.
  apply (@retain_then_call example_host example_engine 1 "_ready" FunctionCache_empty
           example_env_method example_strong_handle (example_object 7) 1).
  - split; simpl; [done| |]; intros ? ? Hl; by rewrite lookup_empty in Hl.
  - reflexivity.
  - discriminate.
  - reflexivity.
  - reflexivity.
  - reflexivity.
Defined.

(** X18. [retain_function] gives the empty id and leaves cache and
    environment alone when the object id is not in the registry, and also
    when the object is there but its property [m] is not a function. *)
Theorem retain_function_miss `{Host} oid m fc e :
  (get_caller_id =? thread_id_ e) = true →
  (objects_ e !! oid = None ∨
   ∃ h obj, objects_ e !! oid = Some h ∧ Global_Get (ref_ h) = Some (VObject obj) ∧
            ∀ f, Object_Get (isolate_ e) obj m ≠ VObject (mkJSObject KFunction f)) →
  retain_function oid m fc e = Ok ((0, fc), e).
Proof.
  intros Ht Hcase.
  unfold retain_function, check_internal_state. munfold. simpl. rewrite Ht. simpl.
  destruct Hcase as [Hn|(h & obj & Ho & Hget & Hnf)].
  - by rewrite Hn.
  - rewrite Ho, Hget.
    destruct (Object_Get (isolate_ e) obj m) as [| | | | | | [[] f]] eqn:Hp; try done.
    by destruct (Hnf f).
Qed.

Lemma retain_function_miss_witness :
  @retain_function example_host 1 "_process" FunctionCache_empty example_env_method
    = Ok ((0, FunctionCache_empty), example_env_method).
Proof.
  apply (@retain_function_miss example_host).
  - reflexivity.
  - right. exists example_strong_handle, (example_object 7).
    split; [reflexivity|]. split; [reflexivity|]. intros f. discriminate.
Defined.

(** X19. [call_function] calls nothing when it is given an id that is not
    in the function bank, or a non-empty object id that is not in the
    registry: it reports [CALL_ERROR_INVALID_METHOD], returns nil,
    allocates no argument, leaves the pending exception alone, and its only
    trace is, in the second case, one error log. *)
Theorem call_function_rejects `{Host} `{Engine} oid i p_args r_error fc e :
  (get_caller_id =? thread_id_ e) = true →
  (function_bank_ fc !! i = None ∨ (oid ≠ 0 ∧ objects_ e !! oid = None)) →
  ∃ e',
    call_function oid i p_args r_error fc e =
      Ok ((VarNil, set_error CALL_ERROR_INVALID_METHOD r_error, []), e') ∧
    isolate_ e' = isolate_ e ∧ objects_ e' = objects_ e ∧
    trace_ e' = trace_ e ++
      match function_bank_ fc !! i with
      | Some _ => [EvLog Error "invalid `this` for calling function" []]
      | None => []
      end.
Proof.
  intros Ht Hcase.
  unfold call_function, check_internal_state. munfold. simpl. rewrite Ht. simpl.
  destruct (function_bank_ fc !! i) as [r|] eqn:Hi.
  - destruct Hcase as [?|[Hnz Ho]]; [done|].
    apply N.eqb_neq in Hnz. rewrite Hnz. simpl.
    unfold SArray_is_valid_index. rewrite Ho. simpl.
    eexists. split; [reflexivity|]. by destruct e.
  - eexists. split; [reflexivity|]. by rewrite app_nil_r.
Qed.

Lemma call_function_rejects_witness :
  ∃ e',
    @call_function example_host example_engine 1 3 [VarInt 1] example_call_error
        FunctionCache_empty example_env_method =
      Ok ((VarNil, set_error CALL_ERROR_INVALID_METHOD example_call_error, []), e') ∧
    isolate_ e' = isolate_ example_env_method ∧ objects_ e' = objects_ example_env_method ∧
    trace_ e' = trace_ example_env_method ++
      match function_bank_ FunctionCache_empty !! 3 with
      | Some _ => [EvLog Error "invalid `this` for calling function" []]
      | None => []
      end.
Proof.
  apply (@call_function_rejects example_host example_engine).
  - reflexivity.
  - left. reflexivity.
Defined.


(* ===================================================================== *)
(** ** More on module loading *)
(* ===================================================================== *)

Section ModuleLoadFacts.
Context `{ModuleSystem}.

Lemma resolve_events_all resolvers p_module_id :
  resolve_in resolvers p_module_id = None →
  resolve_events resolvers p_module_id = (λ r, EvResolve r p_module_id) <$> resolvers.
Proof.
  induction resolvers as [|r rest IH]; simpl; [done|].
  destruct (resolver_get_source_info r p_module_id); [done|].
  intros Hn. f_equal. by apply IH.
Qed.

Lemma load_module_unknown_eq e p_parent_id p_module_id normalized_id :
  (match module_cache_ e !! p_module_id with
   | Some m0 => is_loaded m0 | None => false end) = false →
  p_module_id ∉ module_loaders_ e →
  normalized_module_id p_parent_id p_module_id = Some normalized_id →
  resolve_in (module_resolvers_ e) normalized_id = None →
  _load_module p_parent_id p_module_id e =
    Ok (None,
        set_isolate_
          (iso_set_exception
             (Some (mkJSException None None ("unknown module: " +:+ normalized_id) ""))
             (isolate_ e))
          (set_trace_ (trace_ e ++ resolve_events (module_resolvers_ e) normalized_id
                         ++ [EvThrow ("unknown module: " +:+ normalized_id)]) e)).
Proof.
  intros Hmiss Hnl Hnorm Hres.
  unfold _load_module. unfold bind at 1. unfold get at 1. rewrite Hmiss.
  rewrite bool_decide_eq_false_2 by done. rewrite Hnorm.
  unfold bind at 1. unfold find_module_resolver, bind at 1, get at 1.
  rewrite find_module_resolver_in_spec, Hres.
  unfold jsb_throw. munfold. simpl. by rewrite <- List.app_assoc.
Qed.

End ModuleLoadFacts.

(** X20. An id that no loader and no resolver knows: [_load_module]
    returns null, leaves the module cache as it was, leaves the error
    ["unknown module: <id>"] pending, and has asked every resolver once,
    in order, before throwing. *)
Theorem load_module_unknown `{ModuleSystem} e p_parent_id p_module_id normalized_id :
  (match module_cache_ e !! p_module_id with
   | Some m0 => is_loaded m0 | None => false end) = false →
  (p_module_id ∉ module_loaders_ e) →
  normalized_module_id p_parent_id p_module_id = Some normalized_id →
  resolve_in (module_resolvers_ e) normalized_id = None →
  ∃ e',
    _load_module p_parent_id p_module_id e = Ok (None, e') ∧
    module_cache_ e' = module_cache_ e ∧
    ex_message <$> exception_ (isolate_ e') = Some ("unknown module: " +:+ normalized_id) ∧
    trace_ e' = trace_ e ++ ((λ r, EvResolve r normalized_id) <$> module_resolvers_ e)
                  ++ [EvThrow ("unknown module: " +:+ normalized_id)].
Proof.
  intros Hmiss Hnl Hnorm Hres.
  rewrite (load_module_unknown_eq e p_parent_id p_module_id normalized_id) by done.
  eexists. split; [reflexivity|]. simpl. rewrite resolve_events_all by done. done.
Qed.

Lemma load_module_unknown_witness :
  ∃ e',
    @_load_module example_modules "" "b" example_env_modules = Ok (None, e') ∧
    module_cache_ e' = module_cache_ example_env_modules ∧
    ex_message <$> exception_ (isolate_ e') = Some ("unknown module: " +:+ "b") ∧
    trace_ e' = trace_ example_env_modules
                  ++ ((λ r, EvResolve r "b") <$> module_resolvers_ example_env_modules)
                  ++ [EvThrow ("unknown module: " +:+ "b")].
Proof.
  apply (@load_module_unknown example_modules example_env_modules "" "b" "b").
  - reflexivity.
  - vm_compute. intros Hin. discriminate Hin.
  - reflexivity.
  - reflexivity.
Defined.

(** X21. Only a relative id can be a bad path, and a bad path stops
    [_load_module] before any resolver is asked: it returns null with the
    error ["bad path"] pending, the cache unchanged and no event but the
    throw. *)
Theorem load_module_bad_path `{ModuleSystem} e p_parent_id p_module_id :
  (match module_cache_ e !! p_module_id with
   | Some m0 => is_loaded m0 | None => false end) = false →
  (p_module_id ∉ module_loaders_ e) →
  normalized_module_id p_parent_id p_module_id = None →
  (String.prefix "./" p_module_id || String.prefix "../" p_module_id = true) ∧
  ∃ e',
    _load_module p_parent_id p_module_id e = Ok (None, e') ∧
    module_cache_ e' = module_cache_ e ∧
    ex_message <$> exception_ (isolate_ e') = Some "bad path" ∧
    trace_ e' = trace_ e ++ [EvThrow "bad path"].
Proof.
  intros Hmiss Hnl Hnorm. split.
  - unfold normalized_module_id in Hnorm.
    by destruct (String.prefix "./" p_module_id || String.prefix "../" p_module_id).
  - unfold _load_module. unfold bind at 1. unfold get at 1. rewrite Hmiss.
    rewrite bool_decide_eq_false_2 by done. rewrite Hnorm.
    unfold jsb_throw. munfold. simpl. eexists. split; [reflexivity|]. done.
Qed.

Lemma load_module_bad_path_witness :
  (String.prefix "./" "./x" || String.prefix "../" "./x" = true) ∧
  ∃ e',
    @_load_module strict_modules "res://a.js" "./x" example_env_modules = Ok (None, e') ∧
    module_cache_ e' = module_cache_ example_env_modules ∧
    ex_message <$> exception_ (isolate_ e') = Some "bad path" ∧
    trace_ e' = trace_ example_env_modules ++ [EvThrow "bad path"].
Proof.
  apply (@load_module_bad_path strict_modules example_env_modules "res://a.js" "./x").
  - reflexivity.
  - vm_compute. intros Hin. discriminate Hin.
  - reflexivity.
Defined.

(** X22. An id with a registered loader and no module in the cache:
    [_load_module] enters a fresh module under that id, calls the loader
    exactly once and asks no resolver; it returns the module exactly when
    the loader reports success, and the module stays in the cache also
    when the loader has failed.  No other entry of the cache changes. *)
Theorem load_module_by_loader `{ModuleSystem} e p_parent_id p_module_id :
  module_cache_ e !! p_module_id = None →
  p_module_id ∈ module_loaders_ e →
  ∃ e',
    _load_module p_parent_id p_module_id e =
      Ok (if (loader_load p_module_id
                (mkJavaScriptModule p_module_id ModuleSourceInfo_default
                   (GStrong (VObject (mkJSObject KPlain (next_ref_ e)))) GEmpty 0 false)
                (isolate_ e)).1.1
          then Some p_module_id else None, e') ∧
    is_Some (module_cache_ e' !! p_module_id) ∧
    (∀ q, q ≠ p_module_id → module_cache_ e' !! q = module_cache_ e !! q) ∧
    trace_ e' = trace_ e ++ [EvLoaderLoad p_module_id p_module_id].
Proof.
  intros Hnone Hin.
  unfold _load_module. unfold bind at 1. unfold get at 1. rewrite Hnone.
  rewrite bool_decide_eq_true_2 by done.
  unfold module_cache_insert, Object_New, call_loader_load, call_on_load,
    module_get, module_update.
  munfold. simpl. rewrite lookup_insert_eq. simpl.
  destruct (loader_load _ _ _) as [[ok m'] iso'] eqn:Hload. simpl.
  rewrite lookup_insert_eq. simpl. destruct ok; simpl.
  - rewrite lookup_insert_eq. simpl.
    destruct (module_on_load m' iso') as [m'' iso''] eqn:Hon. simpl.
    rewrite lookup_insert_eq. simpl.
    eexists. split; [reflexivity|]. simpl. rewrite lookup_insert_eq.
    split; [by eexists|]. split; [|done].
    intros q Hq. by rewrite !lookup_insert_ne.
  - eexists. split; [reflexivity|]. simpl. rewrite lookup_insert_eq.
    split; [by eexists|]. split; [|done].
    intros q Hq. by rewrite !lookup_insert_ne.
Qed.

Lemma load_module_by_loader_witness :
  ∃ e',
    @_load_module strict_modules "" "godot" example_env = Ok (None, e') ∧
    is_Some (module_cache_ e' !! "godot") ∧
    trace_ e' = trace_ example_env ++ [EvLoaderLoad "godot" "godot"].
Proof.
  destruct (@load_module_by_loader strict_modules example_env "" "godot")
    as (e' & Hl & Hs & _ & Htr).
  - reflexivity.
  - vm_compute. reflexivity.
  - exists e'. split; [exact Hl|]. split; [exact Hs|exact Htr].
Defined.

(** X23. A loader cannot reload: for an id with a registered loader whose
    module is in the cache with a reload requested, [_load_module] fails
    its check and loads nothing. *)
Theorem load_module_loader_no_reload `{ModuleSystem} e p_parent_id p_module_id m :
  module_cache_ e !! p_module_id = Some m →
  is_loaded m = false →
  p_module_id ∈ module_loaders_ e →
  _load_module p_parent_id p_module_id e = Crash "module loader does not support reloading".
Proof.
  intros Hm Hl Hin.
  unfold _load_module. unfold bind at 1. unfold get at 1. rewrite Hm, Hl.
  by rewrite bool_decide_eq_true_2 by done.
Qed.

Lemma load_module_loader_no_reload_witness :
  @_load_module example_modules "" "godot"
    (set_module_cache_ {["godot" := example_dirty_module]} example_env)
  = Crash "module loader does not support reloading".
Proof.
  apply (@load_module_loader_no_reload example_modules
           (set_module_cache_ {["godot" := example_dirty_module]} example_env)
           "" "godot" example_dirty_module).
  - reflexivity.
  - reflexivity.
  - vm_compute. reflexivity.
Defined.


(* ===================================================================== *)
(** ** Loading by name, reload requests, evaluation, rebinding *)
(* ===================================================================== *)

(** X24. [load] never leaves an exception pending.  Whenever it returns,
    it has returned the module [_load_module] gave for the empty parent,
    the error is [OK] exactly when [_load_module] left no exception, and
    then the environment is the one [_load_module] left; otherwise only
    the pending exception and the trace differ from it. *)
Theorem load_result `{Host} `{ModuleSystem} p_name e err m e' :
  load p_name e = Ok ((err, m), e') →
  TryCatch_has_caught (isolate_ e') = false ∧
  ∃ e1, _load_module "" p_name e = Ok (m, e1) ∧
        (err = OK ↔ TryCatch_has_caught (isolate_ e1) = false) ∧
        (err = OK → e' = e1) ∧
        module_cache_ e' = module_cache_ e1 ∧ objects_ e' = objects_ e1.
Proof.
  intros Hl. unfold load, check_internal_state in Hl.
  unfold bind at 1 in Hl. unfold bind at 1, get at 1, jsb_check, jsb_checkf in Hl.
  destruct (get_caller_id =? thread_id_ e); [|discriminate]. unfold ret at 1 in Hl.
  unfold bind at 1 in Hl.
  destruct (_load_module "" p_name e) as [[r e1]|msg] eqn:Hload; [|discriminate].
  unfold bind at 1, get at 1 in Hl.
  unfold TryCatch_has_caught, BridgeHelper_get_exception, TryCatch_get_message in *.
  destruct (exception_ (isolate_ e1)) as [ex|] eqn:Hex.
  - munfold. simpl in Hl. rewrite Hex in Hl. simpl in Hl. injection Hl as <- <- <-.
    simpl. split; [done|]. exists e1. rewrite Hex.
    split; [done|]. split; [split; discriminate|]. split; [discriminate|done].
  - munfold. injection Hl as <- <- <-. rewrite Hex. split; [done|]. exists e1.
    rewrite Hex. split; [done|]. split; [split; done|]. split; done.
Qed.

Lemma load_result_witness :
  TryCatch_has_caught
    (isolate_ (set_trace_ (trace_ example_env_modules ++ [EvResolve 0 "a"]) example_env_modules))
    = false ∧
  ∃ e1, @_load_module example_modules "" "a" example_env_modules = Ok (Some "res://a.js", e1) ∧
        (OK = OK ↔ TryCatch_has_caught (isolate_ e1) = false).
Proof.
  destruct (@load_result example_host example_modules "a" example_env_modules OK
              (Some "res://a.js")
              (set_trace_ (trace_ example_env_modules ++ [EvResolve 0 "a"]) example_env_modules)
              ltac:(vm_compute; reflexivity))
    as (Hc & e1 & Hl & Hiff & _).
  split; [exact Hc|]. exists e1. split; [exact Hl|exact Hiff].
Defined.

(** X25. Loading by name an id that no loader and no resolver knows
    fails cleanly: [load] returns [ERR_COMPILATION_FAILED] and a null
    module, the cache is unchanged, no exception stays pending, and the
    trace ends with the throw, the log of the exception and the
    warning. *)
Theorem load_unknown_module `{Host} `{ModuleSystem} p_name e :
  (get_caller_id =? thread_id_ e) = true →
  (match module_cache_ e !! p_name with
   | Some m0 => is_loaded m0 | None => false end) = false →
  (p_name ∉ module_loaders_ e) →
  normalized_module_id "" p_name = Some p_name →
  resolve_in (module_resolvers_ e) p_name = None →
  ∃ e',
    load p_name e = Ok ((ERR_COMPILATION_FAILED, None), e') ∧
    module_cache_ e' = module_cache_ e ∧
    exception_ (isolate_ e') = None ∧
    trace_ e' = trace_ e ++ ((λ r, EvResolve r p_name) <$> module_resolvers_ e) ++
      [EvThrow ("unknown module: " +:+ p_name);
       EvLog Error "[%s:%s] %s\nJavascript stack:\n%s"
         [LStr "native"; LStr ""; LStr ("unknown module: " +:+ p_name); LStr ""];
       EvLog Warning "something went wrong on loading '%s'\n%s"
         [LStr p_name; LStr (("unknown module: " +:+ p_name) +:+ "\n" +:+ "")]].
Proof.
  intros Ht Hmiss Hnl Hnorm Hres.
  unfold load, check_internal_state.
  unfold bind at 1. unfold bind at 1, get at 1, jsb_check, jsb_checkf. rewrite Ht.
  unfold ret at 1. unfold bind at 1.
  rewrite (load_module_unknown_eq e "" p_name p_name) by done.
  unfold TryCatch_has_caught, BridgeHelper_get_exception, TryCatch_get_message.
  munfold. simpl. eexists. split; [reflexivity|]. simpl.
  split; [done|]. split; [done|].
  rewrite resolve_events_all by done. by rewrite <- !List.app_assoc.
Qed.

Lemma load_unknown_module_witness :
  ∃ e',
    @load example_host example_modules "b" example_env_modules
      = Ok ((ERR_COMPILATION_FAILED, None), e') ∧
    module_cache_ e' = module_cache_ example_env_modules ∧
    exception_ (isolate_ e') = None.
Proof.
  destruct (@load_unknown_module example_host example_modules "b" example_env_modules)
    as (e' & Hl & Hc & Hx & _).
  - reflexivity.
  - reflexivity.
  - vm_compute. intros Hin. discriminate Hin.
  - reflexivity.
  - reflexivity.
  - exists e'. split; [exact Hl|]. split; [exact Hc|exact Hx].
Defined.

(** X26. [mark_as_reloading] answers [NoSuchModule] exactly for an id
    that is not in the cache.  It touches nothing but the entry of that
    id: the other modules, the isolate, the registry and the trace stay
    as they are.  A module that is already dirty is answered [Requested]
    without its source being looked at; for a loaded module the answer and
    the new entry are the ones its own [mark_as_reloading] gives. *)
Theorem mark_as_reloading_result `{ScriptSource} p_name e r e' :
  mark_as_reloading p_name e = Ok (r, e') →
  (r = NoSuchModule ↔ module_cache_ e !! p_name = None) ∧
  (∀ q, q ≠ p_name → module_cache_ e' !! q = module_cache_ e !! q) ∧
  isolate_ e' = isolate_ e ∧ objects_ e' = objects_ e ∧ trace_ e' = trace_ e ∧
  (∀ m, module_cache_ e !! p_name = Some m →
        source_filepath (source_info m) ≠ "" ∧
        (is_loaded m = false → r = Requested ∧ e' = e) ∧
        (is_loaded m = true →
           module_cache_ e' !! p_name = Some (module_mark_as_reloading m).2 ∧
           r = if (module_mark_as_reloading m).1 then Requested else NoChanges)).
Proof.
  intros Hr. unfold mark_as_reloading, module_update in Hr. munfold. simpl in Hr.
  destruct (module_cache_ e !! p_name) as [m|] eqn:Hm.
  - destruct (String.eqb (source_filepath (source_info m)) "") eqn:Hpath;
      [discriminate|]. simpl in Hr.
    apply String.eqb_neq in Hpath.
    destruct (is_loaded m) eqn:Hl; simpl in Hr.
    + destruct (module_mark_as_reloading m) as [changed m'] eqn:Hmark.
      rewrite Hm in Hr.
      assert (r = (if changed then Requested else NoChanges) ∧
              e' = set_module_cache_ (<[p_name := m']> (module_cache_ e)) e) as [-> ->].
      { destruct changed; injection Hr as <- <-; done. }
      simpl. split; [split; [by destruct changed|done]|].
      split; [intros q Hq; by rewrite lookup_insert_ne|].
      split; [done|]. split; [done|]. split; [done|].
      intros m0 Hm0. injection Hm0 as <-. split; [done|].
      split; [intros Hf; congruence|]. intros _. rewrite Hmark. simpl. by rewrite lookup_insert_eq.
    + injection Hr as <- <-. split; [split; done|].
      split; [done|]. split; [done|]. split; [done|]. split; [done|].
      intros m0 Hm0. injection Hm0 as <-. split; [done|]. split; [done|]. intros Hf; congruence.
  - injection Hr as <- <-. split; [done|]. split; [done|]. split; [done|].
    split; [done|]. split; [done|]. intros m0 Hm0. done.
Qed.

Lemma mark_as_reloading_result_witness :
  (NoChanges = NoSuchModule ↔ module_cache_ example_env_modules !! "res://a.js" = None) ∧
  @mark_as_reloading example_source "res://a.js" example_env_modules
    = Ok (NoChanges, example_env_modules).
Proof.
  split; [|vm_compute; reflexivity].
  destruct (@mark_as_reloading_result example_source "res://a.js" example_env_modules
              NoChanges example_env_modules ltac:(vm_compute; reflexivity)) as (Hiff & _).
  exact Hiff.
Defined.

(** X27. [eval_source] always returns and never leaves an exception
    pending.  The error is [OK] exactly when the evaluation left no
    exception, and then the value handed out is the one the evaluation
    gave and the engine is in the state the evaluation left; on
    [ERR_COMPILATION_FAILED] no value is handed out, and the exception
    has been logged as an error. *)
Theorem eval_source_total `{ScriptSource} p_source p_filename e :
  ∃ err v e',
    eval_source p_source p_filename e = Ok ((err, v), e') ∧
    TryCatch_has_caught (isolate_ e') = false ∧
    (err = OK ↔
     TryCatch_has_caught (Helper_eval p_source p_filename (isolate_ e)).2 = false) ∧
    (err = OK →
     v = (Helper_eval p_source p_filename (isolate_ e)).1 ∧
     isolate_ e' = (Helper_eval p_source p_filename (isolate_ e)).2) ∧
    (err = ERR_COMPILATION_FAILED →
     v = None ∧
     ∃ ex, exception_ (Helper_eval p_source p_filename (isolate_ e)).2 = Some ex ∧
           last (trace_ e') =
             Some (EvLog Error "failed to eval_source: %s"
                     [LStr (ex_message ex +:+ "\n" +:+ ex_stack ex)])).
Proof.
  unfold eval_source, TryCatch_has_caught, BridgeHelper_get_exception, TryCatch_get_message.
  munfold. simpl.
  destruct (Helper_eval p_source p_filename (isolate_ e)) as [maybe iso'] eqn:Heval. simpl.
  destruct (exception_ iso') as [ex|] eqn:Hex; simpl.
  - rewrite Hex. simpl. eexists _, _, _. split; [reflexivity|]. simpl.
    split; [done|]. split; [split; discriminate|]. split; [discriminate|].
    intros _. split; [done|]. exists ex. split; [done|]. apply last_snoc.
  - eexists _, _, _. split; [reflexivity|]. simpl. rewrite Hex.
    split; [done|]. split; [done|]. split; [done|]. discriminate.
Qed.

Section RebindFacts.
Context `{Host}.

Lemma rebind_unbound_eq p cid e :
  (get_caller_id =? thread_id_ e) = true →
  objects_index_ e !! p = None →
  rebind p cid e = Ok (tt, set_trace_ (trace_ e ++ [EvLog Fatal "bad instance" []]) e).
Proof.
  intros Ht Hp. unfold rebind, check_internal_state, _rebind, try_get_object.
  munfold. simpl. rewrite Ht. simpl. by rewrite Hp.
Qed.

End RebindFacts.

(** X28. [rebind] on an address that is not bound logs ["bad instance"]
    and does nothing else; the class id is not even looked up, so that an
    id that is not in the class table is harmless here. *)
Theorem rebind_unbound `{Host} p cid e :
  (get_caller_id =? thread_id_ e) = true →
  objects_index_ e !! p = None →
  ∃ e', rebind p cid e = Ok (tt, e') ∧
        e' = set_trace_ (trace_ e ++ [EvLog Fatal "bad instance" []]) e ∧
        (script_classes_ e !! cid = None → get_script_class cid e' = Crash "SArray: invalid index").
Proof.
  intros Ht Hp. eexists. split; [by apply rebind_unbound_eq|]. split; [done|].
  intros Hc. unfold get_script_class. simpl. by rewrite Hc.
Qed.

Lemma rebind_unbound_witness :
  ∃ e', @rebind example_host 555 9 example_env_crossbound = Ok (tt, e') ∧
        e' = set_trace_ (trace_ example_env_crossbound ++ [EvLog Fatal "bad instance" []])
               example_env_crossbound ∧
        (script_classes_ example_env_crossbound !! 9 = None →
         get_script_class 9 e' = Crash "SArray: invalid index").
Proof.
  apply (@rebind_unbound example_host 555 9 example_env_crossbound).
  - reflexivity.
  - reflexivity.
Defined.


